(** * Sharded visit counter: ring, shard manager, write buffer, read cache

    A shallow embedding of the counting core of the service
    ([app/core/consistent_hash.py], [app/core/redis_manager.py],
    [app/services/visit_counter.py], with the settings of
    [app/core/config.py], the metrics model of [app/schemas/counter.py] and
    the read endpoint of [app/api/v1/endpoints/counter.py])
    and the properties of its specification that were checked against it.

    Conventions.
    - A Python [str] is a Rocq [string] holding its UTF-8 bytes, which is
      what [key.encode()] hands to the hash.
    - A Python [int] is a [Z]; counts that only bound a [range] are [nat].
    - A clock reading is a number of microseconds; the one [float] the code
      computes, [timedelta.total_seconds()], is the nearest double, given
      by its mantissa and exponent.
    - A [dict] whose iteration order is observable (the write buffer) is an
      insertion-ordered association list; the other dicts are [gmap]s.
    - Code that can raise returns a [result]; code that also mutates the
      service or talks to a shard runs in a state-and-exception monad whose
      state survives a raise, as Python's does. *)

From Stdlib Require Import ZArith Lia List String Ascii DecimalString.
From stdpp Require Import base gmap strings list sorting finite.

Local Open Scope string_scope.
Local Open Scope list_scope.
Local Open Scope Z_scope.

(* ===================================================================== *)
(** ** MD5 (RFC 1321), as [hashlib.md5(...).hexdigest()] read in base 16

    [ConsistentHash._get_hash] is
    [int(hashlib.md5(key.encode()).hexdigest(), 16)]. *)
(* ===================================================================== *)

Module MD5.

Definition w32 (x : Z) : Z := x mod 4294967296.

Definition rotl (x c : Z) : Z :=
  w32 (Z.lor (Z.shiftl x c) (Z.shiftr x (32 - c))).

Definition lnot32 (x : Z) : Z := Z.lxor x 4294967295.

(** [floor (2^32 * abs (sin (i + 1)))] for [i = 0 .. 63]. *)
Definition K : list Z :=
  [ 3614090360; 3905402710; 606105819; 3250441966; 4118548399; 1200080426; 2821735955; 4249261313;
    1770035416; 2336552879; 4294925233; 2304563134; 1804603682; 4254626195; 2792965006; 1236535329;
    4129170786; 3225465664; 643717713; 3921069994; 3593408605; 38016083; 3634488961; 3889429448;
    568446438; 3275163606; 4107603335; 1163531501; 2850285829; 4243563512; 1735328473; 2368359562;
    4294588738; 2272392833; 1839030562; 4259657740; 2763975236; 1272893353; 4139469664; 3200236656;
    681279174; 3936430074; 3572445317; 76029189; 3654602809; 3873151461; 530742520; 3299628645;
    4096336452; 1126891415; 2878612391; 4237533241; 1700485571; 2399980690; 4293915773; 2240044497;
    1873313359; 4264355552; 2734768916; 1309151649; 4149444226; 3174756917; 718787259; 3951481745 ].

Definition shifts : list Z :=
  [ 7; 12; 17; 22; 7; 12; 17; 22; 7; 12; 17; 22; 7; 12; 17; 22;
    5; 9; 14; 20; 5; 9; 14; 20; 5; 9; 14; 20; 5; 9; 14; 20;
    4; 11; 16; 23; 4; 11; 16; 23; 4; 11; 16; 23; 4; 11; 16; 23;
    6; 10; 15; 21; 6; 10; 15; 21; 6; 10; 15; 21; 6; 10; 15; 21 ].

Definition bytes_of_string (s : string) : list Z :=
  List.map (fun c => Z.of_nat (nat_of_ascii c)) (list_ascii_of_string s).

(** [n] little-endian bytes of [x]. *)
Fixpoint le_bytes (n : nat) (x : Z) : list Z :=
  match n with
  | O => []
  | S n' => x mod 256 :: le_bytes n' (x / 256)
  end.

Definition pad (msg : list Z) : list Z :=
  let len := Z.of_nat (length msg) in
  msg ++ [128] ++ repeat 0 (Z.to_nat ((55 - len) mod 64)) ++ le_bytes 8 (8 * len).

(** The 32-bit little-endian words of a byte list (four bytes a word). *)
Fixpoint words (fuel : nat) (bs : list Z) : list Z :=
  match fuel, bs with
  | S f, b0 :: b1 :: b2 :: b3 :: rest =>
      (b0 + 256 * (b1 + 256 * (b2 + 256 * b3))) :: words f rest
  | _, _ => []
  end.

Record state := State { sA : Z; sB : Z; sC : Z; sD : Z }.

Definition init : state :=
  State 1732584193 4023233417 2562383102 271733878.

Definition round (M : list Z) (i : nat) (s : state) : state :=
  let '(State a b c d) := s in
  let '(f, g) :=
    if (i <? 16)%nat then (Z.lor (Z.land b c) (Z.land (lnot32 b) d), i)
    else if (i <? 32)%nat then
      (Z.lor (Z.land d b) (Z.land (lnot32 d) c), ((5 * i + 1) mod 16)%nat)
    else if (i <? 48)%nat then
      (Z.lxor (Z.lxor b c) d, ((3 * i + 5) mod 16)%nat)
    else (Z.lxor c (Z.lor b (lnot32 d)), ((7 * i) mod 16)%nat) in
  let f' := w32 (f + a + nth i K 0 + nth g M 0) in
  State d (w32 (b + rotl f' (nth i shifts 0))) b c.

Definition block (s : state) (M : list Z) : state :=
  let '(State a b c d) := fold_left (fun st i => round M i st) (seq 0 64) s in
  State (w32 (sA s + a)) (w32 (sB s + b)) (w32 (sC s + c)) (w32 (sD s + d)).

(** Cut a word list into blocks of sixteen words. *)
Fixpoint blocks (fuel : nat) (ws : list Z) : list (list Z) :=
  match fuel, ws with
  | S f, _ :: _ => firstn 16 ws :: blocks f (skipn 16 ws)
  | _, _ => []
  end.

Definition digest (s : string) : state :=
  let bs := pad (bytes_of_string s) in
  let ws := words (length bs) bs in
  fold_left block (blocks (length ws) ws) init.

(** A 32-bit word with its four bytes reversed: the digest lists each
    word's bytes in little-endian order, the hexadecimal reading is
    big-endian. *)
Definition bswap32 (x : Z) : Z :=
  match le_bytes 4 x with
  | [b0; b1; b2; b3] => b3 + 256 * (b2 + 256 * (b1 + 256 * b0))
  | _ => 0
  end.

Definition md5_int (s : string) : Z :=
  let '(State a b c d) := digest s in
  bswap32 d + 4294967296 * (bswap32 c + 4294967296 * (bswap32 b + 4294967296 * bswap32 a)).

End MD5.

(* ===================================================================== *)
(** ** Python values that the model needs *)
(* ===================================================================== *)

Module Py.

(** The exceptions the code can meet.  All of them are subclasses of
    [Exception]; [RedisError] stands for [redis.RedisError] and its
    subclasses (connection and timeout errors included).  Task
    cancellation, which is not an [Exception], is outside the model. *)
Inductive exn : Type :=
| AttributeError (msg : string)
| IndexError (msg : string)
| KeyError (key : string)
| TypeError (msg : string)
| ValueError (msg : string)
| RedisError (msg : string)
| Exception (msg : string).

Definition is_RedisError (e : exn) : bool :=
  match e with RedisError _ => true | _ => false end.

(** [str(e)] *)
Definition str_exn (e : exn) : string :=
  match e with
  | AttributeError m | IndexError m | KeyError m | TypeError m
  | ValueError m | RedisError m | Exception m => m
  end.

Inductive result (A : Type) : Type :=
| Ok (a : A)
| Raise (e : exn).
Arguments Ok {A} a.
Arguments Raise {A} e.

Definition rbind {A B} (r : result A) (k : A → result B) : result B :=
  match r with Ok a => k a | Raise e => Raise e end.

(** [str(i)] for a non-negative int, as an f-string formats it. *)
Definition str_nat (i : nat) : string := NilEmpty.string_of_uint (Nat.to_uint i).

(** State and exceptions: a raise keeps the state reached so far. *)
Definition M (St A : Type) : Type := St → result A * St.

Definition ret {St A} (a : A) : M St A := fun s => (Ok a, s).
Definition raise {St A} (e : exn) : M St A := fun s => (Raise e, s).
Definition bind {St A B} (m : M St A) (k : A → M St B) : M St B :=
  fun s => match m s with
           | (Ok a, s') => k a s'
           | (Raise e, s') => (Raise e, s')
           end.
Definition of_result {St A} (r : result A) : M St A := fun s => (r, s).

(** [try: body except Exception as e: handler(e)] *)
Definition try_except {St A} (body : M St A) (handler : exn → M St A) : M St A :=
  fun s => match body s with
           | (Ok a, s') => (Ok a, s')
           | (Raise e, s') => handler e s'
           end.

(** Run [body] and hand its outcome over as a value. *)
Definition attempt {St A} (body : M St A) : M St (result A) :=
  fun s => let '(r, s') := body s in (Ok r, s').

End Py.

Import Py.

Declare Scope py_scope.
Notation "x ← m ; k" := (Py.bind m (fun x => k))
  (at level 20, m at level 100, k at level 200, only parsing) : py_scope.
Notation "m ;; k" := (Py.bind m (fun _ => k))
  (at level 100, k at level 200, only parsing, right associativity) : py_scope.
Delimit Scope py_scope with py.

(* ===================================================================== *)
(** ** An insertion-ordered [dict] with [str] keys

    Iterating [buffer_to_write.items()] visits the keys in the order of
    their first insertion, and that order fixes the order of the shard
    calls of a flush. *)
(* ===================================================================== *)

Module PyDict.

Section Dict.
Context {V : Type}.

Definition t : Type := list (string * V).

(** [d.get(k)] *)
Fixpoint get (k : string) (d : t) : option V :=
  match d with
  | [] => None
  | (k', v) :: d' => if decide (k' = k) then Some v else get k d'
  end.

(** [k in d] *)
Definition contains (k : string) (d : t) : bool :=
  match get k d with Some _ => true | None => false end.

(** [d[k] = v]: in place for a key already there, at the end for a new one. *)
Fixpoint set (k : string) (v : V) (d : t) : t :=
  match d with
  | [] => [(k, v)]
  | (k', v') :: d' =>
      if decide (k' = k) then (k, v) :: d' else (k', v') :: set k v d'
  end.

(** [d.pop(k, None)]; the keys of a dict are distinct, so that the binding
    of [k] is all that goes. *)
Fixpoint pop (k : string) (d : t) : t :=
  match d with
  | [] => []
  | (k', v') :: d' => if decide (k' = k) then pop k d' else (k', v') :: pop k d'
  end.


End Dict.
Arguments t V : clear implicits.

End PyDict.

(* ===================================================================== *)
(** ** The consistent-hash ring ([app/core/consistent_hash.py]) *)
(* ===================================================================== *)

(** [bisect.bisect(a, x)], that is [bisect_right] with [lo = 0] and
    [hi = len(a)]: the loop [while lo < hi] of the standard library, one
    unit of fuel an iteration.  [len(a)] units are enough, see
    [bisect_loop_spec]. *)
Fixpoint bisect_loop (fuel : nat) (a : list Z) (x : Z) (lo hi : nat) : nat :=
  match fuel with
  | O => lo
  | S f =>
      if decide (lo < hi)%nat then
        let mid := ((lo + hi) / 2)%nat in
        match a !! mid with
        | Some am =>
            if decide (x < am) then bisect_loop f a x lo mid
            else bisect_loop f a x (mid + 1) hi
        | None => lo
        end
      else lo
  end.

Definition bisect (a : list Z) (x : Z) : nat :=
  bisect_loop (length a) a x 0 (length a).

Record ConsistentHash := mkRing {
  virtual_nodes : nat;
  hash_ring : gmap Z string;
  sorted_keys : list Z;
  nodes : gset string
}.

(** [sorted(self.hash_ring.keys())] *)
Definition sorted_ring_keys (ring : gmap Z string) : list Z :=
  merge_sort Z.le (map_to_list ring).*1.

(** The label of the [i]-th virtual node, [f"{node}_{i}"]. *)
Definition virtual_node_key (node : string) (i : nat) : string :=
  node +:+ "_" +:+ str_nat i.

Section Ring.

(** [_get_hash]: the hash of a label or key.  The program uses
    [MD5.md5_int]; the ring code itself only calls it. *)
Variable _get_hash : string → Z.

(** [ConsistentHash.__init__] before the nodes are added. *)
Definition empty_ring (virtual_nodes : nat) : ConsistentHash :=
  mkRing virtual_nodes ∅ [] ∅.

(** The collision loop of [add_node]:
    [while hash_key in self.hash_ring: virtual_node_key += "_collision"; rehash].
    It gives the first free hash, or [None] when [fuel] rehashes did not
    reach one. *)
Fixpoint free_hash (fuel : nat) (ring : gmap Z string) (key : string) : option Z :=
  let hash_key := _get_hash key in
  match ring !! hash_key with
  | None => Some hash_key
  | Some _ =>
      match fuel with
      | O => None
      | S f => free_hash f ring (key +:+ "_collision")
      end
  end.

(** The body of [for i in range(self.virtual_nodes)] in [add_node]. *)
Fixpoint add_virtual_nodes (fuel : nat) (node : string) (idxs : list nat)
    (ring : gmap Z string) : option (gmap Z string) :=
  match idxs with
  | [] => Some ring
  | i :: idxs' =>
      match free_hash fuel ring (virtual_node_key node i) with
      | None => None
      | Some hash_key => add_virtual_nodes fuel node idxs' (<[hash_key := node]> ring)
      end
  end.

(** [add_node]; [None] when a collision loop ran out of fuel. *)
Definition add_node (fuel : nat) (r : ConsistentHash) (node : string) : option ConsistentHash :=
  if decide (node ∈ nodes r) then Some r
  else
    match add_virtual_nodes fuel node (seq 0 (virtual_nodes r)) (hash_ring r) with
    | None => None
    | Some ring' =>
        Some (mkRing (virtual_nodes r) ring' (sorted_ring_keys ring') ({[node]} ∪ nodes r))
    end.

(** [keys_to_remove] of [remove_node]. *)
Definition keys_to_remove (node : string) (virtual_nodes : nat) : list Z :=
  (λ i, _get_hash (virtual_node_key node i)) <$> seq 0 virtual_nodes.

(** [for key in keys_to_remove: self.hash_ring.pop(key, None)] *)
Definition pop_keys (ks : list Z) (ring : gmap Z string) : gmap Z string :=
  foldl (λ m k, delete k m) ring ks.

Definition remove_node (r : ConsistentHash) (node : string) : result ConsistentHash :=
  if decide (node ∈ nodes r) then
    let ring' := pop_keys (keys_to_remove node (virtual_nodes r)) (hash_ring r) in
    Ok (mkRing (virtual_nodes r) ring' (sorted_ring_keys ring') (nodes r ∖ {[node]}))
  else Raise (ValueError ("Node " +:+ node +:+ " not found in hash ring")).

Definition get_node (r : ConsistentHash) (key : string) : result string :=
  if decide (hash_ring r = ∅) then Raise (Exception "Hash ring is empty")
  else
    let key_hash := _get_hash key in
    let idx := bisect (sorted_keys r) key_hash in
    let idx := if decide (idx = length (sorted_keys r)) then O else idx in
    match sorted_keys r !! idx with
    | None => Raise (IndexError "list index out of range")
    | Some h =>
        match hash_ring r !! h with
        | None => Raise (KeyError "hash")
        | Some node => Ok node
        end
    end.

(** [ConsistentHash(nodes, virtual_nodes)]: the nodes are added in order. *)
Fixpoint add_nodes (fuel : nat) (r : ConsistentHash) (ns : list string) : option ConsistentHash :=
  match ns with
  | [] => Some r
  | n :: ns' =>
      match add_node fuel r n with
      | None => None
      | Some r' => add_nodes fuel r' ns'
      end
  end.

Definition ConsistentHash_init (fuel : nat) (ns : list string) (virtual_nodes : nat)
  : option ConsistentHash :=
  add_nodes fuel (empty_ring virtual_nodes) ns.

(** [get_node_distribution] *)
Definition get_node_distribution (r : ConsistentHash) : gmap string nat :=
  set_to_map (λ node, (node, length (filter (λ kv, kv.2 = node) (map_to_list (hash_ring r)))))
             (nodes r).

Definition is_empty (r : ConsistentHash) : bool := bool_decide (size (hash_ring r) = O).

End Ring.

Definition default_nodes : list string :=
  ["redis://redis1:6379"; "redis://redis2:6379"; "redis://redis3:6379"].

(* ===================================================================== *)
(** ** Settings ([app/core/config.py]) and the world outside the process *)
(* ===================================================================== *)

Record Settings := mkSettings {
  REDIS_NODES : list string;       (* [get_redis_nodes_list()] *)
  REDIS_RETRY_ATTEMPTS : nat;
  VIRTUAL_NODES : nat;
  CACHE_TTL_SECONDS : Z;
  CACHE_CAPACITY : Z
}.

(** The defaults of the [Field]s. *)
Definition default_settings : Settings :=
  mkSettings default_nodes 3 100 5 1000.

(** What the core consumes from outside: one Redis client per shard, named
    by the shard's URL, and the wall clock.  A call may fail with any
    exception and may change the world; [clock] is [datetime.now()], in
    microseconds. *)
Class World (W : Type) := {
  client_incr : string → string → Z → M W Z;       (* [incr(key, amount)] *)
  client_get : string → string → M W (option Z);   (* [get(key)], then [int] *)
  client_delete : string → string → M W Z;         (* [delete(key)] *)
  client_ping : string → M W unit;
  clock : W → Z
}.

Declare Scope res_scope.
Notation "x ← m ; k" := (Py.rbind m (fun x => k))
  (at level 20, m at level 100, k at level 200, only parsing) : res_scope.
Delimit Scope res_scope with res.

(* ===================================================================== *)
(** ** The shard manager ([app/core/redis_manager.py]) *)
(* ===================================================================== *)

Record RedisManager := mkManager {
  redis_nodes : list string;
  consistent_hash : ConsistentHash;
  redis_clients : gset string;      (* the nodes that have a client *)
  node_health : gmap string bool
}.

Section Manager.

Variable _get_hash : string → Z.
Variable settings : Settings.
Context {W : Type} `{World W}.

(** [_initialize_connections]; [connects node] tells whether building the
    pool and the client of [node] succeeded. *)
Definition _initialize_connections (connects : string → bool) (ns : list string)
  : gset string * gmap string bool :=
  foldl (λ '(clients, health) node,
           if connects node then ({[node]} ∪ clients, <[node := true]> health)
           else (clients, <[node := false]> health))
        (∅, ∅) ns.

(** [RedisManager.__init__] (the health-check task apart). *)
Definition RedisManager_init (fuel : nat) (connects : string → bool) : option RedisManager :=
  let ns := REDIS_NODES settings in
  match ConsistentHash_init _get_hash fuel ns (VIRTUAL_NODES settings) with
  | None => None
  | Some ring =>
      let '(clients, health) := _initialize_connections connects ns in
      Some (mkManager ns ring clients health)
  end.

(** [self.node_health[node]] *)
Definition health_of (m : RedisManager) (node : string) : result bool :=
  match node_health m !! node with
  | Some h => Ok h
  | None => Raise (KeyError node)
  end.

(** The [for _ in range(len(self.redis_nodes))] loop of [get_connection],
    with its [else] branch. *)
Fixpoint fallback (m : RedisManager) (n : nat) (node : string) : result string :=
  match n with
  | O => Raise (Exception "No healthy Redis nodes available")
  | S n' =>
      (node' ← get_node _get_hash (consistent_hash m) ("fallback_" +:+ node);
       h ← health_of m node';
       if h : bool then Ok node' else fallback m n' node')%res
  end.

(** [get_connection]: the node whose client is returned. *)
Definition get_connection (m : RedisManager) (key : string) : result string :=
  (node ← get_node _get_hash (consistent_hash m) key;
   h ← health_of m node;
   node ← (if h : bool then Ok node else fallback m (length (redis_nodes m)) node);
   if decide (node ∈ redis_clients m) then Ok node else Raise (KeyError node))%res.

(** [try: body except redis.RedisError as e: handler(e)] *)
Definition try_except_redis {A} (body : M W A) (handler : exn → M W A) : M W A :=
  fun w => match body w with
           | (Ok a, w') => (Ok a, w')
           | (Raise e, w') => if is_RedisError e then handler e w' else (Raise e, w')
           end.

(** [attempt == settings.REDIS_RETRY_ATTEMPTS - 1] *)
Definition last_attempt (attempt : nat) : bool :=
  bool_decide (Z.of_nat attempt = Z.of_nat (REDIS_RETRY_ATTEMPTS settings) - 1).

(** [increment]: one iteration of the [for attempt in range(...)] loop an
    element of [attempts]; a loop that runs out returns [None]. *)
Fixpoint increment_loop (m : RedisManager) (key : string) (amount : Z)
    (attempts : list nat) : M W (option Z) :=
  match attempts with
  | [] => ret None
  | attempt :: rest =>
      try_except_redis
        (node ← of_result (get_connection m key);
         v ← client_incr node key amount;
         ret (Some v))%py
        (λ e, if last_attempt attempt
              then raise (Exception ("Failed to increment counter: " +:+ str_exn e))
              else increment_loop m key amount rest)
  end.

Definition increment (m : RedisManager) (key : string) (amount : Z) : M W (option Z) :=
  increment_loop m key amount (seq 0 (REDIS_RETRY_ATTEMPTS settings)).

(** [get]: a missing key reads as [0]. *)
Fixpoint get_loop (m : RedisManager) (key : string) (attempts : list nat)
  : M W (option (Z * string)) :=
  match attempts with
  | [] => ret None
  | attempt :: rest =>
      try_except_redis
        (node ← of_result (get_connection m key);
         value ← client_get node key;
         ret (Some (match value with Some v => v | None => 0 end, node)))%py
        (λ e, if last_attempt attempt
              then raise (Exception ("Failed to get counter value: " +:+ str_exn e))
              else get_loop m key rest)
  end.

Definition get (m : RedisManager) (key : string) : M W (option (Z * string)) :=
  get_loop m key (seq 0 (REDIS_RETRY_ATTEMPTS settings)).

(** [reset]: [bool(redis_client.delete(key))] *)
Definition reset (m : RedisManager) (key : string) : M W bool :=
  try_except_redis
    (node ← of_result (get_connection m key);
     n ← client_delete node key;
     ret (negb (n =? 0)%Z))%py
    (λ e, raise (Exception ("Failed to reset counter: " +:+ str_exn e))).

(** One round of [_health_check_loop]: every node is pinged in turn, and
    its health becomes whether its client exists and answered. *)
Definition set_node_health (node : string) (h : bool) (m : RedisManager) : RedisManager :=
  mkManager (redis_nodes m) (consistent_hash m) (redis_clients m)
            (<[node := h]> (node_health m)).

Definition ping_node (m : RedisManager) (node : string) : M W RedisManager :=
  if decide (node ∈ redis_clients m) then
    fun w => match client_ping node w with
             | (Ok _, w') => (Ok (set_node_health node true m), w')
             | (Raise _, w') => (Ok (set_node_health node false m), w')
             end
  else ret (set_node_health node false m).

Fixpoint ping_nodes (m : RedisManager) (ns : list string) : M W RedisManager :=
  match ns with
  | [] => ret m
  | node :: rest => (m' ← ping_node m node; ping_nodes m' rest)%py
  end.

Definition _health_check_round (m : RedisManager) : M W RedisManager :=
  ping_nodes m (redis_nodes m).

End Manager.

(** The dict of [get_status]: ["nodes"], ["healthy_nodes"], ["node_status"]
    and ["distribution"]. *)
Module ManagerStatus.
Record t := mk {
  nodes : nat;
  healthy_nodes : nat;
  node_status : gmap string bool;
  distribution : gmap string nat
}.
End ManagerStatus.

(** [sum(1 for health in self.node_health.values() if health)] *)
Definition count_healthy (health : gmap string bool) : nat :=
  length (filter (λ kv, kv.2 = true) (map_to_list health)).

Definition get_status (m : RedisManager) : ManagerStatus.t :=
  ManagerStatus.mk (length (redis_nodes m)) (count_healthy (node_health m))
                   (node_health m) (get_node_distribution (consistent_hash m)).

Section Mget.

Variable _get_hash : string → Z.
Context {W : Type} `{World W}.

(** [redis_client.mget(keys)]: one answer a key, in the order of the keys. *)
Variable client_mget : string → list string → M W (list (option Z)).






End Mget.

(* ===================================================================== *)
(** ** The counter service ([app/services/visit_counter.py]) *)
(* ===================================================================== *)

Inductive CounterStatusEnum := ACTIVE | INACTIVE.

(** [CounterMetrics] of [app/schemas/counter.py]: these four fields. *)
Record CounterMetrics := mkMetrics {
  visits : Z;
  status : CounterStatusEnum;
  cache_size : Z;
  last_update : option Z
}.

(** [self.metrics.<name> += 1]: the attribute is read, one is added, the
    sum is stored.  The class declares [visits], [status], [cache_size] and
    [last_update]; reading any other attribute of the instance raises
    [AttributeError], adding an int to the enum or to [None] raises
    [TypeError]. *)
Definition metrics_iadd1 (name : string) (m : CounterMetrics) : result CounterMetrics :=
  if decide (name = "visits") then
    Ok (mkMetrics (visits m + 1) (status m) (cache_size m) (last_update m))
  else if decide (name = "cache_size") then
    Ok (mkMetrics (visits m) (status m) (cache_size m + 1) (last_update m))
  else if decide (name = "status") then
    Raise (TypeError "can only concatenate str (not int) to str")
  else if decide (name = "last_update") then
    Raise (TypeError "unsupported operand type(s) for +=")
  else
    Raise (AttributeError ("'CounterMetrics' object has no attribute '" +:+ name +:+ "'")).

(** A cache entry, [{'value': ..., 'timestamp': ...}]. *)
Record CacheEntry := mkEntry {
  value : Z;
  timestamp : Z
}.

Record VisitCounterService := mkService {
  redis_manager : RedisManager;
  cache : gmap string CacheEntry;
  write_buffer : PyDict.t Z;
  last_write_time : Z;
  metrics : CounterMetrics
}.

Definition set_cache (c : gmap string CacheEntry) (s : VisitCounterService) :=
  mkService (redis_manager s) c (write_buffer s) (last_write_time s) (metrics s).
Definition set_write_buffer (b : PyDict.t Z) (s : VisitCounterService) :=
  mkService (redis_manager s) (cache s) b (last_write_time s) (metrics s).
Definition set_last_write_time (t : Z) (s : VisitCounterService) :=
  mkService (redis_manager s) (cache s) (write_buffer s) t (metrics s).
Definition set_metrics (m : CounterMetrics) (s : VisitCounterService) :=
  mkService (redis_manager s) (cache s) (write_buffer s) (last_write_time s) m.

(** The increments of other tasks that run while a [get] is suspended:
    [during_flush] lists, for each entry of the flushed snapshot in order,
    the pages incremented while that entry's shard increment was awaited;
    [during_get] the pages incremented while the shard read was awaited. *)
Record Interleaving := mkInterleaving {
  during_flush : list (list string);
  during_get : list string
}.

Definition quiet : Interleaving := mkInterleaving [] [].

(** A number of seconds in the microseconds of the clock. *)
Definition seconds (n : Z) : Z := n * 1000000.

(** The floats that [timedelta.total_seconds()] returns.  A clock reading
    is a number of microseconds and a [timedelta] the difference of two;
    [total_seconds()] is the true division of that int by [10**6], which
    Python rounds to the nearest double, ties to even.  The quotients met
    here are far from the subnormal and from the infinite doubles, so a
    float is a mantissa of 53 bits and an exponent. *)
Module PyFloat.

(** The value is [mantissa * 2 ^ exponent]. *)
Record t := mk {
  mantissa : Z;
  exponent : Z
}.

(** The integer nearest to [a / b], the even one of two that are equally
    near, for [0 ≤ a] and [0 < b]. *)
Definition round_half_even (a b : Z) : Z :=
  let q := a / b in
  let r := a mod b in
  if 2 * r <? b then q
  else if b <? 2 * r then q + 1
  else if Z.even q then q else q + 1.

(** [a / b] for ints [0 < a] and [0 < b]: the exponent is chosen so that
    the quotient, scaled, has 53 bits before the rounding. *)
Definition true_divide_pos (a b : Z) : t :=
  let e0 := Z.log2 a - Z.log2 b - 52 in
  let num e := a * 2 ^ Z.max 0 (- e) in
  let den e := b * 2 ^ Z.max 0 e in
  let e := if num e0 <? den e0 * 2 ^ 52 then e0 - 1 else e0 in
  mk (round_half_even (num e) (den e)) e.

(** [x >= n] for a float [x] and an int [n]: Python compares the exact
    values. *)
Definition ge_int (x : t) (n : Z) : bool :=
  if 0 <=? exponent x then n <=? mantissa x * 2 ^ exponent x
  else n * 2 ^ (- exponent x) <=? mantissa x.

End PyFloat.

(** [delta.total_seconds() >= n] for a [timedelta] of [us] microseconds and
    an int [n]. *)
Definition total_seconds_ge (us n : Z) : bool :=
  match us with
  | 0 => n <=? 0
  | Zpos _ => PyFloat.ge_int (PyFloat.true_divide_pos us 1000000) n
  | Zneg _ =>
      let x := PyFloat.true_divide_pos (- us) 1000000 in
      PyFloat.ge_int (PyFloat.mk (- PyFloat.mantissa x) (PyFloat.exponent x)) n
  end.

(** [delta.total_seconds() < n] *)
Definition total_seconds_lt (us n : Z) : bool := negb (total_seconds_ge us n).

Section Service.

Variable _get_hash : string → Z.
Variable settings : Settings.
Context {W : Type} `{World W}.

Local Abbreviation St := (VisitCounterService * W)%type.

Definition on_world {A} (m : M W A) : M St A :=
  fun '(s, w) => let '(r, w') := m w in (r, (s, w')).

Definition on_service (f : VisitCounterService → VisitCounterService) : M St unit :=
  fun '(s, w) => (Ok tt, (f s, w)).

Definition service : M St VisitCounterService := fun '(s, w) => (Ok s, (s, w)).

(** [datetime.now()] *)
Definition now : M St Z := fun '(s, w) => (Ok (clock w), (s, w)).

(** [f"visits:{page_id}"] *)
Definition cache_key_of (page_id : string) : string := "visits:" +:+ page_id.

(** [if page_id not in self.write_buffer: self.write_buffer[page_id] = 0] *)
Definition buffer_setdefault0 (page_id : string) : M St unit :=
  on_service (λ s, if PyDict.contains page_id (write_buffer s) then s
                   else set_write_buffer (PyDict.set page_id 0 (write_buffer s)) s).

(** [self.write_buffer[page_id] += amount] *)
Definition buffer_iadd (page_id : string) (amount : Z) : M St unit :=
  (s ← service;
   match PyDict.get page_id (write_buffer s) with
   | None => raise (KeyError page_id)
   | Some v => on_service (set_write_buffer (PyDict.set page_id (v + amount) (write_buffer s)))
   end)%py.

Definition increment_visit (page_id : string) : M St unit :=
  try_except
    (buffer_setdefault0 page_id;;
     buffer_iadd page_id 1;;
     on_service (λ s, set_cache (delete (cache_key_of page_id) (cache s)) s))%py
    (λ e, raise e).

(** The increments of other tasks, one after the other. *)
Fixpoint interleave (pages : list string) : M St unit :=
  match pages with
  | [] => ret tt
  | page_id :: rest => (increment_visit page_id;; interleave rest)%py
  end.

(** The [for page_id, count in buffer_to_write.items()] loop of
    [_flush_write_buffer]. *)
Fixpoint flush_items (items : list (string * Z)) (arrivals : list (list string))
  : M St unit :=
  match items with
  | [] => ret tt
  | (page_id, count) :: rest =>
      ((if decide (count > 0) then
          try_except
            (s ← service;
             r ← attempt (on_world
                    (increment _get_hash settings (redis_manager s)
                               (cache_key_of page_id) count));
             interleave (hd [] arrivals);;
             _ ← of_result r;
             ret tt)
            (λ e, buffer_setdefault0 page_id;; buffer_iadd page_id count)
        else ret tt);;
       flush_items rest (tl arrivals))%py
  end.

Definition _flush_write_buffer (arrivals : list (list string)) : M St unit :=
  (s ← service;
   match write_buffer s with
   | [] => ret tt
   | buffer_to_write =>
       on_service (set_write_buffer []);;
       flush_items buffer_to_write arrivals;;
       t ← now;
       on_service (set_last_write_time t)
   end)%py.

(** [self.metrics.<name> += 1] on the service. *)
Definition metrics_bump (name : string) : M St unit :=
  (s ← service;
   m ← of_result (metrics_iadd1 name (metrics s));
   on_service (set_metrics m))%py.

(** The read-through of [get_visit_count], from the flush to the return. *)
Definition read_through (page_id : string) (il : Interleaving) : M St (Z * string) :=
  (let cache_key := cache_key_of page_id in
   _flush_write_buffer (during_flush il);;
   s ← service;
   r ← attempt (on_world (get _get_hash settings (redis_manager s) cache_key));
   interleave (during_get il);;
   got ← of_result r;
   match got with
   | None => raise (TypeError "cannot unpack non-iterable NoneType object")
   | Some (count, node) =>
       s ← service;
       let count := match PyDict.get page_id (write_buffer s) with
                    | Some pending => count + pending
                    | None => count
                    end in
       t ← now;
       on_service (λ s, set_cache (<[cache_key := mkEntry count t]> (cache s)) s);;
       ret (count, "redis_" +:+ node)
   end)%py.

(** The [try] block of [get_visit_count]. *)
Definition get_visit_count_try (page_id : string) (il : Interleaving) : M St (Z * string) :=
  (let cache_key := cache_key_of page_id in
   s ← service;
   t ← now;
   match cache s !! cache_key with
   | Some cache_entry =>
       if total_seconds_lt (t - timestamp cache_entry) (CACHE_TTL_SECONDS settings) then
         metrics_bump "cache_hits";;
         ret (value cache_entry, "in_memory")
       else
         metrics_bump "cache_misses";;
         read_through page_id il
   | None =>
       metrics_bump "cache_misses";;
       read_through page_id il
   end)%py.

(** [self.write_buffer.get(page_id, 0)] *)
Definition buffered (page_id : string) (s : VisitCounterService) : Z :=
  match PyDict.get page_id (write_buffer s) with Some v => v | None => 0 end.

Definition get_visit_count (page_id : string) (il : Interleaving) : M St (Z * string) :=
  try_except (get_visit_count_try page_id il)
    (λ e, s ← service; ret (buffered page_id s, "write_buffer"))%py.

Definition reset_counter (page_id : string) : M St bool :=
  try_except
    (let cache_key := cache_key_of page_id in
     on_service (λ s, set_cache (delete cache_key (cache s)) s);;
     on_service (λ s, set_write_buffer (PyDict.pop page_id (write_buffer s)) s);;
     s ← service;
     on_world (reset _get_hash (redis_manager s) cache_key))%py
    (λ e, raise e).

(** [_cleanup_cache] *)
Definition _cleanup_cache : M St unit :=
  (t ← now;
   on_service (λ s,
     set_cache (filter (λ kv, total_seconds_ge (t - timestamp kv.2)
                                               (CACHE_TTL_SECONDS settings) = false)
                       (cache s)) s))%py.

(** [update_metrics] *)
Definition update_metrics : M St unit :=
  try_except
    (s ← service;
     t ← now;
     on_service (set_metrics (mkMetrics (visits (metrics s)) ACTIVE
                                        (Z.of_nat (size (cache s))) (Some t))))%py
    (λ e, ret tt).


End Service.

(* ===================================================================== *)
(** ** The endpoints of the counter ([app/api/v1/endpoints/counter.py]) *)
(* ===================================================================== *)

(** What an endpoint leaves to the framework: the body it returns, or the
    [HTTPException(status_code, detail)] it raises. *)
Inductive response (A : Type) : Type :=
| Body (a : A)
| HTTPException (status_code : Z) (detail : string).
Arguments Body {A} a.
Arguments HTTPException {A} status_code detail.

(** [VisitCount] of [app/schemas/counter.py]. *)
Module VisitCount.
Record t := mk {
  visits : Z;
  served_via : string
}.
End VisitCount.

Section Endpoints.

Variable _get_hash : string → Z.
Variable settings : Settings.
Context {W : Type} `{World W}.

Local Abbreviation St := (VisitCounterService * W)%type.

(** [try: body except Exception as e: raise HTTPException(500, detail + str(e))] *)
Definition or_500 {A} (detail : string) (body : M St A) : St → response A * St :=
  fun st => match body st with
            | (Ok a, st') => (Body a, st')
            | (Raise e, st') => (HTTPException 500 (detail +:+ str_exn e), st')
            end.

(** [get_visits] *)
Definition get_visits (page_id : string) (il : Interleaving)
  : St → response VisitCount.t * St :=
  or_500 "Failed to get visit count: "
    (r ← get_visit_count _get_hash settings page_id il;
     let '(count, source) := r in
     let served_via :=
       if decide (source = "cache") then "in_memory"
       else if String.prefix "redis" source then source
       else "redis" in
     ret (VisitCount.mk count served_via))%py.

End Endpoints.

(* ===================================================================== *)
(** ** A world to run the service in

    Redis servers as key-value stores, one per shard URL.  [INCRBY] creates
    a missing key at zero, [GET] of a missing key answers nil, [DEL]
    answers the number of keys removed.  [faults] schedules the failures:
    each client call takes the head of the list and fails with a
    [RedisError], leaving the store alone, when it is [true]; an empty list
    means no failure.  The clock does not move by itself.  The counters
    are not bounded here: a server keeps them within the signed 64-bit
    range and answers an [INCRBY] that would leave it with an error. *)
(* ===================================================================== *)

Record MemWorld := mkWorld {
  stores : gmap string (gmap string Z);
  faults : list bool;
  time : Z
}.

Definition store_of (node : string) (w : MemWorld) : gmap string Z :=
  default ∅ (stores w !! node).

Definition faulty {A} (call : MemWorld → A * gmap string (gmap string Z)) : M MemWorld A :=
  fun w =>
    match faults w with
    | true :: fs => (Raise (RedisError "Connection refused"), mkWorld (stores w) fs (time w))
    | _ => let '(a, st) := call w in (Ok a, mkWorld st (tl (faults w)) (time w))
    end.

#[export] Instance MemWorld_World : World MemWorld := {|
  client_incr node key amount :=
    faulty (λ w, let v := default 0 (store_of node w !! key) + amount in
                 (v, <[node := <[key := v]> (store_of node w)]> (stores w)));
  client_get node key :=
    faulty (λ w, (store_of node w !! key, stores w));
  client_delete node key :=
    faulty (λ w, (match store_of node w !! key with Some _ => 1 | None => 0 end,
                  <[node := delete key (store_of node w)]> (stores w)));
  client_ping node := faulty (λ w, (tt, stores w));
  clock := time
|}.


(* ===================================================================== *)
(** * The vocabulary of the statements *)
(* ===================================================================== *)

(** ** Lists and the ring *)

(** [a] is in ascending order, read through its indices. *)
Definition ascending (a : list Z) : Prop :=
  ∀ i j vi vj, (i ≤ j)%nat → a !! i = Some vi → a !! j = Some vj → vi ≤ vj.

(** What the loop of [bisect] keeps: left of [lo] everything is [≤ x],
    from [hi] on everything is [> x]. *)
Definition split_at (a : list Z) (x : Z) (lo hi : nat) : Prop :=
  (∀ i v, (i < lo)%nat → a !! i = Some v → v ≤ x) ∧
  (∀ i v, (hi ≤ i)%nat → a !! i = Some v → x < v).

(** The sorted entry list of a ring is the sorted list of its hashes:
    [add_node] and [remove_node] both end on
    [self.sorted_keys = sorted(self.hash_ring.keys())]. *)
Definition ring_wf (r : ConsistentHash) : Prop :=
  sorted_keys r = sorted_ring_keys (hash_ring r).

Inductive ring_op : Type :=
| Add (node : string)
| Remove (node : string).

Definition op_node (op : ring_op) : string :=
  match op with Add node | Remove node => node end.

(** How a run of operations ends: with a ring, with the exception of a
    [remove_node] of an absent shard, or without an end within the fuel of
    the collision loops. *)
Inductive outcome : Type :=
| Finished (r : ConsistentHash)
| Raised (e : exn)
| Unfinished.

(** The entries of the ring that map to [node], counted as
    [get_node_distribution] counts them. *)
Definition entries_of (ring : gmap Z string) (node : string) : nat :=
  length (filter (λ kv, kv.2 = node) (map_to_list ring)).

(** The invariant of the specification: [V] entries per present shard,
    [V · |shards|] entries in all, the entries unique, every entry of a
    present shard. *)
Definition ring_invariant (r : ConsistentHash) : Prop :=
  size (hash_ring r) = (virtual_nodes r * size (nodes r))%nat ∧
  length (sorted_keys r) = size (hash_ring r) ∧
  NoDup (sorted_keys r) ∧
  (∀ h node, hash_ring r !! h = Some node → node ∈ nodes r) ∧
  (∀ node, node ∈ nodes r → entries_of (hash_ring r) node = virtual_nodes r).

Section RingRuns.

Variable _get_hash : string → Z.

Fixpoint run_ops (fuel : nat) (ops : list ring_op) (r : ConsistentHash) : outcome :=
  match ops with
  | [] => Finished r
  | Add node :: ops' =>
      match add_node _get_hash fuel r node with
      | Some r' => run_ops fuel ops' r'
      | None => Unfinished
      end
  | Remove node :: ops' =>
      match remove_node _get_hash r node with
      | Ok r' => run_ops fuel ops' r'
      | Raise e => Raised e
      end
  end.

(** The hashes of the labels of the virtual nodes of the shards [ns]. *)
Definition label_hashes (V : nat) (ns : list string) : list Z :=
  ns ≫= λ node, (λ i, _get_hash (virtual_node_key node i)) <$> seq 0 V.

(** The claim as the specification states it: every sequence of [add] and
    [remove], the removals of absent shards apart, comes to an end and
    leaves a ring that satisfies the invariant. *)
Definition ring_claim : Prop :=
  ∀ (V : nat) (ops : list ring_op),
    ∃ fuel,
      match run_ops fuel ops (empty_ring V) with
      | Finished r => ring_invariant r
      | Raised _ => True
      | Unfinished => False
      end.

(** What the ring is when no rehash ever happened: its entries are the
    hashes of the labels of its shards, all among [ns], each under its
    shard. *)
Definition ring_exact (V : nat) (ns : list string) (r : ConsistentHash) : Prop :=
  virtual_nodes r = V ∧
  ring_wf r ∧
  (∀ node, node ∈ nodes r → node ∈ ns) ∧
  (∀ h node, hash_ring r !! h = Some node ↔
             node ∈ nodes r ∧ ∃ i, (i < V)%nat ∧ h = _get_hash (virtual_node_key node i)) ∧
  size (hash_ring r) = (V * size (nodes r))%nat ∧
  (∀ node, node ∈ nodes r → entries_of (hash_ring r) node = V).

End RingRuns.

(** [a] is in strictly ascending order. *)
Definition strictly_ascending (a : list Z) : Prop :=
  ∀ i j vi vj, (i < j)%nat → a !! i = Some vi → a !! j = Some vj → vi < vj.

(** The stored hash that serves the hash [x]: the least stored hash above
    [x], or, when none is above, the least stored hash of all. *)
Definition successor (ring : gmap Z string) (x h : Z) : Prop :=
  is_Some (ring !! h) ∧
  ((x < h ∧ ∀ h', is_Some (ring !! h') → x < h' → h ≤ h') ∨
   ((∀ h', is_Some (ring !! h') → h' ≤ x) ∧ ∀ h', is_Some (ring !! h') → h ≤ h')).

(** The counts of [get_node_distribution], added up over the shards. *)
Definition distribution_total (r : ConsistentHash) : nat :=
  sum_list ((λ node, default 0%nat (get_node_distribution r !! node)) <$> elements (nodes r)).

(** A hash to run the ring on a collision with: the length of the key.
    The labels "s1_0" and "s2_0" have the same hash, the rehashed label
    "s2_0_collision" has another. *)
Definition length_hash (key : string) : Z := Z.of_nat (String.length key).

(** Names for more shards than MD5 has values. *)
Fixpoint shard_name (k : nat) : string :=
  match k with
  | O => "s"
  | S k' => String "a"%char (shard_name k')
  end.

(** ** The shard manager *)

(** What [RedisManager.__init__] sets up and the health check keeps: the
    entry list of the ring is sorted, every entry of the ring is of a
    configured shard, every configured shard has a health flag, and a shard
    flagged healthy has a client. *)
Definition manager_ok (m : RedisManager) : Prop :=
  ring_wf (consistent_hash m) ∧
  (∀ h node, hash_ring (consistent_hash m) !! h = Some node → node ∈ redis_nodes m) ∧
  (∀ node, node ∈ redis_nodes m → is_Some (node_health m !! node)) ∧
  (∀ node, node_health m !! node = Some true → node ∈ redis_clients m).

(** The stores after [INCRBY key amount] went through on [node]. *)
Definition incremented (node key : string) (amount : Z) (st : gmap string (gmap string Z))
  : gmap string (gmap string Z) :=
  <[node := <[key := default 0 (default ∅ (st !! node) !! key) + amount]>
              (default ∅ (st !! node))]> st.

(** What a Redis counter can hold and [INCRBY] can take: a signed 64-bit
    integer.  Beyond it the server answers [INCRBY] with an error. *)
Definition int64 (z : Z) : Prop := - 2 ^ 63 ≤ z ≤ 2 ^ 63 - 1.

(** The stores after [DEL key] went through on [node]. *)
Definition deleted (node key : string) (st : gmap string (gmap string Z))
  : gmap string (gmap string Z) :=
  <[node := delete key (default ∅ (st !! node))]> st.

(** ** The write buffer *)

(** How often [K] occurs among the pages of [pages]. *)
Definition occurrences (K : string) (pages : list string) : Z :=
  Z.of_nat (length (filter (λ p, p = K) pages)).

(** The service after [increment_visit page_id]: one more pending visit,
    no cache entry for the page. *)
Definition enqueued (page_id : string) (s : VisitCounterService) : VisitCounterService :=
  mkService (redis_manager s)
            (delete (cache_key_of page_id) (cache s))
            (PyDict.set page_id (buffered page_id s + 1) (write_buffer s))
            (last_write_time s) (metrics s).

(** The service after the increments of [pages], in order. *)
Definition arrive (pages : list string) (s : VisitCounterService) : VisitCounterService :=
  foldl (λ s p, enqueued p s) s pages.

(** The service after the restore of the [except] branch of the flush:
    [count] is added to whatever the buffer holds for the page. *)
Definition restored_to (page_id : string) (count : Z) (s : VisitCounterService)
  : VisitCounterService :=
  set_write_buffer (PyDict.set page_id (buffered page_id s + count) (write_buffer s)) s.

(** The visits of [K] accepted while the entries of [items] were flushed. *)
Fixpoint accumulated (K : string) (items : list (string * Z))
    (arrivals : list (list string)) : Z :=
  match items with
  | [] => 0
  | (_, count) :: rest =>
      (if decide (count > 0) then occurrences K (hd [] arrivals) else 0)
      + accumulated K rest (tl arrivals)
  end.

(** A buffer as the service keeps it: no page twice, every count positive. *)
Definition buffer_ok (d : PyDict.t Z) : Prop :=
  NoDup d.*1 ∧ Forall (λ kv, kv.2 > 0) d.

(** The visits of [K] that a snapshot holds and its flush will send. *)
Fixpoint pending (K : string) (items : list (string * Z)) : Z :=
  match items with
  | [] => 0
  | (page_id, count) :: rest =>
      (if decide (count > 0) then if decide (page_id = K) then count else 0 else 0)
      + pending K rest
  end.

Section FlushOutcome.

Variable _get_hash : string → Z.
Variable settings : Settings.
Context {W : Type} `{World W}.

(** The deltas of [K] that a flush of [items] from world [w] puts back:
    those of the entries of [K] whose shard increment raised. *)
Fixpoint put_back (K : string) (rm : RedisManager) (items : list (string * Z)) (w : W) : Z :=
  match items with
  | [] => 0
  | (page_id, count) :: rest =>
      if decide (count > 0) then
        let '(r, w') := increment _get_hash settings rm (cache_key_of page_id) count w in
        (match r with
         | Raise _ => if decide (page_id = K) then count else 0
         | Ok _ => 0
         end) + put_back K rm rest w'
      else put_back K rm rest w
  end.

End FlushOutcome.

(** ** Runs of the service *)

Definition set_redis_manager (m : RedisManager) (s : VisitCounterService) :=
  mkService m (cache s) (write_buffer s) (last_write_time s) (metrics s).

Section Steps.

Variable _get_hash : string → Z.
Variable settings : Settings.
Context {W : Type} `{World W}.

(** One step of a running service: a public operation, or a round of one
    of the background tasks (flusher, cache cleanup, health probe). *)
Inductive service_step : VisitCounterService * W → VisitCounterService * W → Prop :=
| step_increment page_id st :
    service_step st (increment_visit page_id st).2
| step_get page_id il st :
    service_step st (get_visit_count _get_hash settings page_id il st).2
| step_reset page_id st :
    service_step st (reset_counter _get_hash page_id st).2
| step_flush arrivals st :
    service_step st (_flush_write_buffer _get_hash settings arrivals st).2
| step_cleanup st :
    service_step st (_cleanup_cache settings st).2
| step_health s w :
    service_step (s, w)
      (match _health_check_round (redis_manager s) w with
       | (Ok m, w') => (set_redis_manager m s, w')
       | (Raise _, w') => (s, w')
       end).

(** A step of the service or a round of the metrics task. *)
Inductive service_run_step : VisitCounterService * W → VisitCounterService * W → Prop :=
| run_service_step st st' :
    service_step st st' → service_run_step st st'
| run_update_metrics st :
    service_run_step st (update_metrics st).2.

End Steps.

(** What the shard [node] holds for [key]. *)
Definition held (node key : string) (st : gmap string (gmap string Z)) : option Z :=
  default ∅ (st !! node) !! key.



(** Empty shards, no failure scheduled, the clock at [t]. *)
Definition calm_world (t : Z) : MemWorld := mkWorld ∅ [] t.

(** [increment_visit(page_id)], [n] times. *)
Fixpoint increment_visits (n : nat) (page_id : string)
  : M (VisitCounterService * MemWorld) unit :=
  match n with
  | O => ret tt
  | S k => (increment_visit page_id;; increment_visits k page_id)%py
  end.

Section RoundTrip.

Variable _get_hash : string → Z.
Variable settings : Settings.

(** [reset(K); increment(K) × n; flush] with nothing interleaved. *)
Definition reset_increment_flush (n : nat) (page_id : string)
  : M (VisitCounterService * MemWorld) unit :=
  (reset_counter _get_hash page_id;;
   increment_visits n page_id;;
   _flush_write_buffer _get_hash settings [])%py.

(** [reset(K); increment(K) × n; flush; get(K)]. *)
Definition round_trip (n : nat) (page_id : string)
  : M (VisitCounterService * MemWorld) (Z * string) :=
  (reset_increment_flush n page_id;;
   get_visit_count _get_hash settings page_id quiet)%py.

End RoundTrip.

(** [increment("page-A") × 3; get("page-A"); get("page-A")], the second
    read at the clock reading of the first. *)
Definition read_twice : M (VisitCounterService * MemWorld) ((Z * string) * (Z * string)) :=
  (increment_visits 3 "page-A";;
   first ← get_visit_count MD5.md5_int default_settings "page-A" quiet;
   second ← get_visit_count MD5.md5_int default_settings "page-A" quiet;
   ret (first, second))%py.

(** [get_node] sends [key] to [node]. *)
Definition routes (r : ConsistentHash) (key node : string) : bool :=
  match get_node MD5.md5_int r key with
  | Ok node' => bool_decide (node' = node)
  | Raise _ => false
  end.

(** The ring was built, it holds three hundred entries, and it routes
    these three keys so. *)
Definition ring_checks (built : option ConsistentHash) : bool :=
  match built with
  | Some r =>
      bool_decide (length (sorted_keys r) = 300%nat)
      && routes r "visits:page-A" "redis://redis1:6379"
      && routes r "visits:page-C" "redis://redis3:6379"
      && routes r "fallback_redis://redis3:6379" "redis://redis3:6379"
  | None => false
  end.

(** [ConsistentHash(default nodes, 100)] under MD5, with no rehash
    allowed: no label of the default nodes collides. *)
Definition default_ring_checks : bool :=
  ring_checks (ConsistentHash_init MD5.md5_int 0 default_nodes 100).

(** Three shards with two virtual nodes each, added to the empty ring. *)
Definition small_ops : list ring_op := [Add "s1"; Add "s2"; Add "s3"].

(** The run came to an end, the third shard is on the ring, and the ring
    routes this key so. *)
Definition small_checks (o : outcome) : bool :=
  match o with
  | Finished r => bool_decide ("s3" ∈ nodes r) && routes r "visits:page-C" "s2"
  | Raised _ | Unfinished => false
  end.

Definition small_ring_checks : bool :=
  small_checks (run_ops MD5.md5_int 0 small_ops (empty_ring 2)).

(** The ring of one shard with one virtual node. *)
Definition one_entry_ring : ConsistentHash :=
  mkRing 1 {[MD5.md5_int "s1_0" := "s1"]} [MD5.md5_int "s1_0"] {["s1"]}.

(** The default settings with no attempt allowed. *)
Definition no_attempt_settings : Settings := mkSettings default_nodes 0 100 5 1000.

(* ===================================================================== *)
(** * Properties *)
(* ===================================================================== *)

(** ** MD5 and number formatting: test vectors *)

Example md5_empty : MD5.md5_int "" = 281949768489412648962353822266799178366.
Proof. vm_compute. reflexivity. Qed.

Example md5_abc : MD5.md5_int "abc" = 191415658344158766168031473277922803570.
Proof. vm_compute. reflexivity. Qed.

Example md5_two_blocks :
  MD5.md5_int "aaaaaaaaaaaaaaaaaaaaaaaaaaaaaaaaaaaaaaaaaaaaaaaaaaaaaaaaaaaaaaaa"
  = 1704428844837149307458867811447698279.
Proof. vm_compute. reflexivity. Qed.

Example md5_label :
  MD5.md5_int "redis://redis1:6379_0" = 195981330805260778606554477058473925099.
Proof. vm_compute. reflexivity. Qed.

Example str_nat_0 : str_nat 0 = "0".
Proof. reflexivity. Qed.

Example str_nat_10 : str_nat 10 = "10".
Proof. reflexivity. Qed.

Example str_nat_99 : str_nat 99 = "99".
Proof. reflexivity. Qed.

(** ** Floats: [total_seconds()] against a number of seconds *)

(** Ages of 4.999999 s and of 5 s against 5 s; and, where the doubles are
    more than two microseconds apart, an age one microsecond short of
    20000000000 s that rounds to it. *)
Lemma total_seconds_ge_vectors :
  total_seconds_ge 4999999 5 = false ∧
  total_seconds_ge 5000000 5 = true ∧
  total_seconds_ge (-1) 0 = false ∧
  PyFloat.true_divide_pos 4999999 1000000 = PyFloat.mk 5629498408313213 (-50) ∧
  total_seconds_ge (seconds 20000000000 - 1) 20000000000 = true.
Proof. vm_compute. done. Qed.

(** Rounding to the nearest integer: at least every integer below the
    quotient, and less than an integer that is more than a half above it. *)
Lemma round_half_even_lower a b M :
  0 < b → M * b ≤ a → M ≤ PyFloat.round_half_even a b.
Proof.
  intros Hb HM. unfold PyFloat.round_half_even.
  assert (M ≤ a / b) by (apply Z.div_le_lower_bound; lia).
  repeat case_match; lia.
Qed.

Lemma round_half_even_upper a b M :
  0 < b → 2 * a < (2 * M - 1) * b → PyFloat.round_half_even a b < M.
Proof.
  intros Hb HM. unfold PyFloat.round_half_even.
  pose proof (Z.div_mod a b ltac:(lia)) as Hdiv.
  pose proof (Z.mod_pos_bound a b Hb) as Hmod.
  set (q := a / b) in *. set (r := a mod b) in *.
  destruct (2 * r <? b) eqn:Hr; [apply Z.ltb_lt in Hr|apply Z.ltb_ge in Hr].
  - nia.
  - assert (q + 1 < M) by nia. repeat case_match; lia.
Qed.

(** The scaled quotient that is rounded has at least 53 bits. *)
Lemma true_divide_pos_normal a :
  0 < a →
  let x := PyFloat.true_divide_pos a 1000000 in
  2 ^ 52 * (1000000 * 2 ^ Z.max 0 (PyFloat.exponent x))
  ≤ a * 2 ^ Z.max 0 (- PyFloat.exponent x).
Proof.
  intros Ha. unfold PyFloat.true_divide_pos. cbv zeta.
  change (Z.log2 1000000) with 19.
  destruct (Z.log2_spec a Ha) as [Hlo _].
  pose proof (Z.log2_nonneg a) as Hnn.
  set (la := Z.log2 a) in *.
  case_match eqn:Htest; cbn [PyFloat.exponent].
  - clear Htest. destruct (decide (72 ≤ la)) as [Hla|Hla].
    + rewrite (Z.max_r 0 (la - 19 - 52 - 1)), (Z.max_l 0 (- (la - 19 - 52 - 1))) by lia.
      replace la with (72 + (la - 19 - 52 - 1)) in Hlo at 1 by lia.
      rewrite Z.pow_add_r in Hlo by lia.
      assert (0 < 2 ^ (la - 19 - 52 - 1)) by (apply Z.pow_pos_nonneg; lia).
      change (2 ^ 0) with 1. change (2 ^ 52) with 4503599627370496.
      change (2 ^ 72) with 4722366482869645213696 in Hlo. nia.
    + rewrite (Z.max_l 0 (la - 19 - 52 - 1)), (Z.max_r 0 (- (la - 19 - 52 - 1))) by lia.
      assert (2 ^ 72 = 2 ^ la * 2 ^ (- (la - 19 - 52 - 1))) as Hsplit.
      { rewrite <- Z.pow_add_r by lia. f_equal. lia. }
      assert (0 < 2 ^ (- (la - 19 - 52 - 1))) by (apply Z.pow_pos_nonneg; lia).
      change (2 ^ 0) with 1. change (2 ^ 52) with 4503599627370496.
      change (2 ^ 72) with 4722366482869645213696 in Hsplit. nia.
  - apply Z.ltb_ge in Htest. lia.
Qed.

(** Up to [2 ^ 34] seconds the rounding of [total_seconds()] does not show
    in the comparison: it is the comparison of the microseconds. *)
Lemma total_seconds_ge_exact us ttl :
  0 ≤ ttl ≤ 2 ^ 34 →
  total_seconds_ge us ttl = true ↔ seconds ttl ≤ us.
Proof.
  intros Httl. unfold seconds.
  change (2 ^ 34) with 17179869184 in Httl.
  destruct us as [|p|p]; cbn [total_seconds_ge].
  - rewrite Z.leb_le. lia.
  - pose proof (true_divide_pos_normal (Z.pos p) ltac:(lia)) as Hnormal. cbv zeta in Hnormal.
    unfold PyFloat.ge_int.
    destruct (PyFloat.true_divide_pos (Z.pos p) 1000000) as [m e] eqn:Hx.
    assert (m = PyFloat.round_half_even (Z.pos p * 2 ^ Z.max 0 (- e))
                                        (1000000 * 2 ^ Z.max 0 e)) as Hm.
    { unfold PyFloat.true_divide_pos in Hx. cbv zeta in Hx. by injection Hx as <- <-. }
    clear Hx. cbn [PyFloat.exponent PyFloat.mantissa] in *.
    set (a := Z.pos p) in *. assert (0 < a) as Ha by (subst a; lia). clearbody a.
    change (2 ^ 52) with 4503599627370496 in Hnormal.
    destruct (0 <=? e) eqn:He; [apply Z.leb_le in He|apply Z.leb_gt in He].
    + rewrite (Z.max_r 0 e), (Z.max_l 0 (- e)) in Hnormal, Hm by lia.
      change (2 ^ 0) with 1 in *. rewrite Z.mul_1_r in Hm, Hnormal.
      assert (1 ≤ 2 ^ e) as Hpow by (pose proof (Z.pow_pos_nonneg 2 e); lia).
      rewrite Z.leb_le. split; [intros _; nia|]. intros Hle.
      assert (4503599627370496 ≤ m).
      { subst m. apply round_half_even_lower; lia. }
      nia.
    + rewrite (Z.max_l 0 e), (Z.max_r 0 (- e)) in Hnormal, Hm by lia.
      change (2 ^ 0) with 1 in *. rewrite Z.mul_1_r in Hm, Hnormal.
      set (P := 2 ^ (- e)) in *.
      assert (0 < P) as HP by (apply Z.pow_pos_nonneg; lia).
      rewrite Z.leb_le. split.
      * intros Hge. destruct (decide (ttl * 1000000 ≤ a)) as [|Hlt]; [done|]. exfalso.
        assert (2 ^ 18 < P) as Hbig by (change (2 ^ 18) with 262144; nia).
        apply Z.pow_lt_mono_r_iff in Hbig; [|lia|lia].
        assert (2 ^ 19 ≤ P) as Hbig' by (apply Z.pow_le_mono_r; lia).
        change (2 ^ 19) with 524288 in Hbig'.
        assert (m < ttl * P); [|lia].
        subst m. apply round_half_even_upper; [lia|]. nia.
      * intros Hle. subst m. apply round_half_even_lower; [lia|]. nia.
  - pose proof (true_divide_pos_normal (- Z.neg p) ltac:(lia)) as Hnormal. cbv zeta in Hnormal.
    unfold PyFloat.ge_int.
    destruct (PyFloat.true_divide_pos (- Z.neg p) 1000000) as [m e] eqn:Hx.
    assert (m = PyFloat.round_half_even (- Z.neg p * 2 ^ Z.max 0 (- e))
                                        (1000000 * 2 ^ Z.max 0 e)) as Hm.
    { unfold PyFloat.true_divide_pos in Hx. cbv zeta in Hx. by injection Hx as <- <-. }
    clear Hx. cbn [PyFloat.exponent PyFloat.mantissa] in *.
    set (a := - Z.neg p) in *. assert (0 < a) as Ha by (subst a; lia).
    assert (Z.neg p = - a) as -> by (subst a; lia). clearbody a.
    change (2 ^ 52) with 4503599627370496 in Hnormal.
    assert (0 < 2 ^ Z.max 0 e) by (apply Z.pow_pos_nonneg; lia).
    assert (0 < 2 ^ Z.max 0 (- e)) by (apply Z.pow_pos_nonneg; lia).
    assert (1 ≤ m) as Hpos.
    { subst m. apply round_half_even_lower; [lia|]. nia. }
    split; [|lia]. intros Hge. exfalso.
    destruct (0 <=? e) eqn:He; [apply Z.leb_le in He|apply Z.leb_gt in He];
      apply Z.leb_le in Hge.
    + assert (0 < 2 ^ e) by (apply Z.pow_pos_nonneg; lia). nia.
    + assert (0 < 2 ^ (- e)) by (apply Z.pow_pos_nonneg; lia). nia.
Qed.

(** ** The dict *)

Section PyDictFacts.

Context {V : Type}.
Implicit Types (k : string) (v : V) (d : PyDict.t V).

Lemma PyDict_get_set_eq k v d : PyDict.get k (PyDict.set k v d) = Some v.
Proof.
  induction d as [|[k' v'] d IH]; simpl.
  - by rewrite decide_True.
  - destruct (decide (k' = k)); simpl.
    + by rewrite decide_True.
    + by rewrite decide_False.
Qed.

Lemma PyDict_get_set_ne k k' v d :
  k ≠ k' → PyDict.get k' (PyDict.set k v d) = PyDict.get k' d.
Proof.
  intros Hne. induction d as [|[k0 v0] d IH]; simpl.
  - by rewrite decide_False.
  - destruct (decide (k0 = k)) as [->|]; simpl.
    + by rewrite !decide_False.
    + destruct (decide (k0 = k')); done.
Qed.

Lemma PyDict_get_pop_eq k d : PyDict.get k (PyDict.pop k d) = None.
Proof.
  induction d as [|[k0 v0] d IH]; simpl; [done|].
  destruct (decide (k0 = k)) as [->|Hne]; simpl; [done|].
  by rewrite decide_False.
Qed.

Lemma PyDict_get_pop_ne k k' d :
  k ≠ k' → PyDict.get k' (PyDict.pop k d) = PyDict.get k' d.
Proof.
  intros Hne. induction d as [|[k0 v0] d IH]; simpl; [done|].
  destruct (decide (k0 = k)) as [->|]; simpl.
  - by rewrite decide_False.
  - destruct (decide (k0 = k')); done.
Qed.

Lemma PyDict_contains_set k v d : PyDict.contains k (PyDict.set k v d) = true.
Proof. unfold PyDict.contains. by rewrite PyDict_get_set_eq. Qed.

Lemma PyDict_set_set k v v' d :
  PyDict.set k v' (PyDict.set k v d) = PyDict.set k v' d.
Proof.
  induction d as [|[k0 v0] d IH]; simpl.
  - by rewrite decide_True.
  - destruct (decide (k0 = k)) as [->|Hne]; simpl.
    + by rewrite decide_True.
    + rewrite decide_False by done. by rewrite IH.
Qed.

End PyDictFacts.

(** ** Binary search *)

Section Bisect.

Implicit Types (a : list Z) (x : Z).

Lemma StronglySorted_ascending a : StronglySorted Z.le a → ascending a.
Proof.
  induction 1 as [|v a Hs IH Hall]; intros i j vi vj Hij Hi Hj.
  - by rewrite lookup_nil in Hi.
  - destruct i as [|i], j as [|j]; simpl in *; simplify_eq.
    + lia.
    + rewrite Forall_forall in Hall. apply Hall.
      by eapply list_elem_of_lookup_2.
    + lia.
    + eapply IH; [|done..]. lia.
Qed.

Lemma bisect_loop_spec fuel a x lo hi :
  ascending a → (hi - lo ≤ fuel)%nat → (lo ≤ hi ≤ length a)%nat →
  split_at a x lo hi →
  (lo ≤ bisect_loop fuel a x lo hi ≤ hi)%nat ∧
  split_at a x (bisect_loop fuel a x lo hi) (bisect_loop fuel a x lo hi).
Proof.
  intros Hasc. revert lo hi.
  induction fuel as [|fuel IH]; intros lo hi Hfuel Hrange [Hlo Hhi]; cbn [bisect_loop].
  - assert (lo = hi) as -> by lia. repeat split; auto with lia.
  - destruct (decide (lo < hi)%nat) as [Hlt|Hge]; cbv beta iota zeta.
    2:{ assert (lo = hi) as -> by lia. repeat split; auto with lia. }
    set (mid := ((lo + hi) / 2)%nat).
    assert (lo ≤ mid < hi)%nat as Hmid.
    { subst mid. split.
      - apply Nat.div_le_lower_bound; lia.
      - apply Nat.Div0.div_lt_upper_bound; lia. }
    destruct (a !! mid) as [am|] eqn:Ham.
    2:{ apply lookup_ge_None in Ham. lia. }
    destruct (decide (x < am)) as [Hx|Hx]; cbv beta iota.
    + assert (split_at a x lo mid) as Hs.
      { split; [done|]. intros i v Hi Hv.
        destruct (decide (hi ≤ i)%nat); [by eapply Hhi|].
        assert (am ≤ v) by (eapply (Hasc mid i); [lia|done..]). lia. }
      destruct (IH lo mid ltac:(lia) ltac:(lia) Hs) as [Hr Hsplit].
      split; [lia|done].
    + assert (split_at a x (mid + 1) hi) as Hs.
      { split; [|done]. intros i v Hi Hv.
        destruct (decide (i < lo)%nat); [by eapply Hlo|].
        assert (v ≤ am) by (eapply (Hasc i mid); [lia|done..]). lia. }
      destruct (IH (mid + 1)%nat hi ltac:(lia) ltac:(lia) Hs) as [Hr Hsplit].
      split; [lia|done].
Qed.

(** [bisect a x] is the index of the first element above [x], or [len(a)]. *)
Lemma bisect_spec a x :
  ascending a →
  (bisect a x ≤ length a)%nat ∧ split_at a x (bisect a x) (bisect a x).
Proof.
  intros Hasc. unfold bisect.
  assert (split_at a x 0 (length a)) as Hs.
  { split; [intros; lia|]. intros i v Hi Hv. apply lookup_lt_Some in Hv. lia. }
  destruct (bisect_loop_spec (length a) a x 0 (length a) Hasc ltac:(lia) ltac:(lia) Hs)
    as [Hr Hsplit].
  split; [lia|done].
Qed.

End Bisect.

(** ** The ring: routing *)

Section RingFacts.

Variable _get_hash : string → Z.

Implicit Types (r : ConsistentHash) (m : gmap Z string).

Lemma sorted_ring_keys_elem m h : h ∈ sorted_ring_keys m ↔ is_Some (m !! h).
Proof.
  unfold sorted_ring_keys. rewrite merge_sort_Permutation, list_elem_of_fmap. split.
  - intros [[h' n] [-> Hin]]. apply elem_of_map_to_list in Hin. by exists n.
  - intros [n Hn]. exists (h, n). split; [done|]. by apply elem_of_map_to_list.
Qed.

Lemma sorted_ring_keys_ascending m : ascending (sorted_ring_keys m).
Proof. apply StronglySorted_ascending, (StronglySorted_merge_sort _). Qed.

Lemma sorted_ring_keys_length m : length (sorted_ring_keys m) = size m.
Proof.
  unfold sorted_ring_keys.
  by rewrite merge_sort_Permutation, length_fmap, length_map_to_list.
Qed.

Lemma sorted_ring_keys_NoDup m : NoDup (sorted_ring_keys m).
Proof.
  unfold sorted_ring_keys. rewrite merge_sort_Permutation.
  apply NoDup_fst_map_to_list.
Qed.

Lemma empty_ring_wf V : ring_wf (empty_ring V).
Proof. reflexivity. Qed.

Lemma add_node_wf fuel r node r' :
  ring_wf r → add_node _get_hash fuel r node = Some r' → ring_wf r'.
Proof.
  unfold add_node. intros Hwf Hadd. case_decide; [by simplify_eq|].
  destruct (add_virtual_nodes _ _ _ _ _); by simplify_eq.
Qed.

Lemma remove_node_wf r node r' :
  remove_node _get_hash r node = Ok r' → ring_wf r'.
Proof. unfold remove_node. intros Hrm. case_decide; by simplify_eq. Qed.

Lemma add_nodes_wf fuel ns r r' :
  ring_wf r → add_nodes _get_hash fuel r ns = Some r' → ring_wf r'.
Proof.
  revert r. induction ns as [|n ns IH]; simpl; intros r Hwf Hadd; [by simplify_eq|].
  destruct (add_node _ _ _ _) as [r1|] eqn:H1; [|done].
  eapply IH; [|done]. by eapply add_node_wf.
Qed.

Lemma ConsistentHash_init_wf fuel ns V r :
  ConsistentHash_init _get_hash fuel ns V = Some r → ring_wf r.
Proof. apply add_nodes_wf, empty_ring_wf. Qed.

(** C6. On a ring whose entry list is the sorted list of its hashes,
    [get_node key] returns the shard stored at the first hash strictly
    greater than the key's hash, the least such hash; when no stored hash is
    greater it returns the shard of the entry at index 0.  It fails exactly
    on the empty ring, with "Hash ring is empty". *)
Theorem get_node_first_greater r key :
  ring_wf r →
  match get_node _get_hash r key with
  | Ok node =>
      ∃ h, hash_ring r !! h = Some node ∧
        ((_get_hash key < h ∧
          ∀ h', is_Some (hash_ring r !! h') → _get_hash key < h' → h ≤ h')
         ∨ ((∀ h', is_Some (hash_ring r !! h') → h' ≤ _get_hash key) ∧
            sorted_keys r !! 0%nat = Some h))
  | Raise e => hash_ring r = ∅ ∧ e = Exception "Hash ring is empty"
  end.
Proof.
  intros Hwf. unfold get_node. case_decide as Hempty; [done|].
  rewrite Hwf. set (ks := sorted_ring_keys (hash_ring r)).
  set (x := _get_hash key).
  destruct (bisect_spec ks x (sorted_ring_keys_ascending _)) as [Hle [Hbelow Habove]].
  assert (length ks ≠ 0%nat) as Hlen.
  { subst ks. rewrite sorted_ring_keys_length. by intros ?%map_size_empty_iff. }
  assert (∀ i h, ks !! i = Some h → is_Some (hash_ring r !! h)) as Hin.
  { intros i h Hi. apply sorted_ring_keys_elem. by eapply list_elem_of_lookup_2. }
  assert (∀ h, is_Some (hash_ring r !! h) → ∃ i, ks !! i = Some h) as Hout.
  { intros h Hh. apply list_elem_of_lookup_1. by apply sorted_ring_keys_elem. }
  case_decide as Hidx.
  - destruct (ks !! 0%nat) as [h|] eqn:H0.
    2:{ apply lookup_ge_None in H0. lia. }
    destruct (Hin _ _ H0) as [node Hnode]. rewrite Hnode.
    exists h. split; [done|]. right. split; [|done].
    intros h' [i Hi]%Hout. eapply Hbelow; [|done].
    apply lookup_lt_Some in Hi. lia.
  - destruct (ks !! bisect ks x) as [h|] eqn:Hh.
    2:{ apply lookup_ge_None in Hh. lia. }
    destruct (Hin _ _ Hh) as [node Hnode]. rewrite Hnode.
    exists h. split; [done|]. left. split.
    + eapply Habove; [|done]. lia.
    + intros h' [j Hj]%Hout Hgt.
      destruct (decide (j < bisect ks x)%nat) as [Hlt|Hge].
      * specialize (Hbelow _ _ Hlt Hj). lia.
      * eapply (sorted_ring_keys_ascending (hash_ring r) (bisect ks x) j); [lia|done..].
Qed.

End RingFacts.

(** ** The ring: its invariant when no two labels have the same hash *)

Lemma NoDup_fmap_inj_on {A B} (f : A → B) (l : list A) x y :
  NoDup (f <$> l) → x ∈ l → y ∈ l → f x = f y → x = y.
Proof.
  induction l as [|a l IH]; csimpl; intros Hnd Hx Hy Hf.
  - by apply elem_of_nil in Hx.
  - apply NoDup_cons in Hnd as [Ha Hnd].
    apply elem_of_cons in Hx as [->|Hx], Hy as [->|Hy]; [done| | |by apply IH].
    + exfalso. apply Ha. rewrite Hf. by apply list_elem_of_fmap_2.
    + exfalso. apply Ha. rewrite <- Hf. by apply list_elem_of_fmap_2.
Qed.

Lemma entries_of_insert_fresh (ring : gmap Z string) k v node :
  ring !! k = None →
  entries_of (<[k := v]> ring) node
  = (entries_of ring node + if decide (v = node) then 1 else 0)%nat.
Proof.
  intros Hk. unfold entries_of. rewrite map_to_list_insert by done.
  rewrite filter_cons. simpl. case_decide; simpl; lia.
Qed.

Lemma entries_of_delete (ring : gmap Z string) k v node :
  ring !! k = Some v →
  (entries_of (delete k ring) node + if decide (v = node) then 1 else 0)%nat
  = entries_of ring node.
Proof.
  intros Hk. unfold entries_of. rewrite <- (map_to_list_delete ring k v) by done.
  rewrite filter_cons. simpl. case_decide; simpl; lia.
Qed.

Lemma size_delete_present (ring : gmap Z string) k v :
  ring !! k = Some v → S (size (delete k ring)) = size ring.
Proof.
  intros Hk. rewrite <- !length_map_to_list.
  by rewrite <- (map_to_list_delete ring k v) by done.
Qed.

Section RingInvariant.

Variable _get_hash : string → Z.
Variable V : nat.
Variable ns : list string.

(** No two labels of the shards [ns] have the same hash. *)
Hypothesis labels_distinct : NoDup (label_hashes _get_hash V ns).

Local Abbreviation hash_of node i := (_get_hash (virtual_node_key node i)).

Lemma label_hash_inj n1 i1 n2 i2 :
  n1 ∈ ns → n2 ∈ ns → (i1 < V)%nat → (i2 < V)%nat →
  hash_of n1 i1 = hash_of n2 i2 → n1 = n2 ∧ i1 = i2.
Proof.
  clear -labels_distinct. unfold label_hashes in labels_distinct.
  intros Hn1 Hn2 Hi1 Hi2 Heq.
  assert (∀ n i, (i < V)%nat → hash_of n i ∈ (λ i, hash_of n i) <$> seq 0 V) as Hmem.
  { intros n i Hi. apply (list_elem_of_fmap_2 (λ i, hash_of n i)), elem_of_seq. lia. }
  induction ns as [|n l IH]; [by apply elem_of_nil in Hn1|].
  rewrite bind_cons in labels_distinct.
  apply NoDup_app in labels_distinct as (Hhead & Hdisj & Htail).
  assert (∀ n' i', n' ∈ l → (i' < V)%nat →
            hash_of n' i' ∈ l ≫= λ node, (λ i, hash_of node i) <$> seq 0 V) as Hrest.
  { intros n' i' Hn' Hi'. apply list_elem_of_bind. exists n'. split; [|done]. by apply Hmem. }
  apply elem_of_cons in Hn1 as [->|Hn1], Hn2 as [->|Hn2].
  - split; [done|].
    apply (NoDup_fmap_inj_on (λ i, hash_of n i) (seq 0 V)); [done| | |done];
      apply elem_of_seq; lia.
  - exfalso. apply (Hdisj (hash_of n i1)); [by apply Hmem|]. rewrite Heq. by apply Hrest.
  - exfalso. apply (Hdisj (hash_of n i2)); [by apply Hmem|]. rewrite <- Heq. by apply Hrest.
  - by apply IH.
Qed.

(** A free hash is taken as it is, whatever the fuel. *)
Lemma free_hash_fresh fuel (ring : gmap Z string) key :
  ring !! _get_hash key = None → free_hash _get_hash fuel ring key = Some (_get_hash key).
Proof. intros Hfree. destruct fuel; simpl; by rewrite Hfree. Qed.

Lemma add_virtual_nodes_fresh fuel node idxs (ring : gmap Z string) :
  NoDup ((λ i, hash_of node i) <$> idxs) →
  (∀ i, i ∈ idxs → ring !! hash_of node i = None) →
  ∃ ring',
    add_virtual_nodes _get_hash fuel node idxs ring = Some ring' ∧
    (∀ h n, ring' !! h = Some n ↔
            (n = node ∧ ∃ i, i ∈ idxs ∧ h = hash_of node i) ∨ ring !! h = Some n) ∧
    size ring' = (size ring + length idxs)%nat ∧
    (∀ n, entries_of ring' n
          = (entries_of ring n + if decide (n = node) then length idxs else 0)%nat).
Proof.
  revert ring. induction idxs as [|i idxs IH]; intros ring Hnd Hfree; csimpl.
  - exists ring. split; [done|]. split.
    + intros h n. split; [by right|]. intros [(_ & i & Hi & _)|?]; [|done].
      by apply elem_of_nil in Hi.
    + split; [lia|]. intros n. case_decide; lia.
  - apply NoDup_cons in Hnd as [Hi Hnd].
    rewrite free_hash_fresh by (apply Hfree; by left).
    destruct (IH (<[hash_of node i := node]> ring)) as (ring' & Hrun & Hlook & Hsize & Hcount);
      [done| |].
    { intros j Hj. rewrite lookup_insert_ne; [apply Hfree; by right|].
      intros Heq. apply Hi. rewrite Heq.
      by apply (list_elem_of_fmap_2 (λ i, hash_of node i)). }
    assert (ring !! hash_of node i = None) as Hfresh by (apply Hfree; by left).
    exists ring'. split; [done|]. split; [|split].
    + intros h n. rewrite Hlook. split.
      * intros [(-> & j & Hj & ->)|Hins].
        -- left. split; [done|]. exists j. split; [by right|done].
        -- apply lookup_insert_Some in Hins as [[<- <-]|[Hne Hold]].
           ++ left. split; [done|]. exists i. split; [by left|done].
           ++ by right.
      * intros [(-> & j & Hj & ->)|Hold].
        -- apply elem_of_cons in Hj as [->|Hj].
           ++ right. apply lookup_insert_eq.
           ++ left. split; [done|]. by exists j.
        -- right. rewrite lookup_insert_ne; [done|]. intros <-. congruence.
    + rewrite Hsize, map_size_insert_None by done. lia.
    + intros n. rewrite Hcount, entries_of_insert_fresh by done.
      repeat case_decide; simplify_eq; lia.
Qed.

Lemma pop_keys_present ks (ring : gmap Z string) node :
  NoDup ks → (∀ h, h ∈ ks → ring !! h = Some node) →
  (∀ h n, pop_keys ks ring !! h = Some n ↔ ring !! h = Some n ∧ h ∉ ks) ∧
  (size (pop_keys ks ring) + length ks)%nat = size ring ∧
  (∀ n, (entries_of (pop_keys ks ring) n + if decide (n = node) then length ks else 0)%nat
        = entries_of ring n).
Proof.
  revert ring. induction ks as [|k ks IH]; intros ring Hnd Hpresent; simpl.
  - split; [|split].
    + intros h n. split; [intros ?; split; [done|apply not_elem_of_nil]|by intros [? _]].
    + lia.
    + intros n. case_decide; lia.
  - apply NoDup_cons in Hnd as [Hk Hnd].
    assert (ring !! k = Some node) as Hkring by (apply Hpresent; by left).
    destruct (IH (delete k ring)) as (Hlook & Hsize & Hcount); [done| |].
    { intros h Hh. rewrite lookup_delete_ne; [apply Hpresent; by right|]. by intros <-. }
    split; [|split].
    + intros h n. rewrite Hlook, not_elem_of_cons, lookup_delete_Some.
      split; [intros [[? ?] ?]|intros [? [? ?]]]; repeat split; auto.
    + rewrite <- (size_delete_present ring k node) by done. lia.
    + intros n. rewrite <- (entries_of_delete ring k node n) by done.
      specialize (Hcount n). repeat case_decide; simplify_eq; lia.
Qed.

Lemma empty_ring_exact : ring_exact _get_hash V ns (empty_ring V).
Proof.
  unfold ring_exact, empty_ring. cbn [virtual_nodes hash_ring sorted_keys nodes].
  split; [done|]. split; [done|].
  split; [by intros node ?%not_elem_of_empty|]. split; [|split].
  - intros h node. rewrite lookup_empty. split; [done|].
    by intros [?%not_elem_of_empty _].
  - rewrite map_size_empty, size_empty. lia.
  - by intros node ?%not_elem_of_empty.
Qed.

Lemma entries_of_absent (r : ConsistentHash) node :
  ring_exact _get_hash V ns r → node ∉ nodes r → entries_of (hash_ring r) node = 0%nat.
Proof.
  intros (_ & _ & _ & Hlook & _) Hnode. unfold entries_of.
  assert (Forall (λ kv : Z * string, kv.2 ≠ node) (map_to_list (hash_ring r))) as Hall.
  { apply Forall_forall. intros [h n] Hin%elem_of_map_to_list Hn. simpl in Hn. subst n.
    apply Hlook in Hin as [? _]. done. }
  induction Hall as [|kv l Hkv _ IH]; [done|].
  by rewrite filter_cons_False.
Qed.

Lemma label_hashes_of_node_NoDup node :
  node ∈ ns → NoDup ((λ i, hash_of node i) <$> seq 0 V).
Proof.
  intros Hnode. apply NoDup_fmap_2_strong; [|apply NoDup_seq].
  intros i j Hi%elem_of_seq Hj%elem_of_seq Heq.
  apply (label_hash_inj node i node j); [done|done|lia|lia|done].
Qed.

(** [add_node] of a shard of [ns] finishes, with any fuel, and keeps the
    ring exact. *)
Lemma add_node_exact fuel r node :
  ring_exact _get_hash V ns r → node ∈ ns →
  ∃ r', add_node _get_hash fuel r node = Some r' ∧ ring_exact _get_hash V ns r'.
Proof.
  intros Hexact Hnode. unfold add_node.
  case_decide as Hpresent; [by exists r|].
  pose proof Hexact as (HV & Hwf & Hsub & Hlook & Hsize & Hcount). rewrite HV.
  destruct (add_virtual_nodes_fresh fuel node (seq 0 V) (hash_ring r))
    as (ring' & -> & Hlook' & Hsize' & Hcount').
  { by apply label_hashes_of_node_NoDup. }
  { intros i Hi%elem_of_seq. destruct (hash_ring r !! hash_of node i) as [n|] eqn:Hn; [|done].
    apply Hlook in Hn as (Hn & j & Hj & Heq).
    destruct (label_hash_inj node i n j) as [<- _]; [done|by apply Hsub|lia|lia|done|done]. }
  eexists. split; [done|]. unfold ring_exact. cbn [virtual_nodes hash_ring sorted_keys nodes].
  split; [done|]. split; [done|]. split; [|split; [|split]].
  - intros n [->%elem_of_singleton|Hn]%elem_of_union; [done|by apply Hsub].
  - intros h n. rewrite Hlook', Hlook, elem_of_union, elem_of_singleton. split.
    + intros [(-> & i & Hi%elem_of_seq & ->)|(Hn & i & Hi & ->)].
      * split; [by left|]. exists i. split; [lia|done].
      * split; [by right|]. by exists i.
    + intros ([->|Hn] & i & Hi & ->).
      * left. split; [done|]. exists i. split; [apply elem_of_seq; lia|done].
      * right. split; [done|]. by exists i.
  - rewrite Hsize', Hsize, length_seq, size_union, size_singleton by set_solver. lia.
  - intros n Hn. rewrite Hcount', length_seq. case_decide as Heq.
    + subst n. rewrite (entries_of_absent r node) by done. lia.
    + rewrite Hcount; [lia|]. set_solver.
Qed.

(** [remove_node] of a present shard keeps the ring exact. *)
Lemma remove_node_exact r node :
  ring_exact _get_hash V ns r → node ∈ nodes r →
  ∃ r', remove_node _get_hash r node = Ok r' ∧ ring_exact _get_hash V ns r'.
Proof.
  intros Hexact Hpresent. unfold remove_node. rewrite decide_True by done.
  pose proof Hexact as (HV & Hwf & Hsub & Hlook & Hsize & Hcount). rewrite HV.
  destruct (pop_keys_present (keys_to_remove _get_hash node V) (hash_ring r) node)
    as (Hlook' & Hsize' & Hcount').
  { apply label_hashes_of_node_NoDup. by apply Hsub. }
  { intros h (i & -> & Hi%elem_of_seq)%list_elem_of_fmap. apply Hlook.
    split; [done|]. exists i. split; [lia|done]. }
  assert (length (keys_to_remove _get_hash node V) = V) as Hlen
    by (unfold keys_to_remove; by rewrite length_fmap, length_seq).
  eexists. split; [done|]. unfold ring_exact. cbn [virtual_nodes hash_ring sorted_keys nodes].
  split; [done|]. split; [done|]. split; [|split; [|split]].
  - intros n Hn. apply Hsub. set_solver.
  - intros h n. rewrite Hlook', Hlook, elem_of_difference, not_elem_of_singleton.
    unfold keys_to_remove. rewrite list_elem_of_fmap. split.
    + intros [(Hn & i & Hi & ->) Hnot]. split; [|by exists i]. split; [done|].
      intros ->. apply Hnot. exists i. split; [done|]. apply elem_of_seq. lia.
    + intros ([Hn Hne] & i & Hi & ->). split; [split; [done|by exists i]|].
      intros (j & Heq & Hj%elem_of_seq).
      destruct (label_hash_inj n i node j) as [-> _];
        [by apply Hsub|by apply Hsub|lia|lia|done|done].
  - rewrite Hlen in Hsize'.
    assert (size (nodes r) = S (size (nodes r ∖ {[node]}))) as Hnodes.
    { rewrite (union_difference_L {[node]} (nodes r)) at 1 by set_solver.
      rewrite size_union, size_singleton by set_solver. lia. }
    rewrite Hnodes in Hsize. lia.
  - intros n [Hn Hne%not_elem_of_singleton]%elem_of_difference.
    specialize (Hcount' n). rewrite decide_False in Hcount' by done.
    specialize (Hcount n Hn). lia.
Qed.

(** Every run over shards of [ns] finishes, with any fuel, short of a
    removal of an absent shard, on an exact ring. *)
Lemma run_ops_exact fuel ops r :
  ring_exact _get_hash V ns r → (∀ op, op ∈ ops → op_node op ∈ ns) →
  match run_ops _get_hash fuel ops r with
  | Finished r' => ring_exact _get_hash V ns r'
  | Raised _ => True
  | Unfinished => False
  end.
Proof.
  revert r. induction ops as [|[node|node] ops IH]; intros r Hexact Hops; simpl; [done|..].
  - destruct (add_node_exact fuel r node) as (r' & -> & Hexact');
      [done|apply (Hops (Add node)); by left|].
    apply IH; [done|]. intros op Hop. apply Hops. by right.
  - destruct (decide (node ∈ nodes r)) as [Hpresent|Habsent].
    + destruct (remove_node_exact r node) as (r' & -> & Hexact'); [done..|].
      apply IH; [done|]. intros op Hop. apply Hops. by right.
    + unfold remove_node. by rewrite decide_False.
Qed.

Lemma ring_exact_invariant r : ring_exact _get_hash V ns r → ring_invariant r.
Proof.
  intros (HV & Hwf & Hsub & Hlook & Hsize & Hcount). unfold ring_invariant.
  rewrite HV, Hwf. split; [done|].
  split; [apply sorted_ring_keys_length|]. split; [apply sorted_ring_keys_NoDup|].
  split; [|done]. intros h node Hh. by apply Hlook in Hh as [? _].
Qed.

End RingInvariant.

(** For every sequence of [add] and [remove] over shards no two of whose
    virtual-node labels have the same hash, every operation finishes,
    whatever fuel its collision loop is given, and, short of a removal of
    an absent shard, the ring afterwards satisfies the invariant: [V]
    entries per present shard, [V · |shards|] entries in all, all unique,
    every one of a present shard. *)
Lemma ring_invariant_without_collisions (_get_hash : string → Z) (V fuel : nat)
    (ops : list ring_op) :
  NoDup (label_hashes _get_hash V (remove_dups (op_node <$> ops))) →
  match run_ops _get_hash fuel ops (empty_ring V) with
  | Finished r => ring_invariant r
  | Raised _ => True
  | Unfinished => False
  end.
Proof.
  intros Hdistinct.
  pose proof (run_ops_exact _get_hash V _ Hdistinct fuel ops (empty_ring V)
                (empty_ring_exact _ _ _)) as Hrun.
  destruct (run_ops _ _ _ _) as [r| |]; [|done|].
  - eapply ring_exact_invariant, Hrun.
    intros op Hop. apply elem_of_remove_dups. by apply list_elem_of_fmap_2.
  - apply Hrun. intros op Hop. apply elem_of_remove_dups. by apply list_elem_of_fmap_2.
Qed.

(** ** The ring: labels with the same hash *)

(** The collision loop of [add_node] only returns a hash that is free. *)
Lemma free_hash_is_free (_get_hash : string → Z) fuel (ring : gmap Z string) key h :
  free_hash _get_hash fuel ring key = Some h → ring !! h = None.
Proof.
  revert key. induction fuel as [|fuel IH]; intros key; simpl;
    destruct (ring !! _get_hash key) eqn:Hkey; try done; [by intros [= <-]| |by intros [= <-]].
  apply IH.
Qed.

Lemma entries_of_none (ring : gmap Z string) node :
  (∀ h, ring !! h ≠ Some node) → entries_of ring node = 0%nat.
Proof.
  intros Hnone. unfold entries_of.
  assert (Forall (λ kv : Z * string, kv.2 ≠ node) (map_to_list ring)) as Hall.
  { apply Forall_forall. intros [h n] Hin%elem_of_map_to_list Hn. simpl in Hn. subst n.
    by apply (Hnone h). }
  induction Hall as [|kv l Hkv _ IH]; [done|].
  by rewrite filter_cons_False.
Qed.

(** The loop of [add_node] gives every virtual node an entry of its own:
    a label whose hash is taken is rehashed until the hash is free. *)
Lemma add_virtual_nodes_counts (_get_hash : string → Z) fuel node idxs
    (ring ring' : gmap Z string) :
  add_virtual_nodes _get_hash fuel node idxs ring = Some ring' →
  size ring' = (size ring + length idxs)%nat ∧
  (∀ n, entries_of ring' n
        = (entries_of ring n + if decide (n = node) then length idxs else 0)%nat) ∧
  (∀ h n, ring' !! h = Some n → n = node ∨ ring !! h = Some n).
Proof.
  revert ring. induction idxs as [|i idxs IH]; intros ring; simpl.
  - intros [= <-]. split; [lia|]. split; [|by right].
    intros n. case_decide; lia.
  - destruct (free_hash _ _ _ _) as [hash_key|] eqn:Hfree; [|done].
    apply free_hash_is_free in Hfree. intros (Hsize & Hcount & Hlook)%IH.
    split; [|split].
    + rewrite Hsize, map_size_insert_None by done. lia.
    + intros n. rewrite Hcount, entries_of_insert_fresh by done.
      repeat case_decide; simplify_eq; lia.
    + intros h n [->|Hins]%Hlook; [by left|].
      apply lookup_insert_Some in Hins as [[_ <-]|[_ Hold]]; [by left|by right].
Qed.

(** So [add_node] keeps the invariant, whatever the hash and whichever
    labels have the same hash. *)
Lemma add_node_keeps_invariant (_get_hash : string → Z) fuel r node r' :
  ring_invariant r → add_node _get_hash fuel r node = Some r' → ring_invariant r'.
Proof.
  intros (Hsize & Hlen & Hnd & Hpresent & Hcount). unfold add_node.
  case_decide as Hnode; [by intros [= <-]|].
  destruct (add_virtual_nodes _ _ _ _ _) as [ring'|] eqn:Hadd; [|done]. intros [= <-].
  apply add_virtual_nodes_counts in Hadd as (Hsize' & Hcount' & Hlook').
  rewrite length_seq in Hsize', Hcount'.
  unfold ring_invariant. cbn [virtual_nodes hash_ring sorted_keys nodes].
  split; [|split; [|split; [|split]]].
  - rewrite Hsize', Hsize, size_union, size_singleton by set_solver. lia.
  - apply sorted_ring_keys_length.
  - apply sorted_ring_keys_NoDup.
  - intros h n [->|Hold]%Hlook'; [set_solver|].
    apply elem_of_union. right. by apply (Hpresent h).
  - intros n Hn. rewrite Hcount'. case_decide as Heq.
    + subst n. rewrite entries_of_none; [lia|].
      intros h Hh. by apply Hnode, (Hpresent h).
    + rewrite Hcount; [lia|]. set_solver.
Qed.

Lemma empty_ring_invariant V : ring_invariant (empty_ring V).
Proof.
  unfold ring_invariant, empty_ring. cbn [virtual_nodes hash_ring sorted_keys nodes].
  rewrite map_size_empty, size_empty. split; [lia|]. split; [done|].
  split; [apply NoDup_nil_2|]. split.
  - intros h node. by rewrite lookup_empty.
  - by intros node ?%not_elem_of_empty.
Qed.

(** A ring that only ever saw [add] satisfies the invariant. *)
Lemma add_only_runs_keep_invariant (_get_hash : string → Z) fuel ns r :
  ring_invariant r →
  match run_ops _get_hash fuel (Add <$> ns) r with
  | Finished r' => ring_invariant r'
  | Raised _ => False
  | Unfinished => True
  end.
Proof.
  revert r. induction ns as [|node ns IH]; intros r Hinv; csimpl; [done|].
  destruct (add_node _ _ _ _) as [r'|] eqn:Hadd; [|done].
  apply IH. by eapply add_node_keeps_invariant.
Qed.

(** [remove_node] does not: it pops the hashes of the labels [node_i] and
    no rehashed one.  When the labels of the first virtual nodes of the
    shards [a] and [b] have the same hash, [add_node] stores [b] under the
    hash of a rehashed label; [remove_node] of [b] then pops the hash of
    [b_0], which is the entry of [a], and leaves the entry of [b]. *)
Lemma collision_run (_get_hash : string → Z) (a b : string) (fuel : nat) :
  a ≠ b →
  _get_hash (virtual_node_key a 0) = _get_hash (virtual_node_key b 0) →
  match run_ops _get_hash fuel [Add a; Add b; Remove b] (empty_ring 1) with
  | Finished r =>
      nodes r = {[a]} ∧
      (∃ h, hash_ring r = {[h := b]}) ∧
      entries_of (hash_ring r) a = 0%nat ∧
      entries_of (hash_ring r) b = 1%nat ∧
      virtual_nodes r = 1%nat
  | Raised _ => False
  | Unfinished => True
  end.
Proof.
  intros Hne Hcol. cbn [run_ops].
  set (ha := _get_hash (virtual_node_key a 0)).
  assert (add_node _get_hash fuel (empty_ring 1) a
          = Some (mkRing 1 (<[ha := a]> ∅) (sorted_ring_keys (<[ha := a]> ∅)) ({[a]} ∪ ∅)))
    as ->.
  { unfold add_node. cbn [nodes empty_ring virtual_nodes hash_ring seq add_virtual_nodes].
    rewrite decide_False by apply not_elem_of_empty.
    by rewrite free_hash_fresh by apply lookup_empty. }
  unfold add_node. cbn [nodes virtual_nodes hash_ring seq add_virtual_nodes].
  rewrite decide_False by set_solver.
  destruct (free_hash _ _ _ (virtual_node_key b 0)) as [h'|] eqn:Hfree; [|done].
  apply free_hash_is_free in Hfree.
  unfold remove_node. cbn [nodes virtual_nodes hash_ring].
  rewrite decide_True by set_solver.
  assert (h' ≠ ha) as Hh'.
  { intros ->. by rewrite lookup_insert_eq in Hfree. }
  unfold keys_to_remove, pop_keys. cbn [seq fmap list_fmap foldl].
  rewrite <- Hcol. fold ha.
  assert (delete ha (<[h' := b]> (<[ha := a]> (∅ : gmap Z string))) = {[h' := b]}) as ->.
  { rewrite delete_insert_ne by done. rewrite delete_insert_eq, delete_empty. done. }
  cbn [nodes hash_ring virtual_nodes].
  split; [set_solver|]. split; [by exists h'|].
  unfold entries_of. rewrite map_to_list_singleton.
  split; [|split; [|done]].
  - by rewrite filter_cons_False by (cbn; congruence).
  - by rewrite filter_cons_True.
Qed.

(** C3 fails on a collision.  Whatever the hash: when the labels of the
    first virtual nodes of two shards [a] and [b] have the same hash, then
    adding [a], adding [b] and removing [b], with one virtual node a shard,
    does not raise, and where it comes to an end the ring holds one entry,
    that of the removed shard [b], and none of the present shard [a]: it
    does not satisfy the invariant.  [add_node] rehashes a label whose hash
    is taken and [remove_node] pops the hashes of the labels that were not
    rehashed. *)
Theorem remove_node_misses_rehashed_labels (_get_hash : string → Z) (a b : string)
    (fuel : nat) :
  a ≠ b →
  _get_hash (virtual_node_key a 0) = _get_hash (virtual_node_key b 0) →
  match run_ops _get_hash fuel [Add a; Add b; Remove b] (empty_ring 1) with
  | Finished r =>
      nodes r = {[a]} ∧
      (∃ h, hash_ring r = {[h := b]}) ∧
      entries_of (hash_ring r) a = 0%nat ∧
      entries_of (hash_ring r) b = 1%nat ∧
      ¬ ring_invariant r
  | Raised _ => False
  | Unfinished => True
  end.
Proof.
  intros Hne Hcol. pose proof (collision_run _get_hash a b fuel Hne Hcol) as Hrun.
  destruct (run_ops _ _ _ _) as [r| |]; [|done..].
  destruct Hrun as (Hnodes & Hring & Ha & Hb & HV). repeat (split; [done|]).
  intros (_ & _ & _ & _ & Hcount). specialize (Hcount a).
  rewrite Hnodes, Ha, HV in Hcount. by specialize (Hcount ltac:(set_solver)).
Qed.

Lemma shard_name_length k : String.length (shard_name k) = S k.
Proof. induction k as [|k IH]; simpl; [done|]. by rewrite IH. Qed.

Lemma bswap32_range x : 0 ≤ MD5.bswap32 x < 4294967296.
Proof.
  unfold MD5.bswap32. cbn [MD5.le_bytes].
  pose proof (Z.mod_pos_bound x 256).
  pose proof (Z.mod_pos_bound (x / 256) 256).
  pose proof (Z.mod_pos_bound (x / 256 / 256) 256).
  pose proof (Z.mod_pos_bound (x / 256 / 256 / 256) 256).
  lia.
Qed.

(** An MD5 value has 128 bits. *)
Lemma md5_int_range s : 0 ≤ MD5.md5_int s < 340282366920938463463374607431768211456.
Proof.
  unfold MD5.md5_int. destruct (MD5.digest s) as [a b c d].
  pose proof (bswap32_range a). pose proof (bswap32_range b).
  pose proof (bswap32_range c). pose proof (bswap32_range d). lia.
Qed.

(** X1.  [_get_hash] returns a non-negative integer of at most 128 bits,
    whatever the key. *)
Theorem get_hash_fits_128_bits key : 0 ≤ MD5.md5_int key < 2 ^ 128.
Proof.
  pose proof (md5_int_range key) as Hrange.
  by replace (2 ^ 128) with 340282366920938463463374607431768211456 by reflexivity.
Qed.

(** So two shard names have first labels with the same MD5 value. *)
Lemma md5_label_collision :
  ∃ a b, a ≠ b ∧
    MD5.md5_int (virtual_node_key a 0) = MD5.md5_int (virtual_node_key b 0).
Proof.
  pose (bound := 340282366920938463463374607431768211456).
  pose (f := λ k, Z.to_nat (MD5.md5_int (virtual_node_key (shard_name k) 0))).
  destruct (nat_pigeonhole f (S (Z.to_nat bound)) (Z.to_nat bound)) as (i & j & Hij & Hf).
  - apply Nat.lt_succ_diag_r.
  - intros k _. unfold f. apply Z2Nat.inj_lt; [apply md5_int_range|done|apply md5_int_range].
  - exists (shard_name i), (shard_name j). split.
    + intros Heq%(f_equal String.length). rewrite !shard_name_length in Heq.
      injection Heq as Heq. destruct Hij as [Hlt _]. rewrite Heq in Hlt.
      by apply Nat.lt_irrefl in Hlt.
    + unfold f in Hf. apply Z2Nat.inj in Hf; [done|apply md5_int_range..].
Qed.

(** Under MD5 such shards exist, so that the invariant does not hold of
    every run: some sequence of [add] and [remove], none of them a removal
    of an absent shard, does not end on a ring that satisfies it. *)
Lemma ring_claim_fails_on_collision : ¬ ring_claim MD5.md5_int.
Proof.
  intros Hclaim. destruct md5_label_collision as (a & b & Hne & Hcol).
  destruct (Hclaim 1%nat [Add a; Add b; Remove b]) as [fuel Hrun].
  pose proof (collision_run MD5.md5_int a b fuel Hne Hcol) as Hbreak.
  destruct (run_ops _ _ _ _) as [r| |]; [|done..].
  destruct Hbreak as (Hnodes & _ & Ha & _ & HV).
  destruct Hrun as (_ & _ & _ & _ & Hcount). specialize (Hcount a).
  rewrite Hnodes, Ha, HV in Hcount. by specialize (Hcount ltac:(set_solver)).
Qed.

(** ** The ring: what adding and removing a shard does to the routes *)

Section RingRoutes.

Variable _get_hash : string → Z.

Implicit Types (r : ConsistentHash) (ring : gmap Z string).

Lemma successor_unique ring x h1 h2 :
  successor ring x h1 → successor ring x h2 → h1 = h2.
Proof.
  intros [Hin1 [[Hgt1 Hleast1]|[Hnone1 Hmin1]]] [Hin2 [[Hgt2 Hleast2]|[Hnone2 Hmin2]]].
  - specialize (Hleast1 _ Hin2 Hgt2). specialize (Hleast2 _ Hin1 Hgt1). lia.
  - specialize (Hnone2 _ Hin1). lia.
  - specialize (Hnone1 _ Hin2). lia.
  - specialize (Hmin1 _ Hin2). specialize (Hmin2 _ Hin1). lia.
Qed.

(** A successor stays one when entries other than it are taken away. *)
Lemma successor_submap ring ring' x h :
  (∀ h', is_Some (ring' !! h') → is_Some (ring !! h')) →
  is_Some (ring' !! h) → successor ring x h → successor ring' x h.
Proof.
  intros Hsub Hin [_ [[Hgt Hleast]|[Hnone Hmin]]]; (split; [done|]).
  - left. split; [done|]. intros h' Hh'. apply Hleast. by apply Hsub.
  - right. split; intros h' Hh'; [apply Hnone|apply Hmin]; by apply Hsub.
Qed.

(** On a ring that is not empty [get_node] returns the shard stored at the
    successor of the key's hash. *)
Lemma get_node_route r key :
  ring_wf r → hash_ring r ≠ ∅ →
  ∃ h node, successor (hash_ring r) (_get_hash key) h ∧
            hash_ring r !! h = Some node ∧ get_node _get_hash r key = Ok node.
Proof.
  intros Hwf Hne. unfold get_node. rewrite decide_False by done.
  rewrite Hwf. set (ks := sorted_ring_keys (hash_ring r)). set (x := _get_hash key).
  pose proof (sorted_ring_keys_ascending (hash_ring r)) as Hasc. fold ks in Hasc.
  destruct (bisect_spec ks x Hasc) as [Hle [Hbelow Habove]].
  assert (length ks ≠ 0%nat) as Hlen.
  { subst ks. rewrite sorted_ring_keys_length. by intros ?%map_size_empty_iff. }
  assert (∀ i h, ks !! i = Some h → is_Some (hash_ring r !! h)) as Hin.
  { intros i h Hi. apply sorted_ring_keys_elem. by eapply list_elem_of_lookup_2. }
  assert (∀ h, is_Some (hash_ring r !! h) → ∃ i, ks !! i = Some h) as Hout.
  { intros h Hh. apply list_elem_of_lookup_1. by apply sorted_ring_keys_elem. }
  case_decide as Hidx.
  - destruct (ks !! 0%nat) as [h|] eqn:H0.
    2:{ apply lookup_ge_None in H0. lia. }
    destruct (Hin _ _ H0) as [node Hnode]. rewrite Hnode.
    exists h, node. split; [|done]. split; [by exists node|]. right. split.
    + intros h' [i Hi]%Hout. eapply Hbelow; [|done]. apply lookup_lt_Some in Hi. lia.
    + intros h' [i Hi]%Hout. eapply (Hasc 0%nat i); [lia|done..].
  - destruct (ks !! bisect ks x) as [h|] eqn:Hh.
    2:{ apply lookup_ge_None in Hh. lia. }
    destruct (Hin _ _ Hh) as [node Hnode]. rewrite Hnode.
    exists h, node. split; [|done]. split; [by exists node|]. left. split.
    + eapply Habove; [|done]. lia.
    + intros h' [j Hj]%Hout Hgt.
      destruct (decide (j < bisect ks x)%nat) as [Hlt|Hge].
      * specialize (Hbelow _ _ Hlt Hj). lia.
      * eapply (Hasc (bisect ks x) j); [lia|done..].
Qed.

Lemma get_node_successor r key node :
  ring_wf r →
  get_node _get_hash r key = Ok node ↔
  ∃ h, successor (hash_ring r) (_get_hash key) h ∧ hash_ring r !! h = Some node.
Proof.
  intros Hwf. split.
  - intros Hget. destruct (decide (hash_ring r = ∅)) as [Hempty|Hne].
    + unfold get_node in Hget. by rewrite decide_True in Hget.
    + destruct (get_node_route r key Hwf Hne) as (h & node' & Hs & Hh & Hget').
      rewrite Hget in Hget'. injection Hget' as <-. by exists h.
  - intros (h & Hs & Hh).
    assert (hash_ring r ≠ ∅) as Hne by (intros He; by rewrite He, lookup_empty in Hh).
    destruct (get_node_route r key Hwf Hne) as (h' & node' & Hs' & Hh' & Hget').
    rewrite (successor_unique _ _ _ _ Hs Hs') in Hh. congruence.
Qed.

Lemma lookup_pop_keys ks ring h :
  pop_keys ks ring !! h = if decide (h ∈ ks) then None else ring !! h.
Proof.
  revert ring. induction ks as [|k ks IH]; intros ring; cbn [pop_keys foldl].
  - rewrite decide_False; [done|apply not_elem_of_nil].
  - fold (pop_keys ks (delete k ring)). rewrite IH. destruct (decide (h ∈ ks)) as [Hin|Hnin].
    + rewrite decide_True; [done|by right].
    + destruct (decide (h = k)) as [->|Hne].
      * rewrite lookup_delete_eq, decide_True; [done|by left].
      * rewrite lookup_delete_ne by done. rewrite decide_False; [done|].
        by intros [?|?]%elem_of_cons.
Qed.

(** The rehash loop of [add_node] only ever adds: every entry that was
    there stays, and every new entry is one of the added shard. *)
Lemma add_virtual_nodes_extends fuel node idxs ring ring' :
  add_virtual_nodes _get_hash fuel node idxs ring = Some ring' →
  (∀ h n, ring !! h = Some n → ring' !! h = Some n) ∧
  (∀ h n, ring' !! h = Some n → n = node ∨ ring !! h = Some n).
Proof.
  revert ring. induction idxs as [|i idxs IH]; intros ring; simpl.
  - intros [= <-]. split; [done|]. intros h n ?. by right.
  - destruct (free_hash _ _ _ _) as [hash_key|] eqn:Hfree; [|done].
    apply free_hash_is_free in Hfree. intros [Hkeep Hnew]%IH. split.
    + intros h n Hh. apply Hkeep. rewrite lookup_insert_ne; [done|]. congruence.
    + intros h n [->|Hins]%Hnew; [by left|].
      apply lookup_insert_Some in Hins as [[_ <-]|[_ Hold]]; [by left|by right].
Qed.

Lemma run_ops_wf fuel ops r r' :
  ring_wf r → run_ops _get_hash fuel ops r = Finished r' → ring_wf r'.
Proof.
  revert r. induction ops as [|[node|node] ops IH]; intros r Hwf; simpl.
  - by intros [= <-].
  - destruct (add_node _ _ _ _) as [r1|] eqn:Hadd; [|done].
    apply IH. by eapply add_node_wf.
  - destruct (remove_node _ _ _) as [r1|e] eqn:Hrm; [|done].
    apply IH. by eapply remove_node_wf.
Qed.

Lemma ascending_NoDup_strictly (a : list Z) :
  ascending a → NoDup a → strictly_ascending a.
Proof.
  intros Hasc Hnd i j vi vj Hij Hi Hj.
  assert (vi ≤ vj) by (eapply (Hasc i j); [lia|done..]).
  assert (vi ≠ vj); [|lia].
  intros ->. pose proof (NoDup_lookup _ _ _ _ Hnd Hi Hj). lia.
Qed.

(** X2.  Whatever is added and removed, collisions or not, the entry list of the
    ring that results is strictly ascending and lists the stored hashes,
    each once: the list that [get_node] searches is sorted. *)
Theorem sorted_keys_stay_sorted fuel V ops :
  match run_ops _get_hash fuel ops (empty_ring V) with
  | Finished r =>
      strictly_ascending (sorted_keys r) ∧
      (∀ h, h ∈ sorted_keys r ↔ is_Some (hash_ring r !! h)) ∧
      length (sorted_keys r) = size (hash_ring r)
  | Raised _ | Unfinished => True
  end.
Proof.
  destruct (run_ops _ _ _ _) as [r| |] eqn:Hrun; [|done..].
  pose proof (run_ops_wf _ _ _ _ (empty_ring_wf V) Hrun) as Hwf.
  rewrite Hwf. split; [|split].
  - apply ascending_NoDup_strictly;
      [apply sorted_ring_keys_ascending|apply sorted_ring_keys_NoDup].
  - apply sorted_ring_keys_elem.
  - apply sorted_ring_keys_length.
Qed.

(** X3.  Removing a shard whose labels hit no entry of another shard leaves the
    route of every key that another shard served as it was. *)
Theorem remove_node_keeps_other_routes r r' shard key node :
  ring_wf r →
  (∀ i other, (i < virtual_nodes r)%nat →
     hash_ring r !! _get_hash (virtual_node_key shard i) = Some other → other = shard) →
  remove_node _get_hash r shard = Ok r' →
  get_node _get_hash r key = Ok node → node ≠ shard →
  get_node _get_hash r' key = Ok node.
Proof.
  intros Hwf Hown Hrm Hget Hne.
  pose proof (remove_node_wf _ _ _ _ Hrm) as Hwf'.
  apply (get_node_successor r key node Hwf) in Hget as (h & Hsucc & Hh).
  apply (get_node_successor r' key node Hwf'). exists h.
  unfold remove_node in Hrm. case_decide; [|done]. injection Hrm as <-.
  cbn [hash_ring].
  assert (h ∉ keys_to_remove _get_hash shard (virtual_nodes r)) as Hkept.
  { intros (i & -> & Hi%elem_of_seq)%list_elem_of_fmap.
    apply Hne. apply (Hown i); [lia|done]. }
  assert (pop_keys (keys_to_remove _get_hash shard (virtual_nodes r)) (hash_ring r) !! h
          = Some node) as Hh'.
  { by rewrite lookup_pop_keys, decide_False. }
  split; [|done]. apply (successor_submap (hash_ring r)); [|by exists node|done].
  intros h'. rewrite lookup_pop_keys. by case_decide; [intros [? [=]]|].
Qed.

(** X4.  Adding a shard moves keys to that shard only: a key is served by the
    shard that served it before or by the added one.  No entry is replaced,
    a colliding label being rehashed until its hash is free. *)
Theorem add_node_moves_keys_to_new_shard_only fuel r r' shard key node :
  ring_wf r →
  add_node _get_hash fuel r shard = Some r' →
  get_node _get_hash r' key = Ok node →
  node = shard ∨ get_node _get_hash r key = Ok node.
Proof.
  intros Hwf Hadd Hget.
  pose proof (add_node_wf _ _ _ _ _ Hwf Hadd) as Hwf'.
  unfold add_node in Hadd. case_decide; [injection Hadd as <-; by right|].
  destruct (add_virtual_nodes _ _ _ _ _) as [ring'|] eqn:Hvn; [|done].
  injection Hadd as <-.
  apply add_virtual_nodes_extends in Hvn as [Hkeep Hnew].
  apply (get_node_successor _ key node Hwf') in Hget as (h & Hsucc & Hh).
  cbn [hash_ring] in Hsucc, Hh.
  destruct (Hnew _ _ Hh) as [->|Hold]; [by left|]. right.
  apply (get_node_successor r key node Hwf). exists h. split; [|done].
  apply (successor_submap ring'); [|by exists node|done].
  intros h' [n Hn]. exists n. by apply Hkeep.
Qed.

(** X5.  A shard that is added without a rehash and removed again leaves the
    ring it was added to: hashes, entry list and shard set. *)
Theorem add_then_remove_restores fuel r shard :
  ring_wf r → shard ∉ nodes r →
  NoDup (keys_to_remove _get_hash shard (virtual_nodes r)) →
  (∀ h, h ∈ keys_to_remove _get_hash shard (virtual_nodes r) → hash_ring r !! h = None) →
  ∃ r1, add_node _get_hash fuel r shard = Some r1 ∧
        shard ∈ nodes r1 ∧
        remove_node _get_hash r1 shard = Ok r.
Proof.
  intros Hwf Habsent Hnd Hfree. unfold add_node. rewrite decide_False by done.
  destruct (add_virtual_nodes_fresh _get_hash fuel shard (seq 0 (virtual_nodes r)) (hash_ring r))
    as (ring' & -> & Hlook & _); [done| |].
  { intros i Hi. apply Hfree.
    by apply (list_elem_of_fmap_2 (λ i, _get_hash (virtual_node_key shard i))). }
  eexists. split; [done|]. cbn [nodes]. split; [set_solver|].
  unfold remove_node. cbn [nodes virtual_nodes hash_ring]. rewrite decide_True by set_solver.
  assert (pop_keys (keys_to_remove _get_hash shard (virtual_nodes r)) ring' = hash_ring r)
    as ->.
  { apply map_eq. intros h. rewrite lookup_pop_keys. case_decide as Hh.
    - symmetry. by apply Hfree.
    - apply option_eq. intros n. rewrite Hlook. split; [|by right].
      intros [(_ & i & Hi & ->)|?]; [|done].
      exfalso. apply Hh.
      by apply (list_elem_of_fmap_2 (λ i, _get_hash (virtual_node_key shard i))). }
  assert (({[shard]} ∪ nodes r) ∖ {[shard]} = nodes r) as -> by set_solver.
  rewrite <- Hwf. by destruct r.
Qed.

(** On a ring whose entries are the hashes of the labels of its shards, a
    label of a shard hits no entry of another shard. *)
Lemma ring_exact_own_labels V ns r shard i other :
  NoDup (label_hashes _get_hash V ns) → ring_exact _get_hash V ns r →
  shard ∈ ns → (i < V)%nat →
  hash_ring r !! _get_hash (virtual_node_key shard i) = Some other → other = shard.
Proof.
  intros Hdistinct (_ & _ & Hsub & Hlook & _) Hshard Hi Hh.
  apply Hlook in Hh as (Hother & j & Hj & Heq).
  by destruct (label_hash_inj _get_hash V ns Hdistinct shard i other j) as [-> _];
    [|apply Hsub|..].
Qed.

(** X6.  On a ring that adding and removing shards without collisions has left,
    [get_node] returns a shard that is present, and it raises exactly when
    the ring has no shard or no virtual node per shard. *)
Theorem get_node_returns_present_shard fuel V ops key :
  NoDup (label_hashes _get_hash V (remove_dups (op_node <$> ops))) →
  match run_ops _get_hash fuel ops (empty_ring V) with
  | Finished r =>
      match get_node _get_hash r key with
      | Ok node => node ∈ nodes r ∧ V ≠ 0%nat
      | Raise e => (nodes r = ∅ ∨ V = 0%nat) ∧ e = Exception "Hash ring is empty"
      end
  | Raised _ => True
  | Unfinished => False
  end.
Proof.
  intros Hdistinct.
  pose proof (run_ops_exact _get_hash V _ Hdistinct fuel ops (empty_ring V)
                (empty_ring_exact _ _ _)) as Hexact.
  destruct (run_ops _ _ _ _) as [r| |]; [|done|].
  2:{ apply Hexact. intros op Hop. apply elem_of_remove_dups. by apply list_elem_of_fmap_2. }
  destruct Hexact as (HV & Hwf & _ & Hlook & Hsize & _).
  { intros op Hop. apply elem_of_remove_dups. by apply list_elem_of_fmap_2. }
  destruct (decide (hash_ring r = ∅)) as [Hempty|Hne].
  - unfold get_node. rewrite decide_True by done. split; [|done].
    rewrite Hempty, map_size_empty in Hsize.
    destruct V as [|V']; [by right|left].
    apply leibniz_equiv, size_empty_inv. lia.
  - destruct (get_node_route r key Hwf Hne) as (h & node & _ & Hh & ->).
    apply Hlook in Hh as [Hnode (i & Hi & _)].
    split; [done|lia].
Qed.

(** Two rings whose entries are the label hashes of the same shards are
    the same ring. *)
Lemma ring_exact_unique V ns r1 r2 :
  ring_exact _get_hash V ns r1 → ring_exact _get_hash V ns r2 →
  nodes r1 = nodes r2 → r1 = r2.
Proof.
  intros (HV1 & Hwf1 & _ & Hlook1 & _) (HV2 & Hwf2 & _ & Hlook2 & _) Hnodes.
  assert (hash_ring r1 = hash_ring r2) as Hring.
  { apply map_eq. intros h. apply option_eq. intros node.
    by rewrite Hlook1, Hlook2, Hnodes. }
  destruct r1 as [V1 ring1 keys1 nodes1], r2 as [V2 ring2 keys2 nodes2].
  unfold ring_wf in Hwf1, Hwf2. cbn in *. congruence.
Qed.

(** X7.  On a ring that adding and removing shards without collisions has
    left, removing a present shard and adding it again gives back the ring
    as it was, so that every key is routed as before. *)
Theorem remove_then_add_restores fuel V ops shard :
  NoDup (label_hashes _get_hash V (remove_dups (op_node <$> ops))) →
  match run_ops _get_hash fuel ops (empty_ring V) with
  | Finished r =>
      shard ∈ nodes r → run_ops _get_hash fuel [Remove shard; Add shard] r = Finished r
  | Raised _ => True
  | Unfinished => False
  end.
Proof.
  intros Hdistinct. set (ns := remove_dups (op_node <$> ops)) in *.
  pose proof (run_ops_exact _get_hash V ns Hdistinct fuel ops (empty_ring V)
                (empty_ring_exact _ _ _)) as Hexact.
  assert (∀ op, op ∈ ops → op_node op ∈ ns) as Hops.
  { intros op Hop. apply elem_of_remove_dups. by apply list_elem_of_fmap_2. }
  destruct (run_ops _ _ _ _) as [r| |]; [|done|by apply Hexact].
  specialize (Hexact Hops). intros Hshard. cbn [run_ops].
  destruct (remove_node_exact _get_hash V ns Hdistinct r shard Hexact Hshard)
    as (r1 & Hrm & Hexact1).
  rewrite Hrm.
  assert (shard ∈ ns) as Hns by (destruct Hexact as (_ & _ & Hsub & _); by apply Hsub).
  destruct (add_node_exact _get_hash V ns Hdistinct fuel r1 shard Hexact1 Hns)
    as (r2 & Hadd & Hexact2).
  rewrite Hadd. f_equal. apply (ring_exact_unique V ns); [done..|].
  unfold remove_node in Hrm. rewrite decide_True in Hrm by done. injection Hrm as <-.
  unfold add_node in Hadd. cbn [nodes] in Hadd.
  rewrite decide_False in Hadd by set_solver.
  destruct (add_virtual_nodes _ _ _ _ _); [|done]. injection Hadd as <-. cbn [nodes].
  apply set_eq. intros n. rewrite elem_of_union, elem_of_singleton, elem_of_difference,
    not_elem_of_singleton.
  destruct (decide (n = shard)) as [->|]; tauto.
Qed.

Lemma get_node_distribution_lookup r node :
  get_node_distribution r !! node
  = if decide (node ∈ nodes r) then Some (entries_of (hash_ring r) node) else None.
Proof.
  unfold get_node_distribution, entries_of. apply option_eq. intros c.
  rewrite lookup_set_to_map by (by intros ?? _ _ [= ->]).
  case_decide as Hnode; split.
  - by intros (n & _ & [= -> <-]).
  - intros [= <-]. by exists node.
  - by intros (n & Hn & [= -> <-]).
  - done.
Qed.

Lemma sum_list_indicator (l : list string) v :
  NoDup l → v ∈ l →
  sum_list ((λ n, if decide (v = n) then 1 else 0)%nat <$> l) = 1%nat.
Proof.
  induction 1 as [|n l Hn Hnd IH]; [by intros ?%elem_of_nil|].
  intros [->|Hv]%elem_of_cons; csimpl.
  - rewrite decide_True by done. f_equal.
    clear IH Hnd. induction l as [|n' l IH]; [done|]. csimpl.
    rewrite decide_False by (intros ->; apply Hn; by left).
    apply IH. intros ?. apply Hn. by right.
  - rewrite decide_False by (by intros ->). by apply IH.
Qed.

Lemma sum_list_entries_of ring (l : list string) :
  NoDup l → (∀ h n, ring !! h = Some n → n ∈ l) →
  sum_list ((λ n, entries_of ring n) <$> l) = size ring.
Proof.
  intros Hnd. induction ring as [|k v ring Hk IH] using map_ind; intros Hall.
  - rewrite map_size_empty.
    induction l as [|n l IHl]; [done|]. csimpl.
    apply NoDup_cons in Hnd as [_ Hnd]. rewrite IHl by done.
    unfold entries_of. by rewrite map_to_list_empty.
  - rewrite map_size_insert_None by done. rewrite <- IH.
    2:{ intros h n Hh. apply (Hall h). rewrite lookup_insert_ne; [done|]. congruence. }
    assert (sum_list ((λ n, entries_of (<[k:=v]> ring) n) <$> l)
            = (sum_list ((λ n, entries_of ring n) <$> l)
               + sum_list ((λ n, if decide (v = n) then 1 else 0) <$> l))%nat) as ->.
    { clear IH Hnd Hall. induction l as [|n l IHl]; [done|]. csimpl.
      rewrite IHl, entries_of_insert_fresh by done. lia. }
    rewrite (sum_list_indicator l v Hnd) by (apply (Hall k); apply lookup_insert_eq).
    lia.
Qed.

(** X8.  [get_node_distribution] reports a count for each present shard and for
    no other, and when every entry of the ring is of a present shard its
    counts add up to the number of entries. *)
Theorem get_node_distribution_accounts_for_ring r :
  (∀ h node, hash_ring r !! h = Some node → node ∈ nodes r) →
  (∀ node, is_Some (get_node_distribution r !! node) ↔ node ∈ nodes r) ∧
  distribution_total r = size (hash_ring r).
Proof.
  intros Hall. split.
  - intros node. rewrite get_node_distribution_lookup. case_decide; [|by split; [intros [? [=]]|]].
    split; [done|]. by eexists.
  - unfold distribution_total.
    rewrite <- (sum_list_entries_of (hash_ring r) (elements (nodes r))).
    + f_equal. apply list_fmap_ext. intros _ node Hnode%list_elem_of_lookup_2.
      rewrite get_node_distribution_lookup, decide_True; [done|by apply elem_of_elements].
    + apply NoDup_elements.
    + intros h node Hh. apply elem_of_elements. by eapply Hall.
Qed.

End RingRoutes.

(** ** The shard manager: reads and fallback routing *)

Section ManagerFacts.

Variable _get_hash : string → Z.
Variable settings : Settings.
Context {W : Type} `{World W}.

Implicit Types (m : RedisManager) (w : W).

Lemma get_loop_answer m key node attempt rest w w' value :
  get_connection _get_hash m key = Ok node →
  client_get node key w = (Ok value, w') →
  get_loop _get_hash settings m key (attempt :: rest) w
  = (Ok (Some (default 0 value, node)), w').
Proof.
  intros Hconn Hget. cbn [get_loop].
  unfold try_except_redis, bind, of_result, ret. rewrite Hconn, Hget.
  by destruct value.
Qed.

(** A failed read that is not the last attempt is tried again. *)
Lemma get_loop_retry m key node attempt rest w w' msg :
  get_connection _get_hash m key = Ok node →
  client_get node key w = (Raise (RedisError msg), w') →
  last_attempt settings attempt = false →
  get_loop _get_hash settings m key (attempt :: rest) w
  = get_loop _get_hash settings m key rest w'.
Proof.
  intros Hconn Hget Hlast. cbn [get_loop].
  unfold try_except_redis, bind, of_result. rewrite Hconn, Hget. simpl.
  by rewrite Hlast.
Qed.

(** C8. When the routed shard answers the read and holds no value for the
    key, the manager's [get] returns the value 0 paired with the shard id,
    not an error. *)
Theorem get_missing_key_zero m key node w w' :
  (0 < REDIS_RETRY_ATTEMPTS settings)%nat →
  get_connection _get_hash m key = Ok node →
  client_get node key w = (Ok None, w') →
  get _get_hash settings m key w = (Ok (Some (0, node)), w').
Proof.
  intros Hattempts Hconn Hget. unfold get.
  destruct (REDIS_RETRY_ATTEMPTS settings) as [|n]; [lia|].
  cbn [seq]. by rewrite (get_loop_answer m key node _ _ w w' None Hconn Hget).
Qed.

(** The same after a failed first attempt, when a second one is allowed. *)
Lemma get_missing_key_zero_retry m key node w w1 w' msg :
  (1 < REDIS_RETRY_ATTEMPTS settings)%nat →
  get_connection _get_hash m key = Ok node →
  client_get node key w = (Raise (RedisError msg), w1) →
  client_get node key w1 = (Ok None, w') →
  get _get_hash settings m key w = (Ok (Some (0, node)), w').
Proof.
  intros Hattempts Hconn Hfail Hget. unfold get.
  destruct (REDIS_RETRY_ATTEMPTS settings) as [|[|n]] eqn:HN; [lia..|].
  cbn [seq]. rewrite (get_loop_retry m key node _ _ w w1 msg Hconn Hfail).
  - by rewrite (get_loop_answer m key node _ _ w1 w' None Hconn Hget).
  - unfold last_attempt. rewrite HN. apply bool_decide_eq_false. lia.
Qed.

(** Fallback routing is a fixed walk: when the label of the unhealthy
    shard routes back to that shard, every round of the loop meets it
    again and the loop runs out. *)
Lemma fallback_stuck m n node :
  get_node _get_hash (consistent_hash m) ("fallback_" +:+ node) = Ok node →
  node_health m !! node = Some false →
  fallback _get_hash m n node = Raise (Exception "No healthy Redis nodes available").
Proof.
  intros Hroute Hdown. induction n as [|n IH]; cbn [fallback]; [done|].
  rewrite Hroute. cbn [rbind]. unfold health_of. rewrite Hdown. cbn [rbind]. exact IH.
Qed.

Lemma get_connection_stuck m key node :
  get_node _get_hash (consistent_hash m) key = Ok node →
  get_node _get_hash (consistent_hash m) ("fallback_" +:+ node) = Ok node →
  node_health m !! node = Some false →
  get_connection _get_hash m key = Raise (Exception "No healthy Redis nodes available").
Proof.
  intros Hkey Hroute Hdown. unfold get_connection.
  rewrite Hkey. cbn [rbind]. unfold health_of. rewrite Hdown. cbn [rbind].
  by rewrite fallback_stuck.
Qed.

(** When the label of the unhealthy shard routes to a healthy shard, the
    first round of the loop finds it. *)
Lemma get_connection_fallback m key down up :
  get_node _get_hash (consistent_hash m) key = Ok down →
  node_health m !! down = Some false →
  get_node _get_hash (consistent_hash m) ("fallback_" +:+ down) = Ok up →
  node_health m !! up = Some true →
  up ∈ redis_clients m →
  redis_nodes m ≠ [] →
  get_connection _get_hash m key = Ok up.
Proof.
  intros Hkey Hdown Hroute Hup Hclient Hnodes. unfold get_connection.
  rewrite Hkey. cbn [rbind]. unfold health_of at 1. rewrite Hdown. cbn [rbind].
  destruct (redis_nodes m) as [|n0 ns]; [done|]. cbn [length fallback].
  rewrite Hroute. cbn [rbind]. unfold health_of. rewrite Hup. cbn [rbind].
  by rewrite decide_True.
Qed.

(** A routing failure is not a [RedisError]: [get] and [increment] do not
    retry it, it leaves them as it is. *)
Lemma get_routing_failure m key e w :
  (0 < REDIS_RETRY_ATTEMPTS settings)%nat →
  get_connection _get_hash m key = Raise e →
  is_RedisError e = false →
  get _get_hash settings m key w = (Raise e, w).
Proof.
  intros Hattempts Hconn He. unfold get.
  destruct (REDIS_RETRY_ATTEMPTS settings) as [|n]; [lia|].
  cbn [seq get_loop]. unfold try_except_redis, bind, of_result.
  by rewrite Hconn, He.
Qed.

Lemma increment_routing_failure m key amount e w :
  (0 < REDIS_RETRY_ATTEMPTS settings)%nat →
  get_connection _get_hash m key = Raise e →
  is_RedisError e = false →
  increment _get_hash settings m key amount w = (Raise e, w).
Proof.
  intros Hattempts Hconn He. unfold increment.
  destruct (REDIS_RETRY_ATTEMPTS settings) as [|n]; [lia|].
  cbn [seq increment_loop]. unfold try_except_redis, bind, of_result.
  by rewrite Hconn, He.
Qed.

(** With at least one attempt allowed, an [increment] that returns has
    reached a shard: some attempt's [incr] went through, and it was the
    last call made. *)
Lemma increment_loop_delivered m key amount a k r w w' :
  (a + k = REDIS_RETRY_ATTEMPTS settings)%nat → (0 < k)%nat →
  increment_loop _get_hash settings m key amount (seq a k) w = (Ok r, w') →
  ∃ node v w0,
    get_connection _get_hash m key = Ok node ∧
    client_incr node key amount w0 = (Ok v, w') ∧ r = Some v.
Proof.
  revert a w. induction k as [|k IH]; intros a w Hak Hk; [lia|].
  cbn [seq increment_loop]. unfold try_except_redis, bind, of_result, ret, raise.
  destruct (get_connection _get_hash m key) as [node|e] eqn:Hconn.
  - destruct (client_incr node key amount w) as [[v|e] w1] eqn:Hincr.
    + intros [= <- <-]. by exists node, v, w.
    + destruct (is_RedisError e); [|done].
      destruct (last_attempt settings a) eqn:Hlast; [done|].
      destruct k as [|k].
      { apply bool_decide_eq_false in Hlast. lia. }
      apply IH; lia.
  - destruct (is_RedisError e); [|done].
    destruct (last_attempt settings a) eqn:Hlast; [done|].
    destruct k as [|k].
    { apply bool_decide_eq_false in Hlast. lia. }
    apply IH; lia.
Qed.

Lemma increment_delivered m key amount r w w' :
  (0 < REDIS_RETRY_ATTEMPTS settings)%nat →
  increment _get_hash settings m key amount w = (Ok r, w') →
  ∃ node v w0,
    get_connection _get_hash m key = Ok node ∧
    client_incr node key amount w0 = (Ok v, w') ∧ r = Some v.
Proof. intros Hattempts. by apply increment_loop_delivered. Qed.

End ManagerFacts.

(** ** The shard manager: what its constructor and its health check keep *)

Section ManagerInvariant.

Variable _get_hash : string → Z.
Variable settings : Settings.
Context {W : Type} `{World W}.

Implicit Types (m : RedisManager) (w : W).

Lemma add_nodes_values fuel ns r r' :
  add_nodes _get_hash fuel r ns = Some r' →
  ∀ h node, hash_ring r' !! h = Some node → node ∈ ns ∨ hash_ring r !! h = Some node.
Proof.
  revert r. induction ns as [|n ns IH]; simpl; intros r Hadd h node Hh.
  - injection Hadd as <-. by right.
  - destruct (add_node _ _ _ _) as [r1|] eqn:H1; [|done].
    destruct (IH _ Hadd _ _ Hh) as [Hin|Hh1]; [left; by right|].
    unfold add_node in H1. case_decide; [injection H1 as <-; by right|].
    destruct (add_virtual_nodes _ _ _ _ _) as [ring'|] eqn:Hvn; [|done].
    injection H1 as <-. cbn [hash_ring] in Hh1.
    apply add_virtual_nodes_extends in Hvn as [_ Hnew].
    destruct (Hnew _ _ Hh1) as [->|?]; [left; by left|by right].
Qed.

Lemma _initialize_connections_spec connects ns clients health :
  _initialize_connections connects ns = (clients, health) →
  (∀ node, node ∈ clients ↔ node ∈ ns ∧ connects node = true) ∧
  (∀ node, health !! node = if decide (node ∈ ns) then Some (connects node) else None).
Proof.
  unfold _initialize_connections.
  assert (∀ (acc : gset string * gmap string bool) done_,
            (∀ node, node ∈ acc.1 ↔ node ∈ done_ ∧ connects node = true) →
            (∀ node, acc.2 !! node = if decide (node ∈ done_) then Some (connects node) else None) →
            ∀ clients health,
            foldl (λ '(clients, health) node,
                     if connects node then ({[node]} ∪ clients, <[node := true]> health)
                     else (clients, <[node := false]> health)) acc ns = (clients, health) →
            (∀ node, node ∈ clients ↔ node ∈ done_ ++ ns ∧ connects node = true) ∧
            (∀ node, health !! node
                     = if decide (node ∈ done_ ++ ns) then Some (connects node) else None))
    as Hgen.
  { induction ns as [|n ns IH]; intros [cl he] done_ Hcl Hhe clients' health'; simpl.
    - intros [= <- <-]. rewrite app_nil_r. done.
    - intros Hfold.
      replace (done_ ++ n :: ns) with ((done_ ++ [n]) ++ ns) by (by rewrite <- app_assoc).
      simpl in Hcl, Hhe.
      eapply IH; [| |exact Hfold]; destruct (connects n) eqn:Hn; simpl; intros node.
      + rewrite elem_of_union, elem_of_singleton, Hcl, elem_of_app, list_elem_of_singleton.
        split; [intros [->|[Ha Hb]]; auto|intros [[Ha| ->] Hb]; auto].
      + rewrite Hcl, elem_of_app, list_elem_of_singleton.
        split; [intros [Ha Hb]; auto|intros [[Ha| ->] Hb]; [auto|congruence]].
      + destruct (decide (node = n)) as [->|Hne].
        * rewrite lookup_insert_eq, decide_True, Hn; [done|].
          apply elem_of_app. right. by apply list_elem_of_singleton.
        * rewrite lookup_insert_ne, Hhe by done.
          repeat case_decide; try done; exfalso;
            rewrite elem_of_app, list_elem_of_singleton in *; tauto.
      + destruct (decide (node = n)) as [->|Hne].
        * rewrite lookup_insert_eq, decide_True, Hn; [done|].
          apply elem_of_app. right. by apply list_elem_of_singleton.
        * rewrite lookup_insert_ne, Hhe by done.
          repeat case_decide; try done; exfalso;
            rewrite elem_of_app, list_elem_of_singleton in *; tauto. }
  intros Hfold. apply (Hgen (∅, ∅) []); [| |exact Hfold]; simpl; intros node.
  - split; [by intros ?%not_elem_of_empty|by intros [?%elem_of_nil _]].
  - apply lookup_empty.
Qed.

Lemma RedisManager_init_ok fuel connects m :
  RedisManager_init _get_hash settings fuel connects = Some m →
  manager_ok m ∧
  redis_nodes m = REDIS_NODES settings ∧
  (∀ node, node ∈ REDIS_NODES settings →
     node_health m !! node = Some (connects node) ∧
     (node ∈ redis_clients m ↔ connects node = true)).
Proof.
  unfold RedisManager_init.
  destruct (ConsistentHash_init _ _ _ _) as [ring|] eqn:Hring; [|done].
  destruct (_initialize_connections _ _) as [clients health] eqn:Hconn.
  intros [= <-]. apply _initialize_connections_spec in Hconn as [Hclients Hhealth].
  unfold manager_ok. cbn [consistent_hash redis_nodes node_health redis_clients].
  split; [split; [|split; [|split]]|split].
  - by eapply ConsistentHash_init_wf.
  - intros h node Hh. destruct (add_nodes_values _ _ _ _ Hring _ _ Hh) as [?|Hempty]; [done|].
    cbn [hash_ring empty_ring] in Hempty. by rewrite lookup_empty in Hempty.
  - intros node Hnode. rewrite Hhealth, decide_True by done. by eexists.
  - intros node. rewrite Hhealth. case_decide; [|done]. intros [= Htrue].
    by apply Hclients.
  - done.
  - intros node Hnode. rewrite Hhealth, decide_True by done. split; [done|].
    rewrite Hclients. tauto.
Qed.

Lemma ping_node_ok m node w :
  ∃ b w', ping_node m node w = (Ok (set_node_health node b m), w') ∧
          (b = true → node ∈ redis_clients m).
Proof.
  unfold ping_node. case_decide as Hclient.
  - destruct (client_ping node w) as [[[]|e] w']; [by exists true, w'|by exists false, w'].
  - by exists false, w.
Qed.

Lemma set_node_health_ok m node b :
  (b = true → node ∈ redis_clients m) → manager_ok m → manager_ok (set_node_health node b m).
Proof.
  intros Hb (Hwf & Hring & Hflag & Hclient). unfold manager_ok, set_node_health.
  cbn [consistent_hash redis_nodes node_health redis_clients].
  split; [done|]. split; [done|]. split.
  - intros n Hn. destruct (decide (n = node)) as [->|Hne].
    + rewrite lookup_insert_eq. by eexists.
    + rewrite lookup_insert_ne by done. by apply Hflag.
  - intros n. destruct (decide (n = node)) as [->|Hne].
    + rewrite lookup_insert_eq. intros [= ->]. by apply Hb.
    + rewrite lookup_insert_ne by done. apply Hclient.
Qed.

Lemma ping_nodes_ok m ns w :
  ∃ m' w',
    ping_nodes m ns w = (Ok m', w') ∧
    consistent_hash m' = consistent_hash m ∧
    redis_nodes m' = redis_nodes m ∧
    redis_clients m' = redis_clients m ∧
    (manager_ok m → manager_ok m') ∧
    (∀ node, node ∉ ns → node_health m' !! node = node_health m !! node) ∧
    (∀ node, node ∈ ns → node ∉ redis_clients m → node_health m' !! node = Some false).
Proof.
  revert m w. induction ns as [|n ns IH]; intros m w; cbn [ping_nodes].
  - exists m, w. do 5 (split; [done|]). split; [done|]. by intros node ?%elem_of_nil.
  - unfold bind. destruct (ping_node_ok m n w) as (b & w1 & -> & Hb).
    destruct (IH (set_node_health n b m) w1)
      as (m' & w' & -> & Hring & Hnodes & Hclients & Hok & Hrest & Hdown).
    exists m', w'. split; [done|]. split; [done|]. split; [done|]. split; [done|].
    split; [|split].
    + intros Hm. by apply Hok, set_node_health_ok.
    + intros node [Hne Hnin]%not_elem_of_cons. rewrite Hrest by done.
      cbn [node_health set_node_health]. by rewrite lookup_insert_ne.
    + intros node Hin Hnc. destruct (decide (node ∈ ns)) as [Hns|Hns].
      * by apply Hdown.
      * apply elem_of_cons in Hin as [->|?]; [|done].
        rewrite Hrest by done. cbn [node_health set_node_health].
        rewrite lookup_insert_eq. destruct b; [|done]. by destruct Hnc; apply Hb.
Qed.

(** X9.  The constructor establishes [manager_ok]; the health flag of each
    configured shard tells whether its client was built. *)
Theorem RedisManager_init_flags_clients fuel connects m :
  RedisManager_init _get_hash settings fuel connects = Some m →
  manager_ok m ∧
  redis_nodes m = REDIS_NODES settings ∧
  (∀ node, node ∈ REDIS_NODES settings →
     node_health m !! node = Some (connects node) ∧
     (node ∈ redis_clients m ↔ connects node = true)).
Proof.
  intros Hinit.
  destruct (RedisManager_init_ok fuel connects m Hinit) as (Hok & Hnodes & Hflags).
  split; [exact Hok|]. split; [exact Hnodes|exact Hflags].
Qed.

(** X10.  On a manager that the constructor has set up, a round of the health
    check never raises, touches neither the ring nor the clients, keeps
    [manager_ok], and leaves a configured shard that has no client flagged
    unhealthy: such a shard never comes back. *)
Theorem health_check_round_keeps_manager_ok m w :
  manager_ok m →
  ∃ m' w',
    _health_check_round m w = (Ok m', w') ∧
    consistent_hash m' = consistent_hash m ∧
    redis_nodes m' = redis_nodes m ∧
    redis_clients m' = redis_clients m ∧
    manager_ok m' ∧
    (∀ node, node ∈ redis_nodes m → node ∉ redis_clients m →
       node_health m' !! node = Some false).
Proof.
  intros Hm. unfold _health_check_round.
  destruct (ping_nodes_ok m (redis_nodes m) w)
    as (m' & w' & Hrun & Hring & Hnodes & Hclients & Hok & _ & Hdown).
  exists m', w'. do 4 (split; [done|]). split; [by apply Hok|done].
Qed.

Lemma fallback_outcome m n node :
  manager_ok m →
  match fallback _get_hash m n node with
  | Ok node' => node' ∈ redis_nodes m ∧ node_health m !! node' = Some true
  | Raise e => e = Exception "Hash ring is empty"
               ∨ e = Exception "No healthy Redis nodes available"
  end.
Proof.
  intros (Hwf & Hring & Hflag & Hclient). revert node.
  induction n as [|n IH]; intros node; cbn [fallback]; [by right|].
  destruct (decide (hash_ring (consistent_hash m) = ∅)) as [Hempty|Hne].
  - unfold get_node. rewrite decide_True by done. by left.
  - destruct (get_node_route _get_hash _ ("fallback_" +:+ node) Hwf Hne)
      as (h & node' & _ & Hh & ->). cbn [rbind].
    unfold health_of. destruct (Hflag node' (Hring _ _ Hh)) as [b Hb]. rewrite Hb.
    cbn [rbind]. destruct b; [|apply IH]. split; [by eapply Hring|done].
Qed.

Lemma get_connection_ok m key :
  manager_ok m →
  match get_connection _get_hash m key with
  | Ok node => node ∈ redis_nodes m ∧ node_health m !! node = Some true ∧
               node ∈ redis_clients m
  | Raise e => e = Exception "Hash ring is empty"
               ∨ e = Exception "No healthy Redis nodes available"
  end.
Proof.
  intros Hok. pose proof Hok as (Hwf & Hring & Hflag & Hclient). unfold get_connection.
  destruct (decide (hash_ring (consistent_hash m) = ∅)) as [Hempty|Hne].
  { unfold get_node. rewrite decide_True by done. by left. }
  destruct (get_node_route _get_hash _ key Hwf Hne) as (h & node & _ & Hh & ->).
  cbn [rbind]. unfold health_of.
  destruct (Hflag node (Hring _ _ Hh)) as [b Hb]. rewrite Hb. cbn [rbind].
  destruct b.
  - cbn [rbind]. rewrite decide_True by (by apply Hclient).
    split; [by eapply Hring|]. split; [done|by apply Hclient].
  - pose proof (fallback_outcome m (length (redis_nodes m)) node Hok) as Hfb.
    destruct (fallback _ _ _ _) as [node'|e]; cbn [rbind]; [|done].
    destruct Hfb as [Hin Hup]. rewrite decide_True by (by apply Hclient).
    split; [done|]. split; [done|by apply Hclient].
Qed.

(** X11.  However the health flags stand, on a manager that the constructor and
    the health check have left [get_connection] returns a configured shard
    that is flagged healthy and has a client, or raises one of its two
    exceptions, "Hash ring is empty" or "No healthy Redis nodes
    available": it never fails on a lookup in its own dicts. *)
Theorem get_connection_outcome m key :
  manager_ok m →
  match get_connection _get_hash m key with
  | Ok node => node ∈ redis_nodes m ∧ node_health m !! node = Some true ∧
               node ∈ redis_clients m
  | Raise e => e = Exception "Hash ring is empty"
               ∨ e = Exception "No healthy Redis nodes available"
  end.
Proof. intros Hok. exact (get_connection_ok m key Hok). Qed.

(** X12.  A key that cannot be routed fails at once: on a manager that the
    constructor has set up, when [get_connection] raises, [increment],
    [get] and [reset] raise the same exception without a retry and without
    a call to a shard, the exception not being a Redis error. *)
Theorem routing_failure_is_not_retried m key amount e w :
  manager_ok m →
  (0 < REDIS_RETRY_ATTEMPTS settings)%nat →
  get_connection _get_hash m key = Raise e →
  increment _get_hash settings m key amount w = (Raise e, w) ∧
  get _get_hash settings m key w = (Raise e, w) ∧
  reset _get_hash m key w = (Raise e, w).
Proof.
  intros Hok Hattempts Hconn.
  assert (is_RedisError e = false) as He.
  { pose proof (get_connection_ok m key Hok) as Hout. rewrite Hconn in Hout.
    by destruct Hout as [-> | ->]. }
  split; [by apply increment_routing_failure|]. split; [by apply get_routing_failure|].
  unfold reset, try_except_redis, of_result, bind. by rewrite Hconn, He.
Qed.

End ManagerInvariant.

(** ** The shard manager: retries, and calls one after the other *)

Section ManagerRuns.

Variable _get_hash : string → Z.
Variable settings : Settings.

Implicit Types (m : RedisManager) (st : gmap string (gmap string Z)) (fs : list bool).

Local Abbreviation attempts := (REDIS_RETRY_ATTEMPTS settings).

Lemma last_attempt_false a k :
  (a + S (S k) = attempts)%nat → last_attempt settings a = false.
Proof. intros Hak. unfold last_attempt. apply bool_decide_eq_false. lia. Qed.

Lemma last_attempt_true a :
  (a + 1 = attempts)%nat → last_attempt settings a = true.
Proof. intros Hak. unfold last_attempt. apply bool_decide_eq_true. lia. Qed.

Lemma increment_loop_failed m key amount node a rest fs st t :
  get_connection _get_hash m key = Ok node →
  increment_loop _get_hash settings m key amount (a :: rest) (mkWorld st (true :: fs) t)
  = if last_attempt settings a
    then (Raise (Exception "Failed to increment counter: Connection refused"),
          mkWorld st fs t)
    else increment_loop _get_hash settings m key amount rest (mkWorld st fs t).
Proof.
  intros Hconn. cbn [increment_loop].
  unfold try_except_redis, of_result, bind. rewrite Hconn.
  unfold client_incr, MemWorld_World, faulty. cbn [faults stores time is_RedisError].
  by destruct (last_attempt settings a).
Qed.

Lemma increment_loop_went_through m key amount node a rest fs st t :
  get_connection _get_hash m key = Ok node → hd false fs = false →
  increment_loop _get_hash settings m key amount (a :: rest) (mkWorld st fs t)
  = (Ok (Some (default 0 (held node key st) + amount)),
     mkWorld (incremented node key amount st) (tl fs) t).
Proof.
  intros Hconn Hfs. cbn [increment_loop].
  unfold try_except_redis, of_result, bind. rewrite Hconn.
  by destruct fs as [|[] fs].
Qed.

Lemma get_loop_failed m key node a rest fs st t :
  get_connection _get_hash m key = Ok node →
  get_loop _get_hash settings m key (a :: rest) (mkWorld st (true :: fs) t)
  = if last_attempt settings a
    then (Raise (Exception "Failed to get counter value: Connection refused"),
          mkWorld st fs t)
    else get_loop _get_hash settings m key rest (mkWorld st fs t).
Proof.
  intros Hconn. cbn [get_loop].
  unfold try_except_redis, of_result, bind. rewrite Hconn.
  unfold client_get, MemWorld_World, faulty. cbn [faults stores time is_RedisError].
  by destruct (last_attempt settings a).
Qed.

Lemma get_loop_went_through m key node a rest fs st t :
  get_connection _get_hash m key = Ok node → hd false fs = false →
  get_loop _get_hash settings m key (a :: rest) (mkWorld st fs t)
  = (Ok (Some (default 0 (held node key st), node)), mkWorld st (tl fs) t).
Proof.
  intros Hconn Hfs. cbn [get_loop].
  unfold try_except_redis, of_result, bind. rewrite Hconn.
  unfold client_get, MemWorld_World, faulty, store_of, ret, held.
  destruct fs as [|[] fs]; [|done|]; simpl;
    by destruct (default ∅ (st !! node) !! key).
Qed.

Lemma reset_went_through m key node fs st t :
  get_connection _get_hash m key = Ok node → hd false fs = false →
  reset _get_hash m key (mkWorld st fs t)
  = (Ok (bool_decide (is_Some (held node key st))), mkWorld (deleted node key st) (tl fs) t).
Proof.
  intros Hconn Hfs. unfold reset, try_except_redis, of_result, bind, held. rewrite Hconn.
  unfold client_delete, MemWorld_World, faulty, store_of, ret.
  destruct fs as [|[] fs]; [|done|]; simpl;
    by destruct (default ∅ (st !! node) !! key).
Qed.

Lemma increment_loop_retries m key amount node j a k fs st t :
  get_connection _get_hash m key = Ok node →
  (a + k = attempts)%nat → (j < k)%nat →
  increment_loop _get_hash settings m key amount (seq a k)
    (mkWorld st (replicate j true ++ false :: fs) t)
  = (Ok (Some (default 0 (held node key st) + amount)),
     mkWorld (incremented node key amount st) fs t).
Proof.
  intros Hconn. revert a k. induction j as [|j IH]; intros a k Hak Hjk.
  - destruct k as [|k]; [lia|]. by apply increment_loop_went_through.
  - destruct k as [|[|k]]; [lia..|].
    change (seq a (S (S k))) with (a :: seq (S a) (S k)).
    change (replicate (S j) true ++ false :: fs) with (true :: replicate j true ++ false :: fs).
    rewrite (increment_loop_failed _ _ _ node) by done.
    rewrite (last_attempt_false a k) by done.
    apply (IH (S a) (S k)); lia.
Qed.

Lemma increment_loop_gives_up m key amount node a k fs st t :
  get_connection _get_hash m key = Ok node →
  (a + k = attempts)%nat → (0 < k)%nat →
  increment_loop _get_hash settings m key amount (seq a k)
    (mkWorld st (replicate k true ++ fs) t)
  = (Raise (Exception "Failed to increment counter: Connection refused"), mkWorld st fs t).
Proof.
  intros Hconn. revert a. induction k as [|k IH]; intros a Hak Hk; [lia|].
  change (seq a (S k)) with (a :: seq (S a) k).
  change (replicate (S k) true ++ fs) with (true :: replicate k true ++ fs).
  rewrite (increment_loop_failed _ _ _ node) by done.
  destruct k as [|k].
  - by rewrite (last_attempt_true a) by lia.
  - rewrite (last_attempt_false a k) by done. apply (IH (S a)); lia.
Qed.

Lemma get_loop_retries m key node j a k fs st t :
  get_connection _get_hash m key = Ok node →
  (a + k = attempts)%nat → (j < k)%nat →
  get_loop _get_hash settings m key (seq a k)
    (mkWorld st (replicate j true ++ false :: fs) t)
  = (Ok (Some (default 0 (held node key st), node)), mkWorld st fs t).
Proof.
  intros Hconn. revert a k. induction j as [|j IH]; intros a k Hak Hjk.
  - destruct k as [|k]; [lia|]. by apply get_loop_went_through.
  - destruct k as [|[|k]]; [lia..|].
    change (seq a (S (S k))) with (a :: seq (S a) (S k)).
    change (replicate (S j) true ++ false :: fs) with (true :: replicate j true ++ false :: fs).
    rewrite (get_loop_failed _ _ node) by done.
    rewrite (last_attempt_false a k) by done.
    apply (IH (S a) (S k)); lia.
Qed.

Lemma get_loop_gives_up m key node a k fs st t :
  get_connection _get_hash m key = Ok node →
  (a + k = attempts)%nat → (0 < k)%nat →
  get_loop _get_hash settings m key (seq a k) (mkWorld st (replicate k true ++ fs) t)
  = (Raise (Exception "Failed to get counter value: Connection refused"), mkWorld st fs t).
Proof.
  intros Hconn. revert a. induction k as [|k IH]; intros a Hak Hk; [lia|].
  change (seq a (S k)) with (a :: seq (S a) k).
  change (replicate (S k) true ++ fs) with (true :: replicate k true ++ fs).
  rewrite (get_loop_failed _ _ node) by done.
  destruct k as [|k].
  - by rewrite (last_attempt_true a) by lia.
  - rewrite (last_attempt_false a k) by done. apply (IH (S a)); lia.
Qed.

(** X13.  The retry loop of [increment], on shards whose failed calls leave the
    store alone, for a counter, an amount and a sum within the signed
    64-bit range of a Redis counter.  When fewer than
    [REDIS_RETRY_ATTEMPTS] calls in a row fail and the next one goes
    through, the amount is added once and the new value returned; when
    [REDIS_RETRY_ATTEMPTS] calls in a row fail, [increment] raises
    "Failed to increment counter: ..." after exactly that many calls and
    the store is as it was. *)
Theorem increment_retry_loop m key amount node st t fs :
  get_connection _get_hash m key = Ok node →
  (∀ j, (j < attempts)%nat →
     int64 (default 0 (held node key st)) → int64 amount →
     int64 (default 0 (held node key st) + amount) →
     increment _get_hash settings m key amount
       (mkWorld st (replicate j true ++ false :: fs) t)
     = (Ok (Some (default 0 (held node key st) + amount)),
        mkWorld (incremented node key amount st) fs t)) ∧
  ((0 < attempts)%nat →
     increment _get_hash settings m key amount
       (mkWorld st (replicate attempts true ++ fs) t)
     = (Raise (Exception "Failed to increment counter: Connection refused"),
        mkWorld st fs t)).
Proof.
  intros Hconn. unfold increment. split.
  - intros j Hj _ _ _. by apply (increment_loop_retries m key amount node j 0 attempts).
  - intros Hpos. by apply (increment_loop_gives_up m key amount node 0 attempts).
Qed.

(** X14.  The retry loop of [get]: after fewer than [REDIS_RETRY_ATTEMPTS] failed
    calls in a row the next answer is returned, 0 for a missing key, with
    the shard's id; after [REDIS_RETRY_ATTEMPTS] failed calls in a row
    [get] raises "Failed to get counter value: ...".  The stores are not
    written. *)
Theorem get_retry_loop m key node st t fs :
  get_connection _get_hash m key = Ok node →
  (∀ j, (j < attempts)%nat →
     get _get_hash settings m key (mkWorld st (replicate j true ++ false :: fs) t)
     = (Ok (Some (default 0 (held node key st), node)), mkWorld st fs t)) ∧
  ((0 < attempts)%nat →
     get _get_hash settings m key (mkWorld st (replicate attempts true ++ fs) t)
     = (Raise (Exception "Failed to get counter value: Connection refused"),
        mkWorld st fs t)).
Proof.
  intros Hconn. unfold get. split.
  - intros j Hj. by apply (get_loop_retries m key node j 0 attempts).
  - intros Hpos. by apply (get_loop_gives_up m key node 0 attempts).
Qed.

Lemma held_incremented node key amount st :
  held node key (incremented node key amount st)
  = Some (default 0 (held node key st) + amount).
Proof.
  unfold held, incremented. rewrite lookup_insert_eq. cbn [default from_option id].
  by rewrite lookup_insert_eq.
Qed.

Lemma held_deleted node key st : held node key (deleted node key st) = None.
Proof.
  unfold held, deleted. rewrite lookup_insert_eq. cbn [default from_option id].
  by rewrite lookup_delete_eq.
Qed.

(** X15.  Without failures, and for a counter, an amount and a sum within the
    signed 64-bit range of a Redis counter, a [get] after an [increment]
    of the same key returns what the shard held before plus the amount, 0
    counting for a missing key, and the shard the key is routed to. *)
Theorem increment_then_get m key amount node st t :
  (0 < attempts)%nat →
  get_connection _get_hash m key = Ok node →
  int64 (default 0 (held node key st)) → int64 amount →
  int64 (default 0 (held node key st) + amount) →
  (increment _get_hash settings m key amount;; get _get_hash settings m key)%py
    (mkWorld st [] t)
  = (Ok (Some (default 0 (held node key st) + amount, node)),
     mkWorld (incremented node key amount st) [] t).
Proof.
  intros Hattempts Hconn _ _ _. unfold bind, increment, get.
  destruct attempts as [|k]; [lia|]. cbn [seq].
  rewrite (increment_loop_went_through _ _ _ node) by done.
  rewrite (get_loop_went_through _ _ node) by done.
  by rewrite held_incremented.
Qed.

(** X16.  Without failures, [reset] tells whether the shard held the key, and a
    [get] after it returns 0. *)
Theorem reset_then_get m key node st t :
  (0 < attempts)%nat →
  get_connection _get_hash m key = Ok node →
  (deleted_ ← reset _get_hash m key;
   got ← get _get_hash settings m key;
   ret (deleted_, got))%py (mkWorld st [] t)
  = (Ok (bool_decide (is_Some (held node key st)), Some (0, node)),
     mkWorld (deleted node key st) [] t).
Proof.
  intros Hattempts Hconn. unfold bind, get.
  rewrite (reset_went_through _ _ node) by done.
  destruct attempts as [|k]; [lia|]. cbn [seq].
  rewrite (get_loop_went_through _ _ node) by done.
  by rewrite held_deleted.
Qed.

Lemma fallback_healthy m n node node' :
  fallback _get_hash m n node = Ok node' → node_health m !! node' = Some true.
Proof.
  revert node. induction n as [|n IH]; intros node; cbn [fallback]; [done|].
  destruct (get_node _ _ _) as [n1|e]; cbn [rbind]; [|done].
  unfold health_of. destruct (node_health m !! n1) as [[]|] eqn:Hn1; cbn [rbind]; [|apply IH|done].
  by intros [= <-].
Qed.

Lemma get_connection_healthy m key node :
  get_connection _get_hash m key = Ok node →
  node_health m !! node = Some true ∧ node ∈ redis_clients m.
Proof.
  unfold get_connection.
  destruct (get_node _ _ _) as [n1|e]; cbn [rbind]; [|done].
  unfold health_of. destruct (node_health m !! n1) as [[]|] eqn:Hn1; cbn [rbind]; [| |done].
  - case_decide; [|done]. by intros [= <-].
  - destruct (fallback _ _ _ _) as [n2|e] eqn:Hfb; cbn [rbind]; [|done].
    case_decide; [|done]. intros [= <-]. split; [|done]. by eapply fallback_healthy.
Qed.

(** X17.  A shard that [get_connection] returns is flagged healthy and has a
    client, so that [get_status] counts at least one healthy shard: when it
    reports [healthy_nodes] 0, no key can be routed. *)
Theorem get_connection_needs_healthy_node m key node :
  get_connection _get_hash m key = Ok node →
  node_health m !! node = Some true ∧ node ∈ redis_clients m ∧
  (0 < ManagerStatus.healthy_nodes (get_status m))%nat.
Proof.
  intros [Hup Hclient]%get_connection_healthy. split; [done|]. split; [done|].
  cbn [get_status ManagerStatus.healthy_nodes]. unfold count_healthy.
  apply elem_of_map_to_list in Hup.
  assert ((node, true) ∈ filter (λ kv : string * bool, kv.2 = true)
                            (map_to_list (node_health m))) as Hin
    by (by apply list_elem_of_filter).
  destruct (filter _ _) as [|kv l]; [by apply elem_of_nil in Hin|simpl; lia].
Qed.

End ManagerRuns.

(** ** The write buffer: enqueue, flush and restore *)

Section BufferFacts.

Variable _get_hash : string → Z.
Variable settings : Settings.
Context {W : Type} `{World W}.

Local Abbreviation St := (VisitCounterService * W)%type.

Implicit Types (s : VisitCounterService) (w : W) (K page_id : string).

Lemma increment_visit_run page_id s w :
  increment_visit page_id (s, w) = (Ok tt, (enqueued page_id s, w)).
Proof.
  unfold increment_visit, try_except, buffer_setdefault0, buffer_iadd,
    on_service, service, enqueued, buffered, PyDict.contains, raise, bind.
  destruct s as [rm c wb t mt]; simpl.
  destruct (PyDict.get page_id wb) as [v|] eqn:Hget; simpl.
  - by rewrite Hget.
  - rewrite PyDict_get_set_eq. simpl. by rewrite PyDict_set_set.
Qed.

Lemma buffered_enqueued_eq K s : buffered K (enqueued K s) = buffered K s + 1.
Proof. unfold buffered at 1, enqueued. simpl. by rewrite PyDict_get_set_eq. Qed.

Lemma buffered_enqueued_ne K page_id s :
  page_id ≠ K → buffered K (enqueued page_id s) = buffered K s.
Proof.
  intros Hne. unfold buffered, enqueued. simpl. by rewrite PyDict_get_set_ne.
Qed.

Lemma interleave_run pages s w :
  interleave pages (s, w) = (Ok tt, (arrive pages s, w)).
Proof.
  revert s. induction pages as [|p pages IH]; intros s; simpl; [done|].
  unfold bind. by rewrite increment_visit_run, IH.
Qed.

Lemma occurrences_cons K p pages :
  occurrences K (p :: pages) = (if decide (p = K) then 1 else 0) + occurrences K pages.
Proof.
  unfold occurrences. rewrite filter_cons. case_decide; simpl; lia.
Qed.

Lemma buffered_arrive K pages s :
  buffered K (arrive pages s) = buffered K s + occurrences K pages.
Proof.
  revert s. induction pages as [|p pages IH]; intros s; simpl.
  - unfold occurrences. simpl. lia.
  - rewrite IH, occurrences_cons. case_decide as Hp.
    + subst p. rewrite buffered_enqueued_eq. lia.
    + rewrite buffered_enqueued_ne by done. lia.
Qed.

Lemma redis_manager_arrive pages s : redis_manager (arrive pages s) = redis_manager s.
Proof. revert s. induction pages as [|p pages IH]; intros s; simpl; [done|]. by rewrite IH. Qed.

Lemma restore_run page_id count s w :
  (buffer_setdefault0 page_id;; buffer_iadd page_id count)%py (s, w)
  = (Ok tt, (restored_to page_id count s, w)).
Proof.
  unfold buffer_setdefault0, buffer_iadd, on_service, service,
    restored_to, buffered, PyDict.contains, set_write_buffer, raise, bind.
  destruct s as [rm c wb t mt]; simpl.
  destruct (PyDict.get page_id wb) as [v|] eqn:Hget; simpl.
  - by rewrite Hget.
  - rewrite PyDict_get_set_eq. simpl. by rewrite PyDict_set_set.
Qed.

Lemma buffered_restored_eq K count s :
  buffered K (restored_to K count s) = buffered K s + count.
Proof. unfold buffered at 1, restored_to. simpl. by rewrite PyDict_get_set_eq. Qed.

Lemma buffered_restored_ne K page_id count s :
  page_id ≠ K → buffered K (restored_to page_id count s) = buffered K s.
Proof.
  intros Hne. unfold buffered, restored_to. simpl. by rewrite PyDict_get_set_ne.
Qed.

(** One entry of the snapshot, with a positive count: the shard increment,
    the increments that arrived while it was awaited, and the restore when
    it raised. *)
Lemma flush_items_cons page_id count rest arrivals s w :
  count > 0 →
  flush_items _get_hash settings ((page_id, count) :: rest) arrivals (s, w)
  = let '(r, w') := increment _get_hash settings (redis_manager s)
                              (cache_key_of page_id) count w in
    let s1 := arrive (hd [] arrivals) s in
    let s2 := match r with Ok _ => s1 | Raise _ => restored_to page_id count s1 end in
    flush_items _get_hash settings rest (tl arrivals) (s2, w').
Proof.
  intros Hpos. cbn [flush_items]. rewrite decide_True by done.
  unfold bind at 1. unfold try_except.
  unfold bind at 1. unfold service at 1.
  unfold bind at 1. unfold attempt, on_world.
  destruct (increment _ _ _ _ _ w) as [r w'].
  unfold bind at 1. rewrite interleave_run.
  unfold bind at 1. unfold of_result.
  destruct r as [v|e]; [done|].
  by rewrite restore_run.
Qed.

Lemma flush_items_skip page_id count rest arrivals s w :
  ¬ count > 0 →
  flush_items _get_hash settings ((page_id, count) :: rest) arrivals (s, w)
  = flush_items _get_hash settings rest (tl arrivals) (s, w).
Proof. intros Hnpos. cbn [flush_items]. by rewrite decide_False by done. Qed.

(** The buffer after the loop of a flush: for every key [K], what the live
    buffer held before, plus what accumulated for [K] while the loop ran,
    plus the delta of every snapshot entry of [K] whose shard increment
    raised.  The loop itself never raises. *)
Lemma flush_items_buffered items arrivals s w K :
  ∃ s' w',
    flush_items _get_hash settings items arrivals (s, w) = (Ok tt, (s', w')) ∧
    redis_manager s' = redis_manager s ∧
    buffered K s' = buffered K s + accumulated K items arrivals
                    + put_back _get_hash settings K (redis_manager s) items w.
Proof.
  revert arrivals s w. induction items as [|[page_id count] rest IH]; intros arrivals s w.
  - exists s, w. simpl. split; [done|]. split; [done|]. lia.
  - destruct (decide (count > 0)) as [Hpos|Hnpos].
    + rewrite flush_items_cons by done. cbn [put_back accumulated].
      rewrite !decide_True by done.
      destruct (increment _ _ _ _ _ w) as [[v|e] w']; cbv zeta.
      * destruct (IH (tl arrivals) (arrive (hd [] arrivals) s) w') as (s' & w'' & Hrun & Hrm & Hbuf).
        exists s', w''. split; [done|].
        rewrite redis_manager_arrive in Hrm, Hbuf. split; [done|].
        rewrite Hbuf, buffered_arrive. lia.
      * destruct (IH (tl arrivals) (restored_to page_id count (arrive (hd [] arrivals) s)) w')
          as (s' & w'' & Hrun & Hrm & Hbuf).
        exists s', w''. split; [done|].
        assert (redis_manager (restored_to page_id count (arrive (hd [] arrivals) s))
                = redis_manager s) as Hrm' by apply redis_manager_arrive.
        rewrite Hrm' in Hrm, Hbuf. split; [done|]. rewrite Hbuf.
        case_decide as Hp.
        -- subst page_id. rewrite buffered_restored_eq, buffered_arrive. lia.
        -- rewrite buffered_restored_ne, buffered_arrive by done. lia.
    + rewrite flush_items_skip by done. cbn [put_back accumulated].
      rewrite !decide_False by done.
      destruct (IH (tl arrivals) s w) as (s' & w'' & Hrun & Hrm & Hbuf).
      exists s', w''. split; [done|]. split; [done|]. rewrite Hbuf. lia.
Qed.

End BufferFacts.

(** ** The counter service: reads and resets *)

Section ServiceFacts.

Variable _get_hash : string → Z.
Variable settings : Settings.
Context {W : Type} `{World W}.

Local Abbreviation St := (VisitCounterService * W)%type.

Implicit Types (s : VisitCounterService) (w : W) (K page_id : string).

(** A flush that nothing interleaves with leaves the cache, the metrics and
    the manager alone. *)
Lemma flush_items_quiet_frame items s w :
  ∃ s' w',
    flush_items _get_hash settings items [] (s, w) = (Ok tt, (s', w')) ∧
    redis_manager s' = redis_manager s ∧ cache s' = cache s ∧ metrics s' = metrics s.
Proof.
  revert s w. induction items as [|[page_id count] rest IH]; intros s w.
  - by exists s, w.
  - destruct (decide (count > 0)) as [Hpos|Hnpos].
    + rewrite flush_items_cons by done. simpl.
      destruct (increment _ _ _ _ _ w) as [[v|e] w'].
      * apply IH.
      * destruct (IH (restored_to page_id count s) w') as (s' & w'' & Hrun & ? & ? & ?).
        by exists s', w''.
    + rewrite flush_items_skip by done. apply IH.
Qed.

(** The flush as a whole: the snapshot is the buffer, the live buffer
    starts empty. *)
Lemma _flush_write_buffer_run arrivals s w K :
  ∃ s' w',
    _flush_write_buffer _get_hash settings arrivals (s, w) = (Ok tt, (s', w')) ∧
    redis_manager s' = redis_manager s ∧
    buffered K s' = accumulated K (write_buffer s) arrivals
                    + put_back _get_hash settings K (redis_manager s) (write_buffer s) w.
Proof.
  unfold _flush_write_buffer. unfold bind at 1. unfold service at 1.
  destruct (write_buffer s) as [|item items] eqn:Hwb.
  - exists s, w. split; [done|]. split; [done|].
    unfold buffered. rewrite Hwb. simpl. lia.
  - unfold bind at 1. unfold on_service at 1. unfold bind at 1.
    destruct (flush_items_buffered _get_hash settings (item :: items) arrivals
                (set_write_buffer [] s) w K) as (s' & w' & Hrun & Hrm & Hbuf).
    rewrite Hrun. unfold bind, now, on_service.
    exists (set_last_write_time (clock w') s'), w'. split; [done|]. split; [done|].
    simpl in Hbuf.
    unfold buffered at 1. simpl. fold (buffered K s'). rewrite Hbuf.
    unfold buffered. simpl. lia.
Qed.

Lemma _flush_write_buffer_quiet_frame s w :
  ∃ s' w',
    _flush_write_buffer _get_hash settings [] (s, w) = (Ok tt, (s', w')) ∧
    redis_manager s' = redis_manager s ∧ cache s' = cache s ∧ metrics s' = metrics s.
Proof.
  unfold _flush_write_buffer. unfold bind at 1. unfold service at 1.
  destruct (write_buffer s) as [|item items] eqn:Hwb.
  - by exists s, w.
  - unfold bind at 1. unfold on_service at 1. unfold bind at 1.
    destruct (flush_items_quiet_frame (item :: items) (set_write_buffer [] s) w)
      as (s' & w' & Hrun & ? & ? & ?).
    rewrite Hrun. unfold bind, now, on_service.
    by exists (set_last_write_time (clock w') s'), w'.
Qed.

(** The metrics object has no [cache_hits] and no [cache_misses]. *)
Lemma metrics_bump_cache_hits s w :
  metrics_bump "cache_hits" (s, w)
  = (Raise (AttributeError "'CounterMetrics' object has no attribute 'cache_hits'"), (s, w)).
Proof. reflexivity. Qed.

Lemma metrics_bump_cache_misses s w :
  metrics_bump "cache_misses" (s, w)
  = (Raise (AttributeError "'CounterMetrics' object has no attribute 'cache_misses'"), (s, w)).
Proof. reflexivity. Qed.

(** So the [try] block of [get_visit_count] raises on its first counter
    update, before any flush, shard read or cache insert, whether the
    cache holds a fresh entry or not. *)
Lemma get_visit_count_try_raises page_id il s w :
  ∃ msg, get_visit_count_try _get_hash settings page_id il (s, w)
         = (Raise (AttributeError msg), (s, w)).
Proof.
  unfold get_visit_count_try. unfold bind at 1. unfold service at 1.
  unfold bind at 1. unfold now at 1.
  destruct (cache s !! cache_key_of page_id) as [entry|].
  - destruct (total_seconds_lt _ _).
    + unfold bind. rewrite metrics_bump_cache_hits. eauto.
    + unfold bind at 1. rewrite metrics_bump_cache_misses. eauto.
  - unfold bind at 1. rewrite metrics_bump_cache_misses. eauto.
Qed.

(** And [get_visit_count] always answers from the write buffer, leaving the
    service and the world as they were. *)
Lemma get_visit_count_degraded page_id il s w :
  get_visit_count _get_hash settings page_id il (s, w)
  = (Ok (buffered page_id s, "write_buffer"), (s, w)).
Proof.
  unfold get_visit_count, try_except.
  destruct (get_visit_count_try_raises page_id il s w) as [msg ->].
  reflexivity.
Qed.

(** C9. [get_visit_count] never raises: it returns a value and a source
    tag, and whenever its [try] block raises, whatever the exception and
    whatever state the block had reached, the value is the key's delta in
    the write buffer of that state (0 when it has none) and the tag is
    "write_buffer". *)
Theorem get_visit_count_total page_id il s w :
  ∃ v src st',
    get_visit_count _get_hash settings page_id il (s, w) = (Ok (v, src), st') ∧
    ∀ e st1,
      get_visit_count_try _get_hash settings page_id il (s, w) = (Raise e, st1) →
      st' = st1 ∧ v = buffered page_id st1.1 ∧ src = "write_buffer".
Proof.
  unfold get_visit_count, try_except.
  destruct (get_visit_count_try _ _ _ _ _) as [[[v src]|e] [s1 w1]].
  - exists v, src, (s1, w1). split; [done|]. intros e st1 [=].
  - exists (buffered page_id s1), "write_buffer", (s1, w1). split; [done|].
    by intros e' st1 [= -> <-].
Qed.

(** [reset_counter]: the local entries go first, the manager's outcome is
    passed on as it is. *)
Lemma reset_counter_run page_id s w :
  reset_counter _get_hash page_id (s, w)
  = let s' := set_write_buffer (PyDict.pop page_id (write_buffer s))
                (set_cache (delete (cache_key_of page_id) (cache s)) s) in
    let '(r, w') := reset _get_hash (redis_manager s) (cache_key_of page_id) w in
    (r, (s', w')).
Proof.
  unfold reset_counter, try_except, on_service, service, on_world, raise, bind. simpl.
  by destruct (reset _ _ _ w) as [[b|e] w'].
Qed.

Lemma reset_delete_fails m key node w w' msg :
  get_connection _get_hash m key = Ok node →
  client_delete node key w = (Raise (RedisError msg), w') →
  reset _get_hash m key w = (Raise (Exception ("Failed to reset counter: " +:+ msg)), w').
Proof.
  intros Hconn Hdel. unfold reset, try_except_redis, of_result, bind.
  by rewrite Hconn, Hdel.
Qed.

(** C10. [reset_counter] drops the key's cache entry and its pending delta
    before it contacts the shard: when the shard's delete then fails, the
    error reaches the caller and the cache entry and the pending delta stay
    removed. *)
Theorem reset_counter_not_atomic page_id node s w w' msg :
  get_connection _get_hash (redis_manager s) (cache_key_of page_id) = Ok node →
  client_delete node (cache_key_of page_id) w = (Raise (RedisError msg), w') →
  ∃ s',
    reset_counter _get_hash page_id (s, w)
    = (Raise (Exception ("Failed to reset counter: " +:+ msg)), (s', w')) ∧
    cache s' = delete (cache_key_of page_id) (cache s) ∧
    write_buffer s' = PyDict.pop page_id (write_buffer s) ∧
    cache s' !! cache_key_of page_id = None ∧
    buffered page_id s' = 0.
Proof.
  intros Hconn Hdel. rewrite reset_counter_run.
  rewrite (reset_delete_fails _ _ _ _ _ _ Hconn Hdel). cbv zeta.
  eexists. split; [done|]. simpl. split; [done|]. split; [done|].
  split; [apply lookup_delete_eq|].
  unfold buffered. simpl. by rewrite PyDict_get_pop_eq.
Qed.

(** The cache after the read-through of a [get] that nothing interleaves
    with: the entry of the key is stored, every other entry is kept. *)
Lemma read_through_cache page_id s w count src s' w' :
  read_through _get_hash settings page_id quiet (s, w) = (Ok (count, src), (s', w')) →
  cache s' = <[cache_key_of page_id := mkEntry count (clock w')]> (cache s).
Proof.
  unfold read_through. unfold bind at 1. cbn [during_flush during_get quiet].
  destruct (_flush_write_buffer_quiet_frame s w) as (s1 & w1 & -> & Hrm & Hcache & _).
  unfold bind at 1. unfold service at 1.
  unfold bind at 1. unfold attempt, on_world.
  destruct (get _ _ _ _ w1) as [r w2].
  unfold bind at 1. cbn [interleave]. unfold ret at 1.
  unfold bind at 1. unfold of_result at 1.
  destruct r as [[[c node]|]|e]; [|done..].
  unfold bind at 1. unfold service at 1.
  unfold bind at 1. unfold now at 1.
  unfold bind, on_service, ret. intros [= <- <- <- <-]. simpl. by rewrite Hcache.
Qed.

(** The cache of a running service is never filled: [get_visit_count] is
    the only writer and it does not reach its insert. *)
Lemma cache_arrive_empty pages s : cache s = ∅ → cache (arrive pages s) = ∅.
Proof.
  revert s. induction pages as [|p pages IH]; intros s Hc; simpl; [done|].
  apply IH. simpl. by rewrite Hc, delete_empty.
Qed.

Lemma flush_items_cache_empty items arrivals s w :
  cache s = ∅ → cache (flush_items _get_hash settings items arrivals (s, w)).2.1 = ∅.
Proof.
  revert arrivals s w. induction items as [|[page_id count] rest IH]; intros arrivals s w Hc.
  - done.
  - destruct (decide (count > 0)) as [Hpos|Hnpos].
    + rewrite flush_items_cons by done.
      destruct (increment _ _ _ _ _ w) as [[v|e] w']; cbv zeta; apply IH;
        by apply cache_arrive_empty.
    + rewrite flush_items_skip by done. by apply IH.
Qed.

Lemma service_step_cache_empty st st' :
  service_step _get_hash settings st st' → cache st.1 = ∅ → cache st'.1 = ∅.
Proof.
  intros Hstep Hc. destruct Hstep as [p [s w]|p il [s w]|p [s w]|arrivals [s w]|[s w]|s w];
    simpl in Hc.
  - rewrite increment_visit_run. simpl. by rewrite Hc, delete_empty.
  - by rewrite get_visit_count_degraded.
  - rewrite reset_counter_run. destruct (reset _ _ _ w) as [r w']. simpl.
    by rewrite Hc, delete_empty.
  - unfold _flush_write_buffer. unfold bind at 1. unfold service at 1.
    destruct (write_buffer s) as [|item items]; [done|].
    unfold bind at 1. unfold on_service at 1. unfold bind at 1.
    pose proof (flush_items_cache_empty (item :: items) arrivals (set_write_buffer [] s) w Hc)
      as Hflush.
    destruct (flush_items _ _ _ _ _) as [[[]|e] [s' w']]; [|done].
    unfold bind, now, on_service. done.
  - unfold _cleanup_cache, bind, now, on_service. simpl. by rewrite Hc, map_filter_empty.
  - destruct (_health_check_round _ _) as [[m|e] w']; done.
Qed.

Lemma cache_never_filled st st' :
  rtc (service_step _get_hash settings) st st' → cache st.1 = ∅ → cache st'.1 = ∅.
Proof. induction 1 as [|st st1 st2 Hstep _ IH]; eauto using service_step_cache_empty. Qed.

(** The insert that [get_visit_count] does not reach evicts nothing and
    does not consult the capacity: the read-through of a [get] that
    nothing interleaves with, run by itself, stores the entry of the key
    and keeps every other entry, so that the cache afterwards is one entry
    larger when the key was absent and as large as before when it was
    present, whatever [CACHE_CAPACITY] is. *)
Lemma read_through_insert_evicts_nothing page_id s w count src s' w' :
  read_through _get_hash settings page_id quiet (s, w) = (Ok (count, src), (s', w')) →
  cache s' !! cache_key_of page_id = Some (mkEntry count (clock w')) ∧
  (∀ key entry, key ≠ cache_key_of page_id →
     cache s !! key = Some entry → cache s' !! key = Some entry) ∧
  size (cache s') = (if cache s !! cache_key_of page_id is Some _ then size (cache s)
                     else S (size (cache s))).
Proof.
  intros Hrun. rewrite (read_through_cache _ _ _ _ _ _ _ Hrun).
  split; [apply lookup_insert_eq|]. split.
  - intros key entry Hne Hkey. by rewrite lookup_insert_ne.
  - destruct (cache s !! cache_key_of page_id) as [old|] eqn:Hold.
    + by rewrite map_size_insert_Some.
    + by rewrite map_size_insert_None.
Qed.

End ServiceFacts.

(** ** The counter service: what every step keeps *)

Section ServiceInvariants.

Variable _get_hash : string → Z.
Variable settings : Settings.
Context {W : Type} `{World W}.

Local Abbreviation St := (VisitCounterService * W)%type.

Implicit Types (s : VisitCounterService) (w : W) (K page_id : string) (d : PyDict.t Z).

Lemma elem_of_keys_set x k v d : x ∈ (PyDict.set k v d).*1 ↔ x = k ∨ x ∈ d.*1.
Proof.
  induction d as [|[k' v'] d IH]; csimpl.
  - rewrite list_elem_of_singleton, elem_of_nil. tauto.
  - case_decide as Hk; csimpl; rewrite !elem_of_cons.
    + subst k'. tauto.
    + rewrite IH. tauto.
Qed.

Lemma buffer_ok_set k v d : v > 0 → buffer_ok d → buffer_ok (PyDict.set k v d).
Proof.
  intros Hv [Hnd Hpos]. split.
  - induction d as [|[k' v'] d IH]; csimpl; [apply NoDup_singleton|].
    csimpl in Hnd. apply NoDup_cons in Hnd as [Hk' Hnd].
    apply Forall_cons in Hpos as [_ Hpos].
    case_decide as Hk; csimpl.
    + subst k'. by apply NoDup_cons.
    + apply NoDup_cons. split; [|by apply IH].
      rewrite elem_of_keys_set. intros [->|?]; done.
  - induction Hpos as [|[k' v'] d Hkv Hpos IH]; csimpl; [by apply Forall_singleton|].
    csimpl in Hnd. apply NoDup_cons in Hnd as [_ Hnd].
    case_decide; apply Forall_cons; auto.
Qed.

Lemma elem_of_keys_pop x k d : x ∈ (PyDict.pop k d).*1 → x ∈ d.*1.
Proof.
  induction d as [|[k' v'] d IH]; csimpl; [done|].
  case_decide; csimpl; rewrite ?elem_of_cons; [by right; apply IH|].
  intros [->|?]; [by left|right; by apply IH].
Qed.

Lemma buffer_ok_pop k d : buffer_ok d → buffer_ok (PyDict.pop k d).
Proof.
  intros [Hnd Hpos]. split.
  - induction d as [|[k' v'] d IH]; csimpl; [done|].
    csimpl in Hnd. apply NoDup_cons in Hnd as [Hk' Hnd].
    apply Forall_cons in Hpos as [_ Hpos].
    case_decide; csimpl; [by apply IH|].
    apply NoDup_cons. split; [|by apply IH]. by intros ?%elem_of_keys_pop.
  - clear Hnd. induction Hpos as [|[k' v'] d Hkv Hpos IH]; csimpl; [done|].
    case_decide; [done|by apply Forall_cons].
Qed.

Lemma buffered_positive K s v :
  buffer_ok (write_buffer s) → PyDict.get K (write_buffer s) = Some v → v > 0.
Proof.
  intros [_ Hpos]. induction Hpos as [|[k' v'] d Hkv Hpos IH]; simpl; [done|].
  case_decide; [by intros [= <-]|done].
Qed.

Lemma buffered_nonneg K s : buffer_ok (write_buffer s) → 0 ≤ buffered K s.
Proof.
  intros Hok. unfold buffered.
  destruct (PyDict.get K (write_buffer s)) as [v|] eqn:Hget; [|done].
  pose proof (buffered_positive K s v Hok Hget). lia.
Qed.

Lemma buffer_ok_enqueued page_id s :
  buffer_ok (write_buffer s) → buffer_ok (write_buffer (enqueued page_id s)).
Proof.
  intros Hok. cbn [enqueued write_buffer]. apply buffer_ok_set; [|done].
  pose proof (buffered_nonneg page_id s Hok). lia.
Qed.

Lemma buffer_ok_arrive pages s :
  buffer_ok (write_buffer s) → buffer_ok (write_buffer (arrive pages s)).
Proof.
  revert s. induction pages as [|p pages IH]; intros s Hok; simpl; [done|].
  by apply IH, buffer_ok_enqueued.
Qed.

Lemma buffer_ok_restored page_id count s :
  count > 0 → buffer_ok (write_buffer s) →
  buffer_ok (write_buffer (restored_to page_id count s)).
Proof.
  intros Hcount Hok. cbn [restored_to set_write_buffer write_buffer].
  apply buffer_ok_set; [|done]. pose proof (buffered_nonneg page_id s Hok). lia.
Qed.

Lemma flush_items_buffer_ok items arrivals s w :
  buffer_ok (write_buffer s) →
  buffer_ok (write_buffer (flush_items _get_hash settings items arrivals (s, w)).2.1).
Proof.
  revert arrivals s w. induction items as [|[page_id count] rest IH]; intros arrivals s w Hok.
  - done.
  - destruct (decide (count > 0)) as [Hpos|Hnpos].
    + rewrite flush_items_cons by done.
      destruct (increment _ _ _ _ _ w) as [[v|e] w']; cbv zeta; apply IH.
      * by apply buffer_ok_arrive.
      * by apply buffer_ok_restored, buffer_ok_arrive.
    + rewrite flush_items_skip by done. by apply IH.
Qed.

Lemma metrics_arrive pages s : metrics (arrive pages s) = metrics s.
Proof. revert s. induction pages as [|p pages IH]; intros s; simpl; [done|]. by rewrite IH. Qed.

Lemma flush_items_metrics items arrivals s w :
  metrics (flush_items _get_hash settings items arrivals (s, w)).2.1 = metrics s.
Proof.
  revert arrivals s w. induction items as [|[page_id count] rest IH]; intros arrivals s w.
  - done.
  - destruct (decide (count > 0)) as [Hpos|Hnpos].
    + rewrite flush_items_cons by done.
      destruct (increment _ _ _ _ _ w) as [[v|e] w']; cbv zeta; rewrite IH.
      * apply metrics_arrive.
      * cbn [restored_to set_write_buffer metrics]. apply metrics_arrive.
    + rewrite flush_items_skip by done. apply IH.
Qed.

Lemma update_metrics_run s w :
  update_metrics (s, w)
  = (Ok tt, (set_metrics (mkMetrics (visits (metrics s)) ACTIVE
                                    (Z.of_nat (size (cache s))) (Some (clock w))) s, w)).
Proof. reflexivity. Qed.

(** What a step does to the buffer and to the metrics object. *)
Lemma service_run_step_keeps st st' :
  service_run_step _get_hash settings st st' →
  (buffer_ok (write_buffer st.1) → buffer_ok (write_buffer st'.1)) ∧
  visits (metrics st'.1) = visits (metrics st.1).
Proof.
  intros [st0 st1 Hstep|[s w]].
  2:{ rewrite update_metrics_run. done. }
  destruct Hstep as [p [s w]|p il [s w]|p [s w]|arrivals [s w]|[s w]|s w];
    cbn [fst snd].
  - rewrite increment_visit_run. cbn [fst snd]. split; [apply buffer_ok_enqueued|done].
  - by rewrite get_visit_count_degraded.
  - rewrite reset_counter_run. destruct (reset _ _ _ w) as [r w']. cbn [fst snd].
    split; [apply buffer_ok_pop|done].
  - destruct (_flush_write_buffer _ _ _ (s, w)) as [r [s' w']] eqn:Hrun. cbn [fst snd].
    revert Hrun. unfold _flush_write_buffer. unfold bind at 1. unfold service at 1.
    destruct (write_buffer s) as [|item items] eqn:Hwb.
    { intros [= _ <- _]. by rewrite Hwb. }
    unfold bind at 1. unfold on_service at 1. unfold bind at 1.
    pose proof (flush_items_buffer_ok (item :: items) arrivals (set_write_buffer [] s) w)
      as Hbuf.
    pose proof (flush_items_metrics (item :: items) arrivals (set_write_buffer [] s) w)
      as Hmet.
    destruct (flush_items _ _ _ _ _) as [[[]|e] [s1 w1]]; cbn [fst snd] in Hbuf, Hmet.
    + unfold bind, now, on_service. intros [= _ <- _].
      cbn [write_buffer set_last_write_time metrics].
      split; [|by rewrite Hmet]. intros _. apply Hbuf.
      split; [apply NoDup_nil_2|apply Forall_nil_2].
    + intros [= _ <- _].
      split; [|by rewrite Hmet]. intros _. apply Hbuf.
      split; [apply NoDup_nil_2|apply Forall_nil_2].
  - unfold _cleanup_cache, bind, now, on_service. done.
  - destruct (_health_check_round _ _) as [[m|e] w']; done.
Qed.



(** X18.  However the public operations and the background tasks interleave,
    the write buffer keeps each page once and every count positive: the
    flush never skips an entry, and a read of the buffer is never
    negative. *)
Theorem write_buffer_stays_well_formed st st' :
  rtc (service_run_step _get_hash settings) st st' →
  buffer_ok (write_buffer st.1) →
  buffer_ok (write_buffer st'.1) ∧ ∀ K, 0 ≤ buffered K st'.1.
Proof.
  intros Hrun Hok.
  assert (buffer_ok (write_buffer st'.1)) as Hok'.
  { induction Hrun as [|st st1 st2 Hstep _ IH]; [done|].
    apply IH. by apply (service_run_step_keeps _ _ Hstep). }
  split; [done|]. intros K. by apply buffered_nonneg.
Qed.

(** X19.  Nothing counts visits in the metrics object: however many visits are
    recorded, read, flushed or reset, and however often the metrics task
    runs, [metrics.visits] is what it was. *)
Theorem visits_metric_never_moves st st' :
  rtc (service_run_step _get_hash settings) st st' →
  visits (metrics st'.1) = visits (metrics st.1).
Proof.
  induction 1 as [|st st1 st2 Hstep _ IH]; [done|].
  rewrite IH. by apply (service_run_step_keeps _ _ Hstep).
Qed.

(** X20.  [increment_visit] never raises and contacts no shard.  It adds one to
    the pending count of its page and leaves the other pages' counts as
    they were; it drops the cache entry of its page and no other. *)
Theorem increment_visit_buffers_one page_id s w :
  ∃ s',
    increment_visit page_id (s, w) = (Ok tt, (s', w)) ∧
    buffered page_id s' = buffered page_id s + 1 ∧
    (∀ K, K ≠ page_id → buffered K s' = buffered K s) ∧
    cache s' !! cache_key_of page_id = None ∧
    (∀ key, key ≠ cache_key_of page_id → cache s' !! key = cache s !! key) ∧
    redis_manager s' = redis_manager s ∧ metrics s' = metrics s.
Proof.
  exists (enqueued page_id s). split; [apply increment_visit_run|].
  split; [apply buffered_enqueued_eq|]. split.
  - intros K HK. by apply buffered_enqueued_ne.
  - cbn [enqueued cache]. split; [apply lookup_delete_eq|]. split; [|done].
    intros key Hkey. by apply lookup_delete_ne.
Qed.

(** X21.  With a TTL of at most [2 ^ 34] seconds, [_cleanup_cache] keeps
    exactly the entries whose age, in the microseconds of the clock, is
    less than the TTL, although it compares the rounded float that
    [total_seconds()] returns; it touches nothing else.  (Beyond that
    bound an entry a microsecond younger than the TTL can be dropped.) *)
Theorem cleanup_cache_keeps_fresh_entries s w :
  0 ≤ CACHE_TTL_SECONDS settings ≤ 2 ^ 34 →
  ∃ s',
    _cleanup_cache settings (s, w) = (Ok tt, (s', w)) ∧
    (∀ key entry,
       cache s' !! key = Some entry ↔
       cache s !! key = Some entry ∧
       clock w - timestamp entry < seconds (CACHE_TTL_SECONDS settings)) ∧
    write_buffer s' = write_buffer s ∧ redis_manager s' = redis_manager s ∧
    metrics s' = metrics s.
Proof.
  intros Httl.
  eexists. split; [reflexivity|]. cbn [set_cache cache write_buffer redis_manager metrics].
  split; [|done]. intros key entry. rewrite map_lookup_filter_Some. cbn [snd].
  pose proof (total_seconds_ge_exact (clock w - timestamp entry) _ Httl) as Hexact.
  destruct (total_seconds_ge _ _); split; intros [? ?]; split; try done.
  - assert (seconds (CACHE_TTL_SECONDS settings) ≤ clock w - timestamp entry)
      by (by apply Hexact). lia.
  - destruct (decide (seconds (CACHE_TTL_SECONDS settings) ≤ clock w - timestamp entry))
      as [Hle|]; [|lia]. by apply Hexact in Hle.
Qed.

Lemma flush_items_no_attempt items arrivals s w K :
  REDIS_RETRY_ATTEMPTS settings = 0%nat →
  ∃ s',
    flush_items _get_hash settings items arrivals (s, w) = (Ok tt, (s', w)) ∧
    buffered K s' = buffered K s + accumulated K items arrivals.
Proof.
  intros Hzero. revert arrivals s.
  induction items as [|[page_id count] rest IH]; intros arrivals s.
  - exists s. simpl. split; [done|lia].
  - destruct (decide (count > 0)) as [Hpos|Hnpos].
    + rewrite flush_items_cons by done. unfold increment. rewrite Hzero.
      cbn [seq increment_loop]. unfold ret. cbv zeta.
      destruct (IH (tl arrivals) (arrive (hd [] arrivals) s)) as (s' & -> & Hbuf).
      exists s'. split; [done|]. rewrite Hbuf, buffered_arrive. cbn [accumulated].
      rewrite decide_True by done. lia.
    + rewrite flush_items_skip by done.
      destruct (IH (tl arrivals) s) as (s' & -> & Hbuf).
      exists s'. split; [done|]. rewrite Hbuf. cbn [accumulated].
      rewrite decide_False by done. lia.
Qed.

(** X22.  With [REDIS_RETRY_ATTEMPTS] set to 0 the manager's [increment] makes no
    attempt and returns [None], which the flush takes for a success: the
    flush then empties the buffer without contacting a shard, and only the
    visits that arrived while it ran are left. *)
Theorem flush_without_attempts_drops_counts arrivals s w K :
  REDIS_RETRY_ATTEMPTS settings = 0%nat →
  ∃ s',
    _flush_write_buffer _get_hash settings arrivals (s, w) = (Ok tt, (s', w)) ∧
    buffered K s' = accumulated K (write_buffer s) arrivals.
Proof.
  intros Hzero. unfold _flush_write_buffer. unfold bind at 1. unfold service at 1.
  destruct (write_buffer s) as [|item items] eqn:Hwb.
  - exists s. split; [done|]. unfold buffered. by rewrite Hwb.
  - unfold bind at 1. unfold on_service at 1. unfold bind at 1.
    destruct (flush_items_no_attempt (item :: items) arrivals (set_write_buffer [] s) w K Hzero)
      as (s' & -> & Hbuf).
    unfold bind, now, on_service. eexists. split; [done|].
    unfold buffered at 1. cbn [set_last_write_time write_buffer].
    fold (buffered K s'). by rewrite Hbuf.
Qed.

(** X23.  The endpoint [get_visits] never answers with an error, and the
    [served_via] it reports always starts with "redis": it is never
    "in_memory", the endpoint looking for the tag "cache", which
    [get_visit_count] does not use. *)
Theorem get_visits_never_in_memory page_id il st :
  ∃ count served st',
    get_visits _get_hash settings page_id il st
    = (Body (VisitCount.mk count served), st') ∧
    String.prefix "redis" served = true ∧ served ≠ "in_memory".
Proof.
  destruct st as [s w]. unfold get_visits, or_500, bind.
  rewrite get_visit_count_degraded. cbn.
  eexists _, _, _. split; [done|]. done.
Qed.

End ServiceInvariants.

(** ** The service in a world without failures *)

Section CalmWorld.

Variable _get_hash : string → Z.
Variable settings : Settings.

Local Abbreviation St := (VisitCounterService * MemWorld)%type.

Lemma increment_visits_run n page_id s w :
  increment_visits n page_id (s, w) = (Ok tt, (arrive (replicate n page_id) s, w)).
Proof.
  revert s. induction n as [|n IH]; intros s; simpl; [done|].
  unfold bind. by rewrite increment_visit_run, IH.
Qed.

Lemma write_buffer_arrive_single n page_id v s :
  write_buffer s = [(page_id, v)] →
  write_buffer (arrive (replicate n page_id) s) = [(page_id, v + Z.of_nat n)].
Proof.
  revert v s. induction n as [|n IH]; intros v s Hwb; simpl.
  - rewrite Hwb. f_equal. f_equal. lia.
  - rewrite (IH (v + 1)).
    + f_equal. f_equal. lia.
    + unfold enqueued, buffered. simpl. rewrite Hwb. simpl.
      by rewrite !decide_True.
Qed.

Lemma write_buffer_arrive_first n page_id s :
  write_buffer s = [] →
  write_buffer (arrive (replicate (S n) page_id) s) = [(page_id, Z.of_nat (S n))].
Proof.
  intros Hwb. simpl. rewrite (write_buffer_arrive_single n page_id 1).
  - f_equal. f_equal. lia.
  - unfold enqueued, buffered. simpl. by rewrite Hwb.
Qed.

Lemma cache_arrive_deleted n page_id c s :
  cache s = delete (cache_key_of page_id) c →
  cache (arrive (replicate n page_id) s) = delete (cache_key_of page_id) c.
Proof.
  revert s. induction n as [|n IH]; intros s Hc; simpl; [done|].
  apply IH. simpl. rewrite Hc. by rewrite delete_delete_eq.
Qed.

(** Without failures the manager's calls go through at the first attempt. *)
Lemma reset_calm m key node st t :
  get_connection _get_hash m key = Ok node →
  reset _get_hash m key (mkWorld st [] t)
  = (Ok (bool_decide (is_Some (held node key st))),
     mkWorld (<[node := delete key (default ∅ (st !! node))]> st) [] t).
Proof.
  intros Hconn. unfold reset, try_except_redis, of_result, bind, held. rewrite Hconn.
  unfold client_delete, MemWorld_World, faulty, store_of, ret. simpl.
  by destruct (default ∅ (st !! node) !! key).
Qed.

Lemma increment_calm m key node amount st t :
  (0 < REDIS_RETRY_ATTEMPTS settings)%nat →
  get_connection _get_hash m key = Ok node →
  increment _get_hash settings m key amount (mkWorld st [] t)
  = (Ok (Some (default 0 (held node key st) + amount)),
     mkWorld (<[node := <[key := default 0 (held node key st) + amount]>
                          (default ∅ (st !! node))]> st) [] t).
Proof.
  intros Hattempts Hconn. unfold increment.
  destruct (REDIS_RETRY_ATTEMPTS settings) as [|k]; [lia|].
  cbn [seq increment_loop]. unfold try_except_redis, of_result, bind. by rewrite Hconn.
Qed.

Lemma get_calm m key node st t :
  (0 < REDIS_RETRY_ATTEMPTS settings)%nat →
  get_connection _get_hash m key = Ok node →
  get _get_hash settings m key (mkWorld st [] t)
  = (Ok (Some (default 0 (held node key st), node)), mkWorld st [] t).
Proof.
  intros Hattempts Hconn. unfold get.
  destruct (REDIS_RETRY_ATTEMPTS settings) as [|k]; [lia|].
  cbn [seq get_loop]. unfold try_except_redis, of_result, bind. rewrite Hconn.
  unfold client_get, MemWorld_World, faulty, store_of, ret, held. simpl.
  by destruct (default ∅ (st !! node) !! key).
Qed.

(** The read-through of a service with nothing pending: the shard's value
    is stored in the cache under the clock reading and returned with the
    shard's tag. *)
Lemma read_through_calm page_id node s st t :
  (0 < REDIS_RETRY_ATTEMPTS settings)%nat →
  get_connection _get_hash (redis_manager s) (cache_key_of page_id) = Ok node →
  write_buffer s = [] →
  let v := default 0 (held node (cache_key_of page_id) st) in
  read_through _get_hash settings page_id quiet (s, mkWorld st [] t)
  = (Ok (v, "redis_" +:+ node),
     (set_cache (<[cache_key_of page_id := mkEntry v t]> (cache s)) s, mkWorld st [] t)).
Proof.
  intros Hattempts Hconn Hwb v. unfold read_through.
  unfold bind at 1. unfold _flush_write_buffer.
  unfold bind at 1. unfold service at 1. rewrite Hwb. unfold ret at 1.
  unfold bind at 1. unfold service at 1.
  unfold bind at 1. unfold attempt, on_world.
  rewrite (get_calm _ _ _ _ _ Hattempts Hconn).
  unfold bind at 1. cbn [during_get quiet interleave]. unfold ret at 1.
  unfold bind at 1. unfold of_result at 1.
  unfold bind at 1. unfold service at 1. rewrite Hwb. cbn [PyDict.get].
  unfold bind at 1. unfold now at 1.
  unfold bind, on_service, ret. reflexivity.
Qed.

(** After [reset(K)], [n + 1] increments and a flush the buffer is empty
    and the shard of [K] holds [n + 1]. *)
Lemma reset_increment_flush_run n page_id node s st t :
  (0 < REDIS_RETRY_ATTEMPTS settings)%nat →
  get_connection _get_hash (redis_manager s) (cache_key_of page_id) = Ok node →
  write_buffer s = [] →
  ∃ s' st',
    reset_increment_flush _get_hash settings (S n) page_id (s, mkWorld st [] t)
    = (Ok tt, (s', mkWorld st' [] t)) ∧
    redis_manager s' = redis_manager s ∧
    write_buffer s' = [] ∧
    cache s' = delete (cache_key_of page_id) (cache s) ∧
    held node (cache_key_of page_id) st' = Some (Z.of_nat (S n)).
Proof.
  intros Hattempts Hconn Hwb. unfold reset_increment_flush.
  unfold bind at 1. rewrite reset_counter_run, (reset_calm _ _ _ _ _ Hconn). cbv zeta.
  set (s1 := set_write_buffer _ _).
  set (st1 := <[node := _]> st).
  assert (write_buffer s1 = []) as Hwb1 by (subst s1; simpl; by rewrite Hwb).
  unfold bind at 1. rewrite increment_visits_run.
  set (s2 := arrive _ s1).
  assert (write_buffer s2 = [(page_id, Z.of_nat (S n))]) as Hwb2
    by (by apply write_buffer_arrive_first).
  assert (redis_manager s2 = redis_manager s) as Hrm2
    by (subst s2; by rewrite redis_manager_arrive).
  assert (cache s2 = delete (cache_key_of page_id) (cache s)) as Hcache2
    by (by apply cache_arrive_deleted).
  unfold _flush_write_buffer.
  unfold bind at 1. unfold service at 1. rewrite Hwb2.
  unfold bind at 1. unfold on_service at 1.
  unfold bind at 1. rewrite flush_items_cons by lia.
  cbn [redis_manager set_write_buffer]. rewrite Hrm2.
  rewrite (increment_calm _ _ _ _ _ _ Hattempts Hconn).
  cbn [hd tl arrive foldl flush_items]. unfold ret at 1.
  unfold bind at 1. unfold now at 1. unfold on_service at 1.
  eexists _, _. split; [reflexivity|]. cbn. split; [done|]. split; [done|].
  split; [done|].
  unfold held. rewrite lookup_insert_eq. cbn [default id]. rewrite lookup_insert_eq.
  f_equal. subst st1. rewrite lookup_insert_eq. cbn [default id].
  rewrite lookup_delete_eq. simpl. lia.
Qed.

(** Then [get(K)] returns 0 with the tag "write_buffer", whatever [n]. *)
Lemma round_trip_run n page_id node s st t :
  (0 < REDIS_RETRY_ATTEMPTS settings)%nat →
  get_connection _get_hash (redis_manager s) (cache_key_of page_id) = Ok node →
  write_buffer s = [] →
  ∃ s' st',
    round_trip _get_hash settings (S n) page_id (s, mkWorld st [] t)
    = (Ok (0, "write_buffer"), (s', mkWorld st' [] t)) ∧
    held node (cache_key_of page_id) st' = Some (Z.of_nat (S n)).
Proof.
  intros Hattempts Hconn Hwb. unfold round_trip. unfold bind.
  destruct (reset_increment_flush_run n page_id node s st t Hattempts Hconn Hwb)
    as (s' & st' & -> & _ & Hwb' & _ & Hheld).
  rewrite get_visit_count_degraded. exists s', st'. split; [|done].
  unfold buffered. by rewrite Hwb'.
Qed.

(** The read-through that [get] does not reach would return [n + 1] with
    the shard's tag. *)
Lemma round_trip_by_read_through n page_id node s st t :
  (0 < REDIS_RETRY_ATTEMPTS settings)%nat →
  get_connection _get_hash (redis_manager s) (cache_key_of page_id) = Ok node →
  write_buffer s = [] →
  ∃ st',
    (reset_increment_flush _get_hash settings (S n) page_id;;
     read_through _get_hash settings page_id quiet)%py (s, mkWorld st [] t)
    = (Ok (Z.of_nat (S n), "redis_" +:+ node), st').
Proof.
  intros Hattempts Hconn Hwb. unfold bind.
  destruct (reset_increment_flush_run n page_id node s st t Hattempts Hconn Hwb)
    as (s' & st' & -> & Hrm & Hwb' & _ & Hheld).
  rewrite <- Hrm in Hconn.
  rewrite (read_through_calm page_id node s' st' t Hattempts Hconn Hwb').
  rewrite Hheld. by eexists.
Qed.

End CalmWorld.

(** ** The service on shards that may fail *)

Section FaultyWorld.

Variable _get_hash : string → Z.
Variable settings : Settings.

Local Abbreviation St := (VisitCounterService * MemWorld)%type.
Local Abbreviation attempts := (REDIS_RETRY_ATTEMPTS settings).

Implicit Types (m : RedisManager) (s : VisitCounterService)
  (st : gmap string (gmap string Z)) (fs : list bool).




Lemma pending_absent K (d : PyDict.t Z) : K ∉ d.*1 → pending K d = 0.
Proof.
  induction d as [|[p c] d IH]; csimpl; [done|].
  intros [Hne Hd]%not_elem_of_cons. rewrite IH by done.
  case_decide; [|done]. by rewrite decide_False by done.
Qed.

Lemma pending_buffered K (d : PyDict.t Z) :
  buffer_ok d → pending K d = default 0 (PyDict.get K d).
Proof.
  intros [Hnd Hpos]. induction Hpos as [|[p c] d Hc Hpos IH]; csimpl; [done|].
  csimpl in Hnd. apply NoDup_cons in Hnd as [Hp Hnd]. cbn [snd] in Hc.
  rewrite decide_True by done. case_decide as HpK.
  - subst p. rewrite pending_absent by done. cbn. lia.
  - rewrite IH by done. lia.
Qed.





(** X25.  Without failures [reset_counter] tells whether the shard held the
    page's key; afterwards the shard holds nothing for it, the buffer
    nothing pending and the cache no entry, the other pages' pending counts
    being as they were. *)
Theorem reset_counter_clears page_id node s st t :
  get_connection _get_hash (redis_manager s) (cache_key_of page_id) = Ok node →
  ∃ s',
    reset_counter _get_hash page_id (s, mkWorld st [] t)
    = (Ok (bool_decide (is_Some (held node (cache_key_of page_id) st))),
       (s', mkWorld (deleted node (cache_key_of page_id) st) [] t)) ∧
    held node (cache_key_of page_id) (deleted node (cache_key_of page_id) st) = None ∧
    buffered page_id s' = 0 ∧
    cache s' !! cache_key_of page_id = None ∧
    (∀ K, K ≠ page_id → buffered K s' = buffered K s).
Proof.
  intros Hconn. rewrite reset_counter_run.
  rewrite (reset_went_through _ _ _ node) by done. cbv zeta.
  eexists. split; [done|]. split; [apply held_deleted|].
  unfold buffered. cbn [set_write_buffer set_cache write_buffer cache].
  split; [by rewrite PyDict_get_pop_eq|]. split; [apply lookup_delete_eq|].
  intros K HK. by rewrite PyDict_get_pop_ne.
Qed.

End FaultyWorld.

(** ** The flush of a page that cannot be routed *)

Section Unroutable.

Variable _get_hash : string → Z.
Variable settings : Settings.
Context {W : Type} `{World W}.

Implicit Types (s : VisitCounterService) (w : W).

Lemma put_back_unroutable K rm items w e :
  (0 < REDIS_RETRY_ATTEMPTS settings)%nat →
  get_connection _get_hash rm (cache_key_of K) = Raise e → is_RedisError e = false →
  put_back _get_hash settings K rm items w = pending K items.
Proof.
  intros Hattempts Hconn He. revert w.
  induction items as [|[page_id count] rest IH]; intros w; cbn [put_back pending]; [done|].
  case_decide as Hcount; [|apply IH].
  destruct (decide (page_id = K)) as [->|Hne].
  - rewrite (increment_routing_failure _ _ _ _ _ _ _ Hattempts Hconn He).
    by rewrite IH.
  - destruct (increment _ _ _ _ _ w) as [[v|e'] w']; by rewrite IH.
Qed.

(** X26.  The count of a page whose key cannot be routed stays in the
    buffer: with at least one attempt allowed, after a flush the buffer
    holds for the page what it held before plus the visits that arrived
    meanwhile. *)
Theorem flush_keeps_unroutable_counts arrivals s w K e :
  (0 < REDIS_RETRY_ATTEMPTS settings)%nat →
  manager_ok (redis_manager s) →
  buffer_ok (write_buffer s) →
  get_connection _get_hash (redis_manager s) (cache_key_of K) = Raise e →
  ∃ s' w',
    _flush_write_buffer _get_hash settings arrivals (s, w) = (Ok tt, (s', w')) ∧
    buffered K s' = buffered K s + accumulated K (write_buffer s) arrivals.
Proof.
  intros Hattempts Hok Hbuf Hconn.
  assert (is_RedisError e = false) as He.
  { pose proof (get_connection_ok _get_hash _ (cache_key_of K) Hok) as Hout.
    rewrite Hconn in Hout. by destruct Hout as [-> | ->]. }
  destruct (_flush_write_buffer_run _get_hash settings arrivals s w K)
    as (s' & w' & Hrun & _ & Hbuffered).
  exists s', w'. split; [done|].
  rewrite Hbuffered, (put_back_unroutable K _ _ w e Hattempts Hconn He).
  rewrite (pending_buffered K _ Hbuf). unfold buffered.
  destruct (PyDict.get K (write_buffer s)); cbn [default from_option id]; lia.
Qed.

End Unroutable.

(** ** The shard manager: reading many keys at once *)

Section PyDictElems.

Context {V : Type}.

Implicit Types (d : PyDict.t V) (k : string) (v : V).





End PyDictElems.

Section MgetFacts.

Variable _get_hash : string → Z.

Implicit Types (m : RedisManager) (d : PyDict.t (list string))
  (st : gmap string (gmap string Z)) (fs : list bool) (result : gmap string (Z * string)).








End MgetFacts.

(* ===================================================================== *)
(** * The service with its default settings, run on MD5 *)
(* ===================================================================== *)

Lemma routes_true r key node :
  routes r key node = true → get_node MD5.md5_int r key = Ok node.
Proof.
  unfold routes. destruct (get_node _ _ _) as [node'|e]; [|done].
  by intros ->%bool_decide_eq_true.
Qed.

Lemma default_ring_checked : default_ring_checks = true.
Proof. vm_compute. reflexivity. Qed.

(** The ring that the constructor builds.  It is kept behind its equation,
    so that no later proof computes its three hundred hashes again. *)
Lemma default_ring_exists :
  { r | ConsistentHash_init MD5.md5_int 0 default_nodes 100 = Some r }.
Proof.
  pose proof default_ring_checked as Hc. unfold default_ring_checks in Hc.
  destruct (ConsistentHash_init MD5.md5_int 0 default_nodes 100) as [r|].
  - by exists r.
  - discriminate Hc.
Qed.

Definition default_ring : ConsistentHash := proj1_sig default_ring_exists.

(** [RedisManager()] and [VisitCounterService()] with these settings, every
    pool and client built. *)
Definition default_manager : RedisManager :=
  let '(clients, health) := _initialize_connections (λ _, true) default_nodes in
  mkManager default_nodes default_ring clients health.

Definition default_service : VisitCounterService :=
  mkService default_manager ∅ [] 0 (mkMetrics 0 ACTIVE 0 None).

(** The manager after a health-check round in which the ping of the third
    shard fails and the other two answer. *)
Definition one_down : RedisManager :=
  match _health_check_round default_manager (mkWorld ∅ [false; false; true] 0) with
  | (Ok m, _) => m
  | (Raise _, _) => default_manager
  end.

(** A service whose cache holds a fresh entry for "page-A". *)
Definition cached_service : VisitCounterService :=
  set_cache {[ "visits:page-A" := mkEntry 3 0 ]} default_service.

(** A service with two pending visits and a cached count for "page-A". *)
Definition pending_service : VisitCounterService :=
  set_cache {[ "visits:page-A" := mkEntry 5 0 ]}
    (set_write_buffer [("page-A", 2)] default_service).

Lemma default_ring_built :
  ConsistentHash_init MD5.md5_int 0 default_nodes 100 = Some default_ring.
Proof. exact (proj2_sig default_ring_exists). Qed.

Lemma default_ring_facts :
  length (sorted_keys default_ring) = 300%nat ∧
  get_node MD5.md5_int default_ring "visits:page-A" = Ok "redis://redis1:6379" ∧
  get_node MD5.md5_int default_ring "visits:page-C" = Ok "redis://redis3:6379" ∧
  get_node MD5.md5_int default_ring "fallback_redis://redis3:6379"
  = Ok "redis://redis3:6379".
Proof.
  pose proof default_ring_checked as Hc. unfold default_ring_checks in Hc.
  rewrite default_ring_built in Hc. unfold ring_checks in Hc.
  rewrite !andb_true_iff, bool_decide_eq_true in Hc.
  destruct Hc as [[[Hlen HA] HC] HF].
  split; [exact Hlen|].
  split; [exact (routes_true _ _ _ HA)|].
  split; [exact (routes_true _ _ _ HC)|exact (routes_true _ _ _ HF)].
Qed.

Lemma default_manager_built :
  RedisManager_init MD5.md5_int default_settings 0 (λ _, true) = Some default_manager.
Proof.
  unfold RedisManager_init. cbn [REDIS_NODES VIRTUAL_NODES default_settings].
  by rewrite default_ring_built.
Qed.


Lemma default_ring_wf : ring_wf default_ring.
Proof. exact (ConsistentHash_init_wf _ _ _ _ _ default_ring_built). Qed.

Lemma default_manager_health node :
  node_health default_manager !! node
  = if decide (node = "redis://redis3:6379") then Some true
    else if decide (node = "redis://redis2:6379") then Some true
    else if decide (node = "redis://redis1:6379") then Some true
    else None.
Proof.
  assert (node_health default_manager
          = <["redis://redis3:6379" := true]>
              (<["redis://redis2:6379" := true]>
                 (<["redis://redis1:6379" := true]> ∅)))
    as -> by reflexivity.
  rewrite !lookup_insert, lookup_empty. repeat case_decide; congruence.
Qed.

Lemma default_manager_clients :
  redis_clients default_manager
  = {["redis://redis3:6379"]} ∪ ({["redis://redis2:6379"]} ∪ ({["redis://redis1:6379"]} ∪ ∅)).
Proof. reflexivity. Qed.

Lemma route_page_A :
  get_connection MD5.md5_int default_manager "visits:page-A" = Ok "redis://redis1:6379".
Proof.
  unfold get_connection.
  change (consistent_hash default_manager) with default_ring.
  destruct default_ring_facts as (_ & -> & _). cbn [rbind].
  unfold health_of.
  assert (node_health default_manager !! "redis://redis1:6379" = Some true) as ->
    by (rewrite default_manager_health; reflexivity).
  cbn [rbind].
  rewrite decide_True; [done|]. rewrite default_manager_clients. set_solver.
Qed.

(** *** One shard down *)

Lemma one_down_health node :
  node_health one_down !! node
  = if decide (node = "redis://redis3:6379") then Some false
    else if decide (node = "redis://redis2:6379") then Some true
    else if decide (node = "redis://redis1:6379") then Some true
    else None.
Proof.
  assert (node_health one_down
          = <["redis://redis3:6379" := false]>
              (<["redis://redis2:6379" := true]>
                 (<["redis://redis1:6379" := true]> (node_health default_manager))))
    as -> by reflexivity.
  rewrite !lookup_insert, default_manager_health. repeat case_decide; congruence.
Qed.

(** C5 fails here.  With the default settings and exactly the third of the
    three shards marked unhealthy, the key "visits:page-C" routes to the
    third shard, and so does the fallback label of the third shard: every
    round of the fallback loop meets the unhealthy shard again, and
    [get_connection] raises "No healthy Redis nodes available" although two
    shards are healthy.  The manager's [get] and [increment] raise it in
    turn, in every world. *)
Theorem fallback_meets_unhealthy_shard_again :
  (∀ node, node ∈ default_nodes →
     node_health one_down !! node = Some (bool_decide (node ≠ "redis://redis3:6379"))) ∧
  get_node MD5.md5_int (consistent_hash one_down) "visits:page-C"
  = Ok "redis://redis3:6379" ∧
  get_node MD5.md5_int (consistent_hash one_down) "fallback_redis://redis3:6379"
  = Ok "redis://redis3:6379" ∧
  get_connection MD5.md5_int one_down "visits:page-C"
  = Raise (Exception "No healthy Redis nodes available") ∧
  (∀ w : MemWorld,
     get MD5.md5_int default_settings one_down "visits:page-C" w
     = (Raise (Exception "No healthy Redis nodes available"), w)) ∧
  (∀ (amount : Z) (w : MemWorld),
     increment MD5.md5_int default_settings one_down "visits:page-C" amount w
     = (Raise (Exception "No healthy Redis nodes available"), w)).
Proof.
  change (consistent_hash one_down) with default_ring.
  destruct default_ring_facts as (_ & _ & HC & HF).
  assert (node_health one_down !! "redis://redis3:6379" = Some false) as Hdown
    by (rewrite one_down_health; reflexivity).
  assert (get_connection MD5.md5_int one_down "visits:page-C"
          = Raise (Exception "No healthy Redis nodes available")) as Hconn
    by exact (get_connection_stuck MD5.md5_int one_down "visits:page-C"
                "redis://redis3:6379" HC HF Hdown).
  split; [|split; [|split; [|split; [|split]]]].
  - intros node Hnode. rewrite one_down_health.
    unfold default_nodes in Hnode. rewrite !elem_of_cons, elem_of_nil in Hnode.
    destruct Hnode as [->|[->|[->|[]]]]; reflexivity.
  - exact HC.
  - exact HF.
  - exact Hconn.
  - intros w.
    apply (get_routing_failure MD5.md5_int default_settings one_down _ _ w);
      [cbn; lia | exact Hconn | reflexivity].
  - intros amount w.
    apply (increment_routing_failure MD5.md5_int default_settings one_down _ amount _ w);
      [cbn; lia | exact Hconn | reflexivity].
Qed.

(** *** The round trip *)

(** C1 fails here.  With the default settings, every shard up and the
    stores empty: after [reset("page-A")], [n + 1] increments of "page-A"
    and a flush, the shard of the key holds [n + 1], and
    [get("page-A")] returns 0 with the tag "write_buffer", not [n + 1]:
    its [try] block raises on [self.metrics.cache_misses += 1] before it
    reads the shard, and the flushed buffer holds nothing for the key. *)
Theorem round_trip_reads_zero (n : nat) :
  ∃ s' st',
    round_trip MD5.md5_int default_settings (S n) "page-A" (default_service, calm_world 0)
    = (Ok (0, "write_buffer"), (s', mkWorld st' [] 0)) ∧
    held "redis://redis1:6379" "visits:page-A" st' = Some (Z.of_nat (S n)).
Proof.
  apply (round_trip_run MD5.md5_int default_settings n "page-A" "redis://redis1:6379").
  - cbn. lia.
  - exact route_page_A.
  - reflexivity.
Qed.

(** The read-through itself, were it reached, returns [n + 1]. *)
Lemma round_trip_by_read_through_default (n : nat) :
  ∃ st',
    (reset_increment_flush MD5.md5_int default_settings (S n) "page-A";;
     read_through MD5.md5_int default_settings "page-A" quiet)%py
      (default_service, calm_world 0)
    = (Ok (Z.of_nat (S n), "redis_redis://redis1:6379"), st').
Proof.
  apply (round_trip_by_read_through MD5.md5_int default_settings n "page-A"
           "redis://redis1:6379").
  - cbn. lia.
  - exact route_page_A.
  - reflexivity.
Qed.

(** *** A repeated read *)

(** C2 fails here.  With the default settings, three increments of
    "page-A" and two reads in a row: both reads return 3 with the tag
    "write_buffer", the second is not served from the cache, and the cache
    is still empty.  And on a service whose cache does hold a fresh entry
    of value 3 for the key, a read returns 0 with the tag "write_buffer",
    not the cached 3 with "in_memory": the hit branch raises on
    [self.metrics.cache_hits += 1] before its [return]. *)
Theorem repeated_get_not_from_cache :
  (∃ st',
     read_twice (default_service, calm_world 0)
     = (Ok ((3, "write_buffer"), (3, "write_buffer")), st') ∧
     cache st'.1 = ∅) ∧
  cache cached_service !! "visits:page-A" = Some (mkEntry 3 0) ∧
  clock (calm_world 0) - 0 < seconds (CACHE_TTL_SECONDS default_settings) ∧
  get_visit_count MD5.md5_int default_settings "page-A" quiet (cached_service, calm_world 0)
  = (Ok (0, "write_buffer"), (cached_service, calm_world 0)).
Proof.
  split; [|split; [|split]].
  - unfold read_twice. unfold bind at 1. rewrite increment_visits_run.
    unfold bind at 1. rewrite get_visit_count_degraded.
    unfold bind at 1. rewrite get_visit_count_degraded.
    eexists. split; [reflexivity|]. reflexivity.
  - reflexivity.
  - reflexivity.
  - by rewrite get_visit_count_degraded.
Qed.

(** *** The theorems at concrete inputs *)

Lemma get_node_first_greater_witness :
  ring_wf default_ring ∧
  match get_node MD5.md5_int default_ring "visits:page-A" with
  | Ok node =>
      ∃ h, hash_ring default_ring !! h = Some node ∧
        ((MD5.md5_int "visits:page-A" < h ∧
          ∀ h', is_Some (hash_ring default_ring !! h') →
                MD5.md5_int "visits:page-A" < h' → h ≤ h')
         ∨ ((∀ h', is_Some (hash_ring default_ring !! h') →
                   h' ≤ MD5.md5_int "visits:page-A") ∧
            sorted_keys default_ring !! 0%nat = Some h))
  | Raise e => hash_ring default_ring = ∅ ∧ e = Exception "Hash ring is empty"
  end.
Proof.
  split; [exact default_ring_wf|].
  exact (get_node_first_greater MD5.md5_int default_ring "visits:page-A" default_ring_wf).
Defined.

Lemma get_missing_key_zero_witness :
  get MD5.md5_int default_settings default_manager "visits:page-A" (calm_world 0)
  = (Ok (Some (0, "redis://redis1:6379")), calm_world 0).
Proof.
  apply (get_missing_key_zero MD5.md5_int default_settings default_manager
           "visits:page-A" "redis://redis1:6379" (calm_world 0) (calm_world 0)).
  - cbn. lia.
  - exact route_page_A.
  - reflexivity.
Defined.

Lemma reset_counter_not_atomic_witness :
  buffered "page-A" pending_service = 2 ∧
  ∃ s',
    reset_counter MD5.md5_int "page-A" (pending_service, mkWorld ∅ [true] 0)
    = (Raise (Exception "Failed to reset counter: Connection refused"),
       (s', mkWorld ∅ [] 0)) ∧
    cache s' = delete (cache_key_of "page-A") (cache pending_service) ∧
    write_buffer s' = PyDict.pop "page-A" (write_buffer pending_service) ∧
    cache s' !! cache_key_of "page-A" = None ∧
    buffered "page-A" s' = 0.
Proof.
  split; [reflexivity|].
  apply (reset_counter_not_atomic MD5.md5_int "page-A" "redis://redis1:6379"
           pending_service (mkWorld ∅ [true] 0) (mkWorld ∅ [] 0) "Connection refused").
  - exact route_page_A.
  - reflexivity.
Defined.

(** *** More theorems at concrete inputs *)

Lemma small_ring_checked : small_ring_checks = true.
Proof. vm_compute. reflexivity. Qed.

Lemma small_ring_exists :
  { r | run_ops MD5.md5_int 0 small_ops (empty_ring 2) = Finished r }.
Proof.
  pose proof small_ring_checked as Hc. unfold small_ring_checks in Hc.
  destruct (run_ops MD5.md5_int 0 small_ops (empty_ring 2)) as [r| |].
  - by exists r.
  - discriminate Hc.
  - discriminate Hc.
Qed.

Definition small_ring : ConsistentHash := proj1_sig small_ring_exists.

Lemma small_ring_built : run_ops MD5.md5_int 0 small_ops (empty_ring 2) = Finished small_ring.
Proof. exact (proj2_sig small_ring_exists). Qed.

Lemma small_ring_facts :
  "s3" ∈ nodes small_ring ∧ get_node MD5.md5_int small_ring "visits:page-C" = Ok "s2".
Proof.
  pose proof small_ring_checked as Hc. unfold small_ring_checks in Hc.
  rewrite small_ring_built in Hc. unfold small_checks in Hc.
  rewrite andb_true_iff, bool_decide_eq_true in Hc. destruct Hc as [Hnode Hroute].
  split; [exact Hnode|exact (routes_true _ _ _ Hroute)].
Qed.

Lemma small_labels_distinct : NoDup (label_hashes MD5.md5_int 2 ["s1"; "s2"; "s3"]).
Proof. apply (bool_decide_unpack _). vm_compute. exact I. Qed.

Lemma small_ring_exact : ring_exact MD5.md5_int 2 ["s1"; "s2"; "s3"] small_ring.
Proof.
  pose proof (run_ops_exact MD5.md5_int 2 ["s1"; "s2"; "s3"] small_labels_distinct 0
                small_ops (empty_ring 2) (empty_ring_exact _ _ _)) as Hexact.
  rewrite small_ring_built in Hexact. apply Hexact.
  intros op Hop. unfold small_ops in Hop.
  rewrite !elem_of_cons, elem_of_nil in Hop.
  destruct Hop as [->|[->|[->|[]]]]; cbn [op_node]; set_solver.
Qed.

Lemma default_manager_ok : manager_ok default_manager.
Proof.
  exact (proj1 (RedisManager_init_ok MD5.md5_int default_settings 0 (λ _, true)
                  default_manager default_manager_built)).
Qed.


Lemma add_node_moves_keys_to_new_shard_only_witness :
  ∃ r r',
    ring_wf r ∧
    add_node MD5.md5_int 0 r "s3" = Some r' ∧
    get_node MD5.md5_int r' "visits:page-C" = Ok "s2" ∧
    ("s2" = "s3" ∨ get_node MD5.md5_int r "visits:page-C" = Ok "s2").
Proof.
  pose proof small_ring_built as Hrun. unfold small_ops in Hrun. cbn [run_ops] in Hrun.
  destruct (add_node MD5.md5_int 0 (empty_ring 2) "s1") as [r1|] eqn:H1; [|discriminate Hrun].
  destruct (add_node MD5.md5_int 0 r1 "s2") as [r2|] eqn:H2; [|discriminate Hrun].
  destruct (add_node MD5.md5_int 0 r2 "s3") as [r3|] eqn:H3; [|discriminate Hrun].
  injection Hrun as ->.
  assert (ring_wf r2) as Hwf.
  { apply (add_node_wf _ _ _ _ _ (add_node_wf _ _ _ _ _ (empty_ring_wf 2) H1) H2). }
  destruct small_ring_facts as [_ Hroute].
  exists r2, small_ring. split; [exact Hwf|]. split; [exact H3|]. split; [exact Hroute|].
  exact (add_node_moves_keys_to_new_shard_only MD5.md5_int 0 r2 small_ring "s3"
           "visits:page-C" "s2" Hwf H3 Hroute).
Defined.

Lemma remove_node_keeps_other_routes_witness :
  ∃ r',
    remove_node MD5.md5_int small_ring "s3" = Ok r' ∧
    get_node MD5.md5_int small_ring "visits:page-C" = Ok "s2" ∧
    get_node MD5.md5_int r' "visits:page-C" = Ok "s2".
Proof.
  destruct small_ring_facts as [Hnode Hroute].
  destruct (remove_node_exact MD5.md5_int 2 ["s1"; "s2"; "s3"] small_labels_distinct
              small_ring "s3" small_ring_exact Hnode) as (r' & Hrm & _).
  exists r'. split; [exact Hrm|]. split; [exact Hroute|].
  apply (remove_node_keeps_other_routes MD5.md5_int small_ring r' "s3" "visits:page-C" "s2").
  - apply small_ring_exact.
  - intros i other Hi.
    apply (ring_exact_own_labels MD5.md5_int 2 ["s1"; "s2"; "s3"] small_ring "s3" i other
             small_labels_distinct small_ring_exact).
    + set_solver.
    + destruct small_ring_exact as [<- _]. exact Hi.
  - exact Hrm.
  - exact Hroute.
  - discriminate.
Defined.

Lemma add_then_remove_restores_witness :
  ∃ r1, add_node MD5.md5_int 0 (empty_ring 2) "s1" = Some r1 ∧
        "s1" ∈ nodes r1 ∧
        remove_node MD5.md5_int r1 "s1" = Ok (empty_ring 2).
Proof.
  apply (add_then_remove_restores MD5.md5_int 0 (empty_ring 2) "s1").
  - reflexivity.
  - apply not_elem_of_empty.
  - apply (bool_decide_unpack _). vm_compute. exact I.
  - intros h _. apply lookup_empty.
Defined.

Lemma get_node_returns_present_shard_witness :
  match run_ops MD5.md5_int 0 small_ops (empty_ring 2) with
  | Finished r =>
      match get_node MD5.md5_int r "visits:page-A" with
      | Ok node => node ∈ nodes r ∧ 2%nat ≠ 0%nat
      | Raise e => (nodes r = ∅ ∨ 2%nat = 0%nat) ∧ e = Exception "Hash ring is empty"
      end
  | Raised _ => True
  | Unfinished => False
  end.
Proof.
  apply (get_node_returns_present_shard MD5.md5_int 0 2 small_ops "visits:page-A").
  apply (bool_decide_unpack _). vm_compute. exact I.
Defined.

Lemma get_node_distribution_accounts_for_ring_witness :
  (∀ node, is_Some (get_node_distribution one_entry_ring !! node)
           ↔ node ∈ nodes one_entry_ring) ∧
  distribution_total one_entry_ring = size (hash_ring one_entry_ring).
Proof.
  apply (get_node_distribution_accounts_for_ring one_entry_ring).
  unfold one_entry_ring. cbn [hash_ring nodes]. generalize (MD5.md5_int "s1_0").
  intros k h node [_ <-]%lookup_singleton_Some. apply elem_of_singleton. reflexivity.
Defined.

Lemma RedisManager_init_flags_clients_witness :
  manager_ok default_manager ∧
  redis_nodes default_manager = REDIS_NODES default_settings ∧
  (∀ node, node ∈ REDIS_NODES default_settings →
     node_health default_manager !! node = Some ((λ _ : string, true) node) ∧
     (node ∈ redis_clients default_manager ↔ (λ _ : string, true) node = true)).
Proof.
  exact (RedisManager_init_flags_clients MD5.md5_int default_settings 0 (λ _, true)
           default_manager default_manager_built).
Defined.

Lemma health_check_round_keeps_manager_ok_witness :
  ∃ m' w',
    _health_check_round default_manager (mkWorld ∅ [false; false; true] 0) = (Ok m', w') ∧
    consistent_hash m' = consistent_hash default_manager ∧
    redis_nodes m' = redis_nodes default_manager ∧
    redis_clients m' = redis_clients default_manager ∧
    manager_ok m' ∧
    (∀ node, node ∈ redis_nodes default_manager → node ∉ redis_clients default_manager →
       node_health m' !! node = Some false).
Proof.
  exact (health_check_round_keeps_manager_ok default_manager
           (mkWorld ∅ [false; false; true] 0) default_manager_ok).
Defined.

Lemma get_connection_outcome_witness :
  match get_connection MD5.md5_int default_manager "visits:page-A" with
  | Ok node => node ∈ redis_nodes default_manager ∧
               node_health default_manager !! node = Some true ∧
               node ∈ redis_clients default_manager
  | Raise e => e = Exception "Hash ring is empty"
               ∨ e = Exception "No healthy Redis nodes available"
  end.
Proof.
  exact (get_connection_outcome MD5.md5_int default_manager "visits:page-A"
           default_manager_ok).
Defined.

Lemma get_connection_needs_healthy_node_witness :
  node_health default_manager !! "redis://redis1:6379" = Some true ∧
  "redis://redis1:6379" ∈ redis_clients default_manager ∧
  (0 < ManagerStatus.healthy_nodes (get_status default_manager))%nat.
Proof.
  exact (get_connection_needs_healthy_node MD5.md5_int default_manager "visits:page-A"
           "redis://redis1:6379" route_page_A).
Defined.

Lemma increment_retry_loop_witness :
  (∀ j, (j < REDIS_RETRY_ATTEMPTS default_settings)%nat →
     int64 (default 0 (held "redis://redis1:6379" "visits:page-A" ∅)) → int64 2 →
     int64 (default 0 (held "redis://redis1:6379" "visits:page-A" ∅) + 2) →
     increment MD5.md5_int default_settings default_manager "visits:page-A" 2
       (mkWorld ∅ (replicate j true ++ false :: []) 0)
     = (Ok (Some (default 0 (held "redis://redis1:6379" "visits:page-A" ∅) + 2)),
        mkWorld (incremented "redis://redis1:6379" "visits:page-A" 2 ∅) [] 0)) ∧
  ((0 < REDIS_RETRY_ATTEMPTS default_settings)%nat →
     increment MD5.md5_int default_settings default_manager "visits:page-A" 2
       (mkWorld ∅ (replicate (REDIS_RETRY_ATTEMPTS default_settings) true ++ []) 0)
     = (Raise (Exception "Failed to increment counter: Connection refused"),
        mkWorld ∅ [] 0)).
Proof.
  exact (increment_retry_loop MD5.md5_int default_settings default_manager "visits:page-A" 2
           "redis://redis1:6379" ∅ 0 [] route_page_A).
Defined.

Lemma get_retry_loop_witness :
  (∀ j, (j < REDIS_RETRY_ATTEMPTS default_settings)%nat →
     get MD5.md5_int default_settings default_manager "visits:page-A"
       (mkWorld ∅ (replicate j true ++ false :: []) 0)
     = (Ok (Some (default 0 (held "redis://redis1:6379" "visits:page-A" ∅),
                  "redis://redis1:6379")),
        mkWorld ∅ [] 0)) ∧
  ((0 < REDIS_RETRY_ATTEMPTS default_settings)%nat →
     get MD5.md5_int default_settings default_manager "visits:page-A"
       (mkWorld ∅ (replicate (REDIS_RETRY_ATTEMPTS default_settings) true ++ []) 0)
     = (Raise (Exception "Failed to get counter value: Connection refused"),
        mkWorld ∅ [] 0)).
Proof.
  exact (get_retry_loop MD5.md5_int default_settings default_manager "visits:page-A"
           "redis://redis1:6379" ∅ 0 [] route_page_A).
Defined.

Lemma increment_then_get_witness :
  (increment MD5.md5_int default_settings default_manager "visits:page-A" 2;;
   get MD5.md5_int default_settings default_manager "visits:page-A")%py
    (mkWorld ∅ [] 0)
  = (Ok (Some (default 0 (held "redis://redis1:6379" "visits:page-A" ∅) + 2,
               "redis://redis1:6379")),
     mkWorld (incremented "redis://redis1:6379" "visits:page-A" 2 ∅) [] 0).
Proof.
  apply (increment_then_get MD5.md5_int default_settings default_manager "visits:page-A" 2
           "redis://redis1:6379" ∅ 0).
  - cbn. lia.
  - exact route_page_A.
  - split; vm_compute; discriminate.
  - split; vm_compute; discriminate.
  - split; vm_compute; discriminate.
Defined.

Lemma reset_then_get_witness :
  (deleted_ ← reset MD5.md5_int default_manager "visits:page-A";
   got ← get MD5.md5_int default_settings default_manager "visits:page-A";
   ret (deleted_, got))%py (mkWorld ∅ [] 0)
  = (Ok (bool_decide (is_Some (held "redis://redis1:6379" "visits:page-A" ∅)),
         Some (0, "redis://redis1:6379")),
     mkWorld (deleted "redis://redis1:6379" "visits:page-A" ∅) [] 0).
Proof.
  apply (reset_then_get MD5.md5_int default_settings default_manager "visits:page-A"
           "redis://redis1:6379" ∅ 0).
  - cbn. lia.
  - exact route_page_A.
Defined.

Lemma write_buffer_stays_well_formed_witness :
  buffer_ok (write_buffer (increment_visit "page-A" (default_service, calm_world 0)).2.1) ∧
  ∀ K, 0 ≤ buffered K (increment_visit "page-A" (default_service, calm_world 0)).2.1.
Proof.
  apply (write_buffer_stays_well_formed MD5.md5_int default_settings
           (default_service, calm_world 0)).
  - apply rtc_once, run_service_step, step_increment.
  - split; constructor.
Defined.

Lemma visits_metric_never_moves_witness :
  visits (metrics (update_metrics (increment_visit "page-A"
                                     (default_service, calm_world 0)).2).2.1)
  = visits (metrics (default_service, calm_world 0).1).
Proof.
  apply (visits_metric_never_moves MD5.md5_int default_settings
           (default_service, calm_world 0)).
  eapply rtc_l; [apply run_service_step, step_increment|].
  apply rtc_once, run_update_metrics.
Defined.

Lemma flush_without_attempts_drops_counts_witness :
  buffered "page-A" pending_service = 2 ∧
  ∃ s',
    _flush_write_buffer MD5.md5_int no_attempt_settings [] (pending_service, calm_world 0)
    = (Ok tt, (s', calm_world 0)) ∧
    buffered "page-A" s' = accumulated "page-A" (write_buffer pending_service) [].
Proof.
  split; [reflexivity|].
  apply (flush_without_attempts_drops_counts MD5.md5_int no_attempt_settings []
           pending_service (calm_world 0) "page-A").
  reflexivity.
Defined.


Lemma reset_counter_clears_witness :
  ∃ s',
    reset_counter MD5.md5_int "page-A" (pending_service, mkWorld ∅ [] 0)
    = (Ok (bool_decide (is_Some (held "redis://redis1:6379" (cache_key_of "page-A") ∅))),
       (s', mkWorld (deleted "redis://redis1:6379" (cache_key_of "page-A") ∅) [] 0)) ∧
    held "redis://redis1:6379" (cache_key_of "page-A")
      (deleted "redis://redis1:6379" (cache_key_of "page-A") ∅) = None ∧
    buffered "page-A" s' = 0 ∧
    cache s' !! cache_key_of "page-A" = None ∧
    (∀ K, K ≠ "page-A" → buffered K s' = buffered K pending_service).
Proof.
  exact (reset_counter_clears MD5.md5_int "page-A" "redis://redis1:6379" pending_service
           ∅ 0 route_page_A).
Defined.


(** A service with two visits of "page-C" pending and its third shard
    down. *)
Definition stranded_service : VisitCounterService :=
  set_redis_manager one_down (set_write_buffer [("page-C", 2)] default_service).

Lemma one_down_ok : manager_ok one_down.
Proof.
  destruct (ping_nodes_ok default_manager (redis_nodes default_manager)
              (mkWorld ∅ [false; false; true] 0))
    as (m' & w' & Hrun & _ & _ & _ & Hok & _).
  unfold one_down, _health_check_round. rewrite Hrun. exact (Hok default_manager_ok).
Qed.

Lemma one_down_page_C :
  get_connection MD5.md5_int one_down "visits:page-C"
  = Raise (Exception "No healthy Redis nodes available").
Proof.
  destruct default_ring_facts as (_ & _ & HC & HF).
  assert (node_health one_down !! "redis://redis3:6379" = Some false) as Hdown
    by (rewrite one_down_health; reflexivity).
  exact (get_connection_stuck MD5.md5_int one_down "visits:page-C"
           "redis://redis3:6379" HC HF Hdown).
Qed.

Lemma stranded_service_buffer_ok : buffer_ok (write_buffer stranded_service).
Proof.
  split.
  - apply (bool_decide_unpack _). vm_compute. exact I.
  - repeat constructor.
Qed.

Lemma remove_then_add_restores_witness :
  match run_ops MD5.md5_int 0 small_ops (empty_ring 2) with
  | Finished r =>
      "s3" ∈ nodes r → run_ops MD5.md5_int 0 [Remove "s3"; Add "s3"] r = Finished r
  | Raised _ => True
  | Unfinished => False
  end.
Proof.
  apply (remove_then_add_restores MD5.md5_int 0 2 small_ops "s3").
  apply (bool_decide_unpack _). vm_compute. exact I.
Defined.

Lemma routing_failure_is_not_retried_witness :
  increment MD5.md5_int default_settings one_down "visits:page-C" 2 (calm_world 0)
  = (Raise (Exception "No healthy Redis nodes available"), calm_world 0) ∧
  get MD5.md5_int default_settings one_down "visits:page-C" (calm_world 0)
  = (Raise (Exception "No healthy Redis nodes available"), calm_world 0) ∧
  reset MD5.md5_int one_down "visits:page-C" (calm_world 0)
  = (Raise (Exception "No healthy Redis nodes available"), calm_world 0).
Proof.
  apply (routing_failure_is_not_retried MD5.md5_int default_settings one_down
           "visits:page-C" 2 (Exception "No healthy Redis nodes available") (calm_world 0)).
  - exact one_down_ok.
  - cbn. lia.
  - exact one_down_page_C.
Defined.

Lemma flush_keeps_unroutable_counts_witness :
  ∃ s' w',
    _flush_write_buffer MD5.md5_int default_settings [] (stranded_service, calm_world 0)
    = (Ok tt, (s', w')) ∧
    buffered "page-C" s'
    = buffered "page-C" stranded_service
      + accumulated "page-C" (write_buffer stranded_service) [].
Proof.
  apply (flush_keeps_unroutable_counts MD5.md5_int default_settings []
           stranded_service (calm_world 0) "page-C"
           (Exception "No healthy Redis nodes available")).
  - cbn. lia.
  - exact one_down_ok.
  - exact stranded_service_buffer_ok.
  - exact one_down_page_C.
Defined.

Lemma cleanup_cache_keeps_fresh_entries_witness :
  ∃ s',
    _cleanup_cache default_settings (cached_service, calm_world 4999999)
    = (Ok tt, (s', calm_world 4999999)) ∧
    (∀ key entry,
       cache s' !! key = Some entry ↔
       cache cached_service !! key = Some entry ∧
       clock (calm_world 4999999) - timestamp entry
       < seconds (CACHE_TTL_SECONDS default_settings)) ∧
    write_buffer s' = write_buffer cached_service ∧
    redis_manager s' = redis_manager cached_service ∧
    metrics s' = metrics cached_service.
Proof.
  apply (cleanup_cache_keeps_fresh_entries default_settings cached_service
           (calm_world 4999999)).
  split; vm_compute; discriminate.
Defined.



(** The run on the hash that collides: both shards are added, the second
    one under the hash of its rehashed label, and its removal takes the
    entry of the first. *)
Lemma collision_run_on_length_hash :
  length_hash (virtual_node_key "s1" 0) = length_hash (virtual_node_key "s2" 0) ∧
  run_ops length_hash 1 [Add "s1"; Add "s2"] (empty_ring 1)
  = Finished (mkRing 1 {[4 := "s1"; 14 := "s2"]} [4; 14] {["s1"; "s2"]}) ∧
  run_ops length_hash 1 [Add "s1"; Add "s2"; Remove "s2"] (empty_ring 1)
  = Finished (mkRing 1 {[14 := "s2"]} [14] {["s1"]}).
Proof. vm_compute. done. Qed.

Lemma remove_node_misses_rehashed_labels_witness :
  match run_ops length_hash 1 [Add "s1"; Add "s2"; Remove "s2"] (empty_ring 1) with
  | Finished r =>
      nodes r = {["s1"]} ∧
      (∃ h, hash_ring r = {[h := "s2"]}) ∧
      entries_of (hash_ring r) "s1" = 0%nat ∧
      entries_of (hash_ring r) "s2" = 1%nat ∧
      ¬ ring_invariant r
  | Raised _ => False
  | Unfinished => True
  end.
Proof.
  apply (remove_node_misses_rehashed_labels length_hash "s1" "s2" 1).
  - discriminate.
  - reflexivity.
Defined.
